(** * Neon Snake: a shallow embedding of the deterministic simulation core

    The development follows the TypeScript sources of the engine:

    - [src/engine/rng.ts]        the seeded generator [SeededRNG];
    - [src/engine/collision.ts]  the geometric predicates;
    - [src/engine/spawn.ts]      the food spawn system;
    - [src/engine/GameEngine.ts] the state machine [GameEngine];
    - [src/ui/hooks/useGameLoop.ts] the fixed-timestep loop that drives
      it.

    Modelling conventions.  A JavaScript number that the engine only ever
    uses as an integer (grid coordinates, scores, tick rates, the generator
    state) is a [Z]; the 32-bit conversions that the bit operators perform
    are written out ([toInt32], [toUint32]).  The integer model is exact as
    long as the magnitudes stay below 2^53, where doubles represent every
    integer.  Clock samples ([performance.now()], [Date.now()]) are inputs
    of the operations that read them and are integers as well.  The
    probabilities of the spawn configuration are rationals ([Q]).  A
    function whose JavaScript counterpart may raise a [TypeError] (reading a
    property of [undefined]) or produce [NaN] returns an [option]. *)

From Stdlib Require Import ZArith QArith Lia String Ascii List.
From Stdlib Require Import DecimalString DecimalZ.
From stdpp Require Import base numbers list strings gmap.

Local Open Scope Z_scope.

(** ** JavaScript number primitives *)

Module JS.

(** [ToInt32]: reduction modulo 2^32 into the signed range. *)
Definition toInt32 (z : Z) : Z := (z + 2 ^ 31) mod 2 ^ 32 - 2 ^ 31.

(** [ToUint32]: reduction modulo 2^32 into the unsigned range. *)
Definition toUint32 (z : Z) : Z := z mod 2 ^ 32.

(** [a << n] *)
Definition shl (a n : Z) : Z := toInt32 (Z.shiftl (toInt32 a) (n mod 32)).

(** [a >>> n] *)
Definition ushr (a n : Z) : Z := Z.shiftr (toUint32 a) (n mod 32).

(** [a ^ b], [a | b], [a & b] *)
Definition bxor (a b : Z) : Z := Z.lxor (toInt32 a) (toInt32 b).
Definition bor (a b : Z) : Z := Z.lor (toInt32 a) (toInt32 b).
Definition band (a b : Z) : Z := Z.land (toInt32 a) (toInt32 b).

(** [Math.imul(a, b)] *)
Definition imul (a b : Z) : Z := toInt32 (toInt32 a * toInt32 b).

(** A JavaScript string is its sequence of UTF-16 code units, the values
    that [charCodeAt] returns; [codeUnits] gives those of a string of
    one-byte characters. *)
Definition codeUnits (s : string) : list Z :=
  map (λ c, Z.of_nat (nat_of_ascii c)) (list_ascii_of_string s).

(** The separator of the keys of the spawn system. *)
Definition comma : ascii := ","%char.

(** [String(n)] for an integer [n]. *)
Definition numberToString (n : Z) : string :=
  NilZero.string_of_int (Z.to_int n).

(** [s.padStart(2, '0')] *)
Definition padStart2 (s : string) : string :=
  match String.length s with
  | O => "00" ++ s
  | S O => "0" ++ s
  | _ => s
  end%string.

End JS.

(** ** src/engine/rng.ts *)

Module Rng.
Import JS.

(** The only field of a [SeededRNG] instance. *)
Record SeededRNG : Type := mkRNG { seed : Z }.

(** The argument of the constructor: [number | string], a string being
    given by its code units. *)
Inductive SeedArg : Type :=
| NumSeed (n : Z)
| StrSeed (str : list Z).

(** One round of the loop of [hashString]. *)
Definition hashStep (hash char : Z) : Z :=
  let hash := (shl hash 5 - hash) + char in
  band hash hash.

Definition hashString (str : list Z) : Z :=
  Z.abs (fold_left hashStep str 0).

(** [new SeededRNG(seed)] *)
Definition new (s : SeedArg) : SeededRNG :=
  match s with
  | StrSeed str => mkRNG (hashString str)
  | NumSeed n => mkRNG n
  end.

(** The numerator of the value that [next()] returns: the result is
    [nextBits / 4294967296], an exact double. *)
Definition nextBits (r : SeededRNG) : Z :=
  let t := seed r + 0x6d2b79f5 in
  let t := imul (bxor t (ushr t 15)) (bor t 1) in
  let t := bxor t (t + imul (bxor t (ushr t 7)) (bor t 61)) in
  ushr (bxor t (ushr t 14)) 0.

(** The state that [next()] leaves behind: [this.seed += 0x6d2b79f5]. *)
Definition advance (r : SeededRNG) : SeededRNG :=
  mkRNG (seed r + 0x6d2b79f5).

(** [next()], as a state transformer. *)
Definition next (r : SeededRNG) : Z * SeededRNG := (nextBits r, advance r).

(** The value of [next()] as a rational number. *)
Definition toUnit (bits : Z) : Q := inject_Z bits / inject_Z 4294967296.

(** [pick(array)]: [array[Math.floor(this.next() * array.length)]];
    [None] is JavaScript's [undefined].  The product is exact in a double
    for arrays of fewer than 2^21 elements, which is the case of every
    grid the game displays. *)
Definition pick {T : Type} (array : list T) (r : SeededRNG)
  : option T * SeededRNG :=
  let '(bits, r') := next r in
  let index := (bits * Z.of_nat (length array)) / 4294967296 in
  (if 0 <=? index then array !! Z.to_nat index else None, r').

Definition clone (r : SeededRNG) : SeededRNG := new (NumSeed (seed r)).

(** What [Date] gives to [getDailySeed]: [getFullYear()], [getMonth()]
    and [getDate()]. *)
Record Date : Type := mkDate { fullYear : Z; month : Z; date : Z }.

Definition getDailySeed (d : Date) : string :=
  let year := numberToString (fullYear d) in
  let month := padStart2 (numberToString (month d + 1)) in
  let day := padStart2 (numberToString (date d)) in
  ("daily-" ++ year ++ month ++ day)%string.

(** [createDefaultRNG()], given the sample of [Date.now()]. *)
Definition createDefaultRNG (dateNow : Z) : SeededRNG :=
  new (NumSeed dateNow).

(** [n] successive calls of [next()] on one instance: the values
    returned, oldest first, and the final state. *)
Fixpoint calls (n : nat) (r : SeededRNG) : list Z * SeededRNG :=
  match n with
  | O => ([], r)
  | S n' =>
      let '(v, r1) := next r in
      let '(vs, r2) := calls n' r1 in
      (v :: vs, r2)
  end.

(** Two instances living side by side, each with its own [seed] field. *)
Inductive Which : Type := First | Second.

Record Pair : Type := mkPair {
  inst1 : SeededRNG; out1 : list Z;
  inst2 : SeededRNG; out2 : list Z
}.

Definition newPair (s1 s2 : SeedArg) : Pair :=
  mkPair (new s1) [] (new s2) [].

(** A call of [next()] on one of the two instances; the value returned
    is appended to the log of that instance. *)
Definition callOn (w : Which) (p : Pair) : Pair :=
  match w with
  | First =>
      let '(v, r) := next (inst1 p) in
      mkPair r (out1 p ++ [v]) (inst2 p) (out2 p)
  | Second =>
      let '(v, r) := next (inst2 p) in
      mkPair (inst1 p) (out1 p) r (out2 p ++ [v])
  end.

(** Any interleaving of calls on the two instances. *)
Definition schedule (ws : list Which) (p : Pair) : Pair :=
  fold_left (λ p w, callOn w p) ws p.

Definition isFirst (w : Which) : bool :=
  match w with First => true | Second => false end.

(** The number of calls that a schedule makes on the first ([true]) or
    on the second ([false]) instance. *)
Fixpoint callsOf (b : bool) (ws : list Which) : nat :=
  match ws with
  | [] => 0%nat
  | w :: ws =>
      if Bool.eqb (isFirst w) b then S (callsOf b ws) else callsOf b ws
  end.


(** [nextBool(probability)]: [this.next() < probability] *)
Definition nextBool (probability : Q) (r : SeededRNG) : bool * SeededRNG :=
  let '(bits, r') := next r in
  (negb (Qle_bool probability (toUnit bits)), r').

(** The polynomial that [hashString] evaluates modulo 2^32: the code
    units are the coefficients, the first one of highest degree, and 31 is
    the point of evaluation. *)
Definition polynomial31 (str : list Z) : Z :=
  fold_left (λ acc char, 31 * acc + char) str 0.

(** [String(n).padStart(2, '0')], as [getDailySeed] uses it. *)
Definition pad2 (n : Z) : string := padStart2 (numberToString n).

(** The dates of the calendar, as [getMonth()] and [getDate()] number
    them. *)
Definition calendarDate (d : Date) : Prop :=
  (0 ≤ month d ≤ 11) ∧ (1 ≤ date d ≤ 31).

End Rng.


(** ** src/types/index.ts *)

Module Types.

Record Vector2 : Type := mkVec { x : Z; y : Z }.

(** [SnakeSegment extends Vector2] *)
Record SnakeSegment : Type :=
  mkSeg { segPos :> Vector2; prevX : Z; prevY : Z }.

Inductive Direction : Type := UP | DOWN | LEFT | RIGHT.

Definition DIRECTION_VECTORS (d : Direction) : Vector2 :=
  match d with
  | UP => mkVec 0 (-1)
  | DOWN => mkVec 0 1
  | LEFT => mkVec (-1) 0
  | RIGHT => mkVec 1 0
  end.

Definition OPPOSITE_DIRECTION (d : Direction) : Direction :=
  match d with
  | UP => DOWN
  | DOWN => UP
  | LEFT => RIGHT
  | RIGHT => LEFT
  end.

Inductive FoodType : Type := normal | special | speed | slow.

(** [Food extends Vector2]; [expiresAt] is an optional field. *)
Record Food : Type := mkFood {
  foodPos :> Vector2;
  type : FoodType;
  spawnTime : Z;
  expiresAt : option Z
}.

Inductive GamePhase : Type := boot | menu | playing | paused | gameover.

Inductive GameMode : Type := classic | daily | zen.

Record GameState : Type := mkState {
  phase : GamePhase;
  mode : GameMode;
  score : Z;
  highScore : Z;
  combo : Z;
  lastEatTime : Z;
  comboWindow : Z;
  snake : list SnakeSegment;
  direction : Direction;
  nextDirection : option Direction;
  directionBuffer : list Direction;
  food : option Food;
  gridWidth : Z;
  gridHeight : Z;
  tickRate : Z;
  baseTickRate : Z;
  tickCount : Z;
  gracePeriodTicks : Z;
  dailySeed : string
}.

Inductive CollisionReason : Type := wall | self.

(** The tagged union [GameEvent]. *)
Inductive GameEvent : Type :=
| FOOD_EATEN (foodType : FoodType) (score combo : Z)
| COLLISION (reason : CollisionReason)
| PHASE_CHANGE (from to : GamePhase)
| TICK
| COMBO_BREAK
| SPEED_CHANGE (newTickRate : Z).

#[global] Instance Vector2_eq_dec : EqDecision Vector2.
Proof. solve_decision. Defined.
#[global] Instance Direction_eq_dec : EqDecision Direction.
Proof. solve_decision. Defined.
#[global] Instance FoodType_eq_dec : EqDecision FoodType.
Proof. solve_decision. Defined.
#[global] Instance GamePhase_eq_dec : EqDecision GamePhase.
Proof. solve_decision. Defined.
#[global] Instance GameMode_eq_dec : EqDecision GameMode.
Proof. solve_decision. Defined.

End Types.

(** ** src/engine/collision.ts *)

Module Collision.
Import Types.

Definition checkWallCollision (pos : Vector2) (gridWidth gridHeight : Z)
  : bool :=
  (x pos <? 0) || (x pos >=? gridWidth) || (y pos <? 0)
  || (y pos >=? gridHeight).

(** The loop [for (i = skipFirst; i < body.length; i++)] with its early
    [return true]. *)
Definition checkSelfCollision (head : Vector2) (body : list SnakeSegment)
    (skipFirst : nat) : bool :=
  existsb (λ seg : SnakeSegment, (x seg =? x head) && (y seg =? y head))
          (drop skipFirst body).

Definition checkFoodCollision (head : Vector2) (food : option Vector2)
  : bool :=
  match food with
  | None => false
  | Some food => (x head =? x food) && (y head =? y food)
  end.

Inductive CollisionType : Type := cNone | cWall | cSelf | cFood.

Record CollisionResult : Type :=
  mkResult { ctype : CollisionType; position : option Vector2 }.

Definition checkCollision (head : Vector2) (snake : list SnakeSegment)
    (food : option Vector2) (gridWidth gridHeight : Z) : CollisionResult :=
  if checkWallCollision head gridWidth gridHeight
  then mkResult cWall (Some head)
  else if checkSelfCollision head snake 1
  then mkResult cSelf (Some head)
  else if checkFoodCollision head food
  then mkResult cFood (Some head)
  else mkResult cNone None.

Definition getNextHeadPosition (current direction : Vector2) : Vector2 :=
  mkVec (x current + x direction) (y current + y direction).

(** JavaScript's [a % b] on integers: the remainder has the sign of the
    dividend, and a zero divisor gives [NaN] ([None]). *)
Definition jsRem (a b : Z) : option Z :=
  if b =? 0 then None else Some (Z.rem a b).

(** [((c % size) + size) % size] *)
Definition wrapCoord (c size : Z) : option Z :=
  r ← jsRem c size; jsRem (r + size) size.

Definition wrapPosition (pos : Vector2) (gridWidth gridHeight : Z)
  : option Vector2 :=
  wx ← wrapCoord (x pos) gridWidth;
  wy ← wrapCoord (y pos) gridHeight;
  Some (mkVec wx wy).

Definition manhattanDistance (a b : Vector2) : Z :=
  Z.abs (x b - x a) + Z.abs (y b - y a).

End Collision.

(** ** src/engine/spawn.ts *)

Module Spawn.
Import Types.

Record SpawnConfig : Type := mkConfig {
  gridWidth : Z;
  gridHeight : Z;
  specialChance : Q;
  speedChance : Q;
  slowChance : Q;
  specialDuration : Z
}.

(** [Partial<SpawnConfig>]: every field may be absent. *)
Record PartialSpawnConfig : Type := mkPartial {
  gridWidth' : option Z;
  gridHeight' : option Z;
  specialChance' : option Q;
  speedChance' : option Q;
  slowChance' : option Q;
  specialDuration' : option Z
}.

Definition DEFAULT_CONFIG : SpawnConfig :=
  mkConfig 20 20 (8 # 100) (5 # 100) (5 # 100) 8000.

(** [{ ...DEFAULT_CONFIG, ...config }] *)
Definition mergeConfig (config : PartialSpawnConfig) : SpawnConfig :=
  mkConfig
    (default (gridWidth DEFAULT_CONFIG) (gridWidth' config))
    (default (gridHeight DEFAULT_CONFIG) (gridHeight' config))
    (default (specialChance DEFAULT_CONFIG) (specialChance' config))
    (default (speedChance DEFAULT_CONFIG) (speedChance' config))
    (default (slowChance DEFAULT_CONFIG) (slowChance' config))
    (default (specialDuration DEFAULT_CONFIG) (specialDuration' config)).

(** The configuration that the engine passes:
    [{ gridWidth, gridHeight }]. *)
Definition gridConfig (w h : Z) : PartialSpawnConfig :=
  mkPartial (Some w) (Some h) None None None None.

(** The template string [`${x},${y}`]. *)
Definition coordKey (x y : Z) : string :=
  (JS.numberToString x ++ "," ++ JS.numberToString y)%string.

(** The first loop of [getEmptyCells]: the [Set<string>] of the keys of
    the occupied positions. *)
Definition occupiedKeys (occupied : list Vector2) : gset string :=
  fold_left (λ set pos, {[ coordKey (x pos) (y pos) ]} ∪ set) occupied ∅.

(** The nested loops of [getEmptyCells]: [x] is the outer index, [y] the
    inner one, and each free cell is pushed at the end of the result. *)
Definition getEmptyCells (gridWidth gridHeight : Z)
    (occupied : list Vector2) : list Vector2 :=
  let occupiedSet := occupiedKeys occupied in
  x ← seqZ 0 gridWidth;
  y ← seqZ 0 gridHeight;
  if bool_decide (coordKey x y ∈ occupiedSet) then [] else [mkVec x y].

(** [a < b] on rationals. *)
Definition Qltb (a b : Q) : bool := negb (Qle_bool b a).

(** The probability bands of [spawnFood], for a roll already drawn. *)
Definition chooseType (cfg : SpawnConfig) (currentScore : Z) (roll : Q)
  : FoodType :=
  if currentScore >? 30 then
    if Qltb roll (specialChance cfg) then special
    else if Qltb roll (specialChance cfg + speedChance cfg) then speed
    else if Qltb roll
              (specialChance cfg + speedChance cfg + slowChance cfg)
    then slow
    else normal
  else normal.

(** [spawnFood(rng, snake, config, currentScore)].  [now] is the sample
    of [performance.now()] that the function takes.  The outer [option]
    is [None] when [pos.x] is read from [undefined]; the inner one is the
    [Food | null] that the function returns. *)
Definition spawnFood (rng : Rng.SeededRNG) (snake : list SnakeSegment)
    (config : PartialSpawnConfig) (currentScore : Z) (now : Z)
  : option (option Food * Rng.SeededRNG) :=
  let cfg := mergeConfig config in
  let emptyCells :=
    getEmptyCells (gridWidth cfg) (gridHeight cfg) (segPos <$> snake) in
  if bool_decide (length emptyCells = 0%nat) then Some (None, rng)
  else
    let '(picked, rng) := Rng.pick emptyCells rng in
    pos ← picked;
    let '(bits, rng) := Rng.next rng in
    let roll := Rng.toUnit bits in
    let type := chooseType cfg currentScore roll in
    Some (Some (mkFood (mkVec (x pos) (y pos)) type now
                  (if bool_decide (type ≠ normal)
                   then Some (now + specialDuration cfg) else None)),
          rng).

(** JavaScript truthiness of an optional number. *)
Definition truthy (n : option Z) : bool :=
  match n with
  | Some v => negb (v =? 0)
  | None => false
  end.

Definition isFoodValid (food : Food) (currentTime : Z) : bool :=
  if truthy (expiresAt food)
     && (match expiresAt food with
         | Some e => currentTime >? e
         | None => false
         end)
  then false
  else true.

Definition baseScores (foodType : FoodType) : Z :=
  match foodType with
  | normal => 10
  | special => 50
  | speed => 30
  | slow => 20
  end.

Definition getFoodScore (foodType : FoodType) (combo : Z) : Z :=
  let base := baseScores foodType in
  let comboBonus := combo * 5 in
  base + comboBonus.

Definition isOnSnake (pos : Vector2) (snake : list SnakeSegment) : bool :=
  existsb (λ seg : SnakeSegment, (x seg =? x pos) && (y seg =? y pos))
          snake.

(** *** Reference orders of the grid cells

    The two enumerations of a [gridWidth] by [gridHeight] grid that the
    statements about [getEmptyCells] compare it with.  Column-major: the
    cells of column [x = 0] by increasing [y], then those of [x = 1], and
    so on.  Row-major: the cells of row [y = 0] by increasing [x], then
    those of [y = 1], and so on. *)
Definition columnMajorGrid (gridWidth gridHeight : Z) : list Vector2 :=
  x ← seqZ 0 gridWidth; y ← seqZ 0 gridHeight; [mkVec x y].

Definition rowMajorGrid (gridWidth gridHeight : Z) : list Vector2 :=
  y ← seqZ 0 gridHeight; x ← seqZ 0 gridWidth; [mkVec x y].

(** The cells of an enumeration that no element of [occupied] covers, in
    the order of the enumeration. *)
Definition unoccupied (occupied cells : list Vector2) : list Vector2 :=
  filter (λ c, c ∉ occupied) cells.

(** The distinct cells that a snake covers. *)
Definition occupiedCells (snake : list SnakeSegment) : list Vector2 :=
  remove_dups (segPos <$> snake).

End Spawn.


(** ** src/engine/GameEngine.ts *)

Module Engine.
Import Types.

Definition COMBO_WINDOW_MS : Z := 2500.
Definition GRACE_PERIOD_TICKS : Z := 3.
Definition BASE_TICK_RATES (m : GameMode) : Z :=
  match m with
  | classic => 100
  | daily => 100
  | zen => 150
  end.
Definition MIN_TICK_RATE : Z := 50.
Definition SPEED_INCREMENT_SCORE : Z := 50.
Definition SPEED_INCREMENT_MS : Z := 3.

(** *** Assignments to the fields of [this.state] *)

Definition set_phase (v : GamePhase) (s : GameState) : GameState :=
  mkState v (mode s) (score s) (highScore s) (combo s) (lastEatTime s)
    (comboWindow s) (snake s) (direction s) (nextDirection s)
    (directionBuffer s) (food s) (gridWidth s) (gridHeight s) (tickRate s)
    (baseTickRate s) (tickCount s) (gracePeriodTicks s) (dailySeed s).

Definition set_mode (v : GameMode) (s : GameState) : GameState :=
  mkState (phase s) v (score s) (highScore s) (combo s) (lastEatTime s)
    (comboWindow s) (snake s) (direction s) (nextDirection s)
    (directionBuffer s) (food s) (gridWidth s) (gridHeight s) (tickRate s)
    (baseTickRate s) (tickCount s) (gracePeriodTicks s) (dailySeed s).

Definition set_score (v : Z) (s : GameState) : GameState :=
  mkState (phase s) (mode s) v (highScore s) (combo s) (lastEatTime s)
    (comboWindow s) (snake s) (direction s) (nextDirection s)
    (directionBuffer s) (food s) (gridWidth s) (gridHeight s) (tickRate s)
    (baseTickRate s) (tickCount s) (gracePeriodTicks s) (dailySeed s).

Definition set_highScore (v : Z) (s : GameState) : GameState :=
  mkState (phase s) (mode s) (score s) v (combo s) (lastEatTime s)
    (comboWindow s) (snake s) (direction s) (nextDirection s)
    (directionBuffer s) (food s) (gridWidth s) (gridHeight s) (tickRate s)
    (baseTickRate s) (tickCount s) (gracePeriodTicks s) (dailySeed s).

Definition set_combo (v : Z) (s : GameState) : GameState :=
  mkState (phase s) (mode s) (score s) (highScore s) v (lastEatTime s)
    (comboWindow s) (snake s) (direction s) (nextDirection s)
    (directionBuffer s) (food s) (gridWidth s) (gridHeight s) (tickRate s)
    (baseTickRate s) (tickCount s) (gracePeriodTicks s) (dailySeed s).

Definition set_lastEatTime (v : Z) (s : GameState) : GameState :=
  mkState (phase s) (mode s) (score s) (highScore s) (combo s) v
    (comboWindow s) (snake s) (direction s) (nextDirection s)
    (directionBuffer s) (food s) (gridWidth s) (gridHeight s) (tickRate s)
    (baseTickRate s) (tickCount s) (gracePeriodTicks s) (dailySeed s).

Definition set_snake (v : list SnakeSegment) (s : GameState) : GameState :=
  mkState (phase s) (mode s) (score s) (highScore s) (combo s)
    (lastEatTime s) (comboWindow s) v (direction s) (nextDirection s)
    (directionBuffer s) (food s) (gridWidth s) (gridHeight s) (tickRate s)
    (baseTickRate s) (tickCount s) (gracePeriodTicks s) (dailySeed s).

Definition set_direction (v : Direction) (s : GameState) : GameState :=
  mkState (phase s) (mode s) (score s) (highScore s) (combo s)
    (lastEatTime s) (comboWindow s) (snake s) v (nextDirection s)
    (directionBuffer s) (food s) (gridWidth s) (gridHeight s) (tickRate s)
    (baseTickRate s) (tickCount s) (gracePeriodTicks s) (dailySeed s).

Definition set_nextDirection (v : option Direction) (s : GameState) : GameState :=
  mkState (phase s) (mode s) (score s) (highScore s) (combo s)
    (lastEatTime s) (comboWindow s) (snake s) (direction s) v
    (directionBuffer s) (food s) (gridWidth s) (gridHeight s) (tickRate s)
    (baseTickRate s) (tickCount s) (gracePeriodTicks s) (dailySeed s).

Definition set_directionBuffer (v : list Direction) (s : GameState) : GameState :=
  mkState (phase s) (mode s) (score s) (highScore s) (combo s)
    (lastEatTime s) (comboWindow s) (snake s) (direction s)
    (nextDirection s) v (food s) (gridWidth s) (gridHeight s) (tickRate s)
    (baseTickRate s) (tickCount s) (gracePeriodTicks s) (dailySeed s).

Definition set_food (v : option Food) (s : GameState) : GameState :=
  mkState (phase s) (mode s) (score s) (highScore s) (combo s)
    (lastEatTime s) (comboWindow s) (snake s) (direction s)
    (nextDirection s) (directionBuffer s) v (gridWidth s) (gridHeight s)
    (tickRate s) (baseTickRate s) (tickCount s) (gracePeriodTicks s)
    (dailySeed s).

Definition set_gridWidth (v : Z) (s : GameState) : GameState :=
  mkState (phase s) (mode s) (score s) (highScore s) (combo s)
    (lastEatTime s) (comboWindow s) (snake s) (direction s)
    (nextDirection s) (directionBuffer s) (food s) v (gridHeight s)
    (tickRate s) (baseTickRate s) (tickCount s) (gracePeriodTicks s)
    (dailySeed s).

Definition set_gridHeight (v : Z) (s : GameState) : GameState :=
  mkState (phase s) (mode s) (score s) (highScore s) (combo s)
    (lastEatTime s) (comboWindow s) (snake s) (direction s)
    (nextDirection s) (directionBuffer s) (food s) (gridWidth s) v
    (tickRate s) (baseTickRate s) (tickCount s) (gracePeriodTicks s)
    (dailySeed s).

Definition set_tickRate (v : Z) (s : GameState) : GameState :=
  mkState (phase s) (mode s) (score s) (highScore s) (combo s)
    (lastEatTime s) (comboWindow s) (snake s) (direction s)
    (nextDirection s) (directionBuffer s) (food s) (gridWidth s)
    (gridHeight s) v (baseTickRate s) (tickCount s) (gracePeriodTicks s)
    (dailySeed s).

Definition set_baseTickRate (v : Z) (s : GameState) : GameState :=
  mkState (phase s) (mode s) (score s) (highScore s) (combo s)
    (lastEatTime s) (comboWindow s) (snake s) (direction s)
    (nextDirection s) (directionBuffer s) (food s) (gridWidth s)
    (gridHeight s) (tickRate s) v (tickCount s) (gracePeriodTicks s)
    (dailySeed s).

Definition set_tickCount (v : Z) (s : GameState) : GameState :=
  mkState (phase s) (mode s) (score s) (highScore s) (combo s)
    (lastEatTime s) (comboWindow s) (snake s) (direction s)
    (nextDirection s) (directionBuffer s) (food s) (gridWidth s)
    (gridHeight s) (tickRate s) (baseTickRate s) v (gracePeriodTicks s)
    (dailySeed s).

Definition set_gracePeriodTicks (v : Z) (s : GameState) : GameState :=
  mkState (phase s) (mode s) (score s) (highScore s) (combo s)
    (lastEatTime s) (comboWindow s) (snake s) (direction s)
    (nextDirection s) (directionBuffer s) (food s) (gridWidth s)
    (gridHeight s) (tickRate s) (baseTickRate s) (tickCount s) v
    (dailySeed s).

Definition set_dailySeed (v : string) (s : GameState) : GameState :=
  mkState (phase s) (mode s) (score s) (highScore s) (combo s)
    (lastEatTime s) (comboWindow s) (snake s) (direction s)
    (nextDirection s) (directionBuffer s) (food s) (gridWidth s)
    (gridHeight s) (tickRate s) (baseTickRate s) (tickCount s)
    (gracePeriodTicks s) v.

(** *** The engine object

    [emitted] is the sequence of events handed to the listeners, oldest
    first.  [storage] is the table of high scores kept under the
    [localStorage] key [neonSnake_v1]; a missing entry reads as absent.
    The particle list and the shake magnitude are floating-point
    quantities that only the renderer reads; they are not part of the
    model. *)
Record GameEngine : Type := mkEngine {
  state : GameState;
  rng : Rng.SeededRNG;
  poppedTail : option SnakeSegment;
  emitted : list GameEvent;
  storage : GameMode → option Z
}.

Definition upd (f : GameState → GameState) (e : GameEngine) : GameEngine :=
  mkEngine (f (state e)) (rng e) (poppedTail e) (emitted e) (storage e).

Definition set_rng (r : Rng.SeededRNG) (e : GameEngine) : GameEngine :=
  mkEngine (state e) r (poppedTail e) (emitted e) (storage e).

Definition set_poppedTail (t : option SnakeSegment) (e : GameEngine)
  : GameEngine :=
  mkEngine (state e) (rng e) t (emitted e) (storage e).

Definition set_storage (st : GameMode → option Z) (e : GameEngine)
  : GameEngine :=
  mkEngine (state e) (rng e) (poppedTail e) (emitted e) st.

(** [this.emit(event)] *)
Definition emit (ev : GameEvent) (e : GameEngine) : GameEngine :=
  mkEngine (state e) (rng e) (poppedTail e) (emitted e ++ [ev]) (storage e).

(** [parsed.highScores?.[mode] ?? 0] *)
Definition loadHighScore (mode : GameMode) (e : GameEngine) : Z :=
  default 0 (storage e mode).

(** [parsed.highScores[mode] = Math.max(parsed.highScores[mode] ?? 0,
    score)] *)
Definition saveHighScore (mode : GameMode) (score : Z) (e : GameEngine)
  : GameEngine :=
  set_storage
    (λ m, if bool_decide (m = mode)
          then Some (Z.max (default 0 (storage e mode)) score)
          else storage e m)
    e.

(** The samples of the outside world that the constructor and
    [startGame] read: [Date.now()], [new Date()], and the
    [performance.now()] of the first [spawnFood]. *)
Record StartEnv : Type := mkStartEnv {
  dateNow : Z;
  today : Rng.Date;
  spawnNow : Z
}.

(** The clock samples of one [tick]: the one of [tick] itself, the one of
    the [spawnFood] that replaces an expired food, the one of [eatFood],
    and the one of the [spawnFood] at the end of [eatFood]. *)
Record TickEnv : Type := mkTickEnv {
  tickNow : Z;
  respawnNow : Z;
  eatNow : Z;
  eatSpawnNow : Z
}.

Definition createInitialState (today : Rng.Date) (highScore : Z)
  : GameState :=
  mkState boot classic 0 highScore 0 0 COMBO_WINDOW_MS [] RIGHT None []
          None 20 20 (BASE_TICK_RATES classic) (BASE_TICK_RATES classic)
          0 GRACE_PERIOD_TICKS (Rng.getDailySeed today).

(** [new GameEngine()] *)
Definition construct (env : StartEnv) (stored : GameMode → option Z)
  : GameEngine :=
  mkEngine (createInitialState (today env) (default 0 (stored classic)))
           (Rng.createDefaultRNG (dateNow env)) None [] stored.

Definition setGridSize (width height : Z) (e : GameEngine) : GameEngine :=
  upd (set_gridHeight height) (upd (set_gridWidth width) e).

(** [spawnFood(this.rng, this.state.snake, { gridWidth, gridHeight },
    score)] followed by the assignment to [this.state.food]. *)
Definition respawn (currentScore now : Z) (e : GameEngine)
  : option GameEngine :=
  '(food, rng) ← Spawn.spawnFood (rng e) (snake (state e))
                    (Spawn.gridConfig (gridWidth (state e))
                                      (gridHeight (state e)))
                    currentScore now;
  Some (upd (set_food food) (set_rng rng e)).

Definition startGame (mode : GameMode) (env : StartEnv) (e : GameEngine)
  : option GameEngine :=
  let previousPhase := phase (state e) in
  let e :=
    if bool_decide (mode = daily) then
      let e := upd (set_dailySeed (Rng.getDailySeed (today env))) e in
      set_rng (Rng.new (Rng.StrSeed (JS.codeUnits (dailySeed (state e))))) e
    else set_rng (Rng.createDefaultRNG (dateNow env)) e in
  let e := upd (set_mode mode) e in
  let e := upd (set_score 0) e in
  let e := upd (set_highScore (loadHighScore mode e)) e in
  let e := upd (set_combo 0) e in
  let e := upd (set_lastEatTime 0) e in
  let e := upd (set_direction RIGHT) e in
  let e := upd (set_nextDirection None) e in
  let e := upd (set_directionBuffer []) e in
  let e := upd (set_tickCount 0) e in
  let e := upd (set_gracePeriodTicks GRACE_PERIOD_TICKS) e in
  let e := upd (set_baseTickRate (BASE_TICK_RATES mode)) e in
  let e := upd (set_tickRate (baseTickRate (state e))) e in
  let startX := gridWidth (state e) / 2 in
  let startY := gridHeight (state e) / 2 in
  let e :=
    upd (set_snake
           [ mkSeg (mkVec startX startY) startX startY;
             mkSeg (mkVec (startX - 1) startY) (startX - 1) startY;
             mkSeg (mkVec (startX - 2) startY) (startX - 2) startY ]) e in
  e ← respawn 0 (spawnNow env) e;
  let e := set_poppedTail None e in
  let e := upd (set_phase playing) e in
  Some (emit (PHASE_CHANGE previousPhase playing) e).

Definition goToMenu (e : GameEngine) : GameEngine :=
  let previousPhase := phase (state e) in
  let e := upd (set_phase menu) e in
  emit (PHASE_CHANGE previousPhase menu) e.

Definition pause (e : GameEngine) : GameEngine :=
  if bool_decide (phase (state e) = playing) then
    let previousPhase := phase (state e) in
    let e := upd (set_phase paused) e in
    emit (PHASE_CHANGE previousPhase paused) e
  else e.

Definition resume (e : GameEngine) : GameEngine :=
  if bool_decide (phase (state e) = paused) then
    let previousPhase := phase (state e) in
    let e := upd (set_phase playing) e in
    emit (PHASE_CHANGE previousPhase playing) e
  else e.

Definition togglePause (e : GameEngine) : GameEngine :=
  if bool_decide (phase (state e) = playing) then pause e
  else if bool_decide (phase (state e) = paused) then resume e
  else e.

(** The reference direction of [setDirection]: the last buffered
    direction, or the current one when the buffer is empty. *)
Definition refDir (s : GameState) : Direction :=
  match last (directionBuffer s) with
  | Some d => d
  | None => direction s
  end.

Definition setDirection (dir : Direction) (e : GameEngine) : GameEngine :=
  if bool_decide (phase (state e) ≠ playing) then e
  else
    let refDir := refDir (state e) in
    if bool_decide (OPPOSITE_DIRECTION dir = refDir) then e
    else if bool_decide (dir = refDir) then e
    else if bool_decide (length (directionBuffer (state e)) < 2)%nat
    then upd (set_directionBuffer (directionBuffer (state e) ++ [dir])) e
    else e.

(** *** [tick] *)

(** "Check combo expiration" *)
Definition expireCombo (now : Z) (e : GameEngine) : GameEngine :=
  if (combo (state e) >? 0)
     && (now - lastEatTime (state e) >? comboWindow (state e))
  then emit COMBO_BREAK (upd (set_combo 0) e)
  else e.

(** "Check food expiration" *)
Definition expireFood (now spawnNow : Z) (e : GameEngine)
  : option GameEngine :=
  match food (state e) with
  | Some f =>
      if negb (Spawn.isFoodValid f now)
      then respawn (score (state e)) spawnNow e
      else Some e
  | None => Some e
  end.

(** "Process direction buffer": [shift()] removes the oldest entry. *)
Definition processDirectionBuffer (e : GameEngine) : GameEngine :=
  match directionBuffer (state e) with
  | nextDir :: rest =>
      let e := upd (set_directionBuffer rest) e in
      if bool_decide (OPPOSITE_DIRECTION nextDir ≠ direction (state e))
      then upd (set_direction nextDir) e
      else e
  | [] => e
  end.

(** "Store previous positions for interpolation" *)
Definition storePrevious (e : GameEngine) : GameEngine :=
  upd (set_snake
         ((λ seg : SnakeSegment, mkSeg (segPos seg) (x seg) (y seg))
            <$> snake (state e))) e.

(** The part of [tick] that runs before the new head is computed. *)
Definition tickPrelude (env : TickEnv) (e : GameEngine)
  : option GameEngine :=
  let e := expireCombo (tickNow env) e in
  e ← expireFood (tickNow env) (respawnNow env) e;
  let e := processDirectionBuffer e in
  Some (storePrevious e).

(** "Calculate new head position", with the wrap of the zen mode. *)
Definition computeNewHead (e : GameEngine) : option Vector2 :=
  let dirVec := DIRECTION_VECTORS (direction (state e)) in
  head ← snake (state e) !! 0%nat;
  let newHead := Collision.getNextHeadPosition (segPos head) dirVec in
  if bool_decide (mode (state e) = zen)
  then Collision.wrapPosition newHead (gridWidth (state e))
                              (gridHeight (state e))
  else Some newHead.

Definition wallHit (e : GameEngine) (newHead : Vector2) : bool :=
  Collision.checkWallCollision newHead (gridWidth (state e))
                               (gridHeight (state e)).

Definition selfHit (e : GameEngine) (newHead : Vector2) : bool :=
  Collision.checkSelfCollision newHead (snake (state e)) 1.

Definition gameOver (reason : CollisionReason) (e : GameEngine)
  : GameEngine :=
  let previousPhase := phase (state e) in
  let e := upd (set_phase gameover) e in
  let e := saveHighScore (mode (state e)) (score (state e)) e in
  let e := emit (COLLISION reason) e in
  emit (PHASE_CHANGE previousPhase gameover) e.

(** The tick rate after a food of type [foodType] has been eaten, the
    score being already updated. *)
Definition adjustTickRate (foodType : FoodType) (e : GameEngine)
  : GameEngine :=
  let e :=
    if bool_decide (foodType = speed) then
      let e := upd (set_tickRate
                      (Z.max MIN_TICK_RATE (tickRate (state e) - 20))) e in
      emit (SPEED_CHANGE (tickRate (state e))) e
    else e in
  let e :=
    if bool_decide (foodType = slow) then
      upd (set_tickRate
             (Z.min (baseTickRate (state e)) (tickRate (state e) + 30))) e
    else e in
  let speedLevel := score (state e) / SPEED_INCREMENT_SCORE in
  let targetTickRate :=
    Z.max MIN_TICK_RATE
          (baseTickRate (state e) - speedLevel * SPEED_INCREMENT_MS) in
  if bool_decide (foodType ≠ slow) && (tickRate (state e) >? targetTickRate)
  then upd (set_tickRate (Z.max targetTickRate (tickRate (state e) - 2))) e
  else e.

Definition eatFood (now spawnNow : Z) (e : GameEngine)
  : option GameEngine :=
  match food (state e) with
  | None => Some e
  | Some f =>
      let foodType := type f in
      let e :=
        if now - lastEatTime (state e) <? comboWindow (state e)
        then upd (set_combo (combo (state e) + 1)) e
        else upd (set_combo 1) e in
      let e := upd (set_lastEatTime now) e in
      let scoreGain := Spawn.getFoodScore foodType (combo (state e)) in
      let e := upd (set_score (score (state e) + scoreGain)) e in
      let e :=
        if score (state e) >? highScore (state e)
        then upd (set_highScore (score (state e))) e
        else e in
      let e := adjustTickRate foodType e in
      let e := set_poppedTail None e in
      let e :=
        emit (FOOD_EATEN foodType (score (state e)) (combo (state e))) e in
      respawn (score (state e)) spawnNow e
  end.

(** [this.poppedTail = this.state.snake.pop() ?? null] *)
Definition popTail (e : GameEngine) : GameEngine :=
  let tail := last (snake (state e)) in
  let e := upd (set_snake (removelast (snake (state e)))) e in
  set_poppedTail tail e.

(** "Move snake" and what follows it in [tick]. *)
Definition moveSnake (env : TickEnv) (head : SnakeSegment)
    (newHead : Vector2) (e : GameEngine) : option GameEngine :=
  let newSegment := mkSeg (mkVec (x newHead) (y newHead)) (x head) (y head) in
  let e := upd (set_snake (newSegment :: snake (state e))) e in
  e ← match food (state e) with
      | Some f =>
          if (x newHead =? x f) && (y newHead =? y f)
          then eatFood (eatNow env) (eatSpawnNow env) e
          else Some (popTail e)
      | None => Some (popTail e)
      end;
  let e :=
    if gracePeriodTicks (state e) >? 0
    then upd (set_gracePeriodTicks (gracePeriodTicks (state e) - 1)) e
    else e in
  let e := upd (set_tickCount (tickCount (state e) + 1)) e in
  Some (emit TICK e).

(** "Handle collision" *)
Definition handleCollision (wallHit selfHit : bool) (e : GameEngine)
  : GameEngine :=
  if (gracePeriodTicks (state e) >? 0)
     || (bool_decide (mode (state e) = zen) && selfHit)
  then
    let e := upd (set_gracePeriodTicks (gracePeriodTicks (state e) - 1)) e in
    emit TICK e
  else gameOver (if wallHit then wall else self) e.

(** [tick(deltaMs)].  [deltaMs] only drives the shake and the particles. *)
Definition tick (deltaMs : Z) (env : TickEnv) (e : GameEngine)
  : option GameEngine :=
  if bool_decide (phase (state e) ≠ playing) then Some e
  else
    e ← tickPrelude env e;
    head ← snake (state e) !! 0%nat;
    newHead ← computeNewHead e;
    let wallHit := wallHit e newHead in
    let selfHit := selfHit e newHead in
    if wallHit || selfHit
    then Some (handleCollision wallHit selfHit e)
    else moveSnake env head newHead e.

(** *** The public operations, and the states they can reach *)

Inductive Op : Type :=
| OpSetGridSize (width height : Z)
| OpStartGame (mode : GameMode) (env : StartEnv)
| OpGoToMenu
| OpPause
| OpResume
| OpTogglePause
| OpSetDirection (dir : Direction)
| OpTick (deltaMs : Z) (env : TickEnv).

Definition step (op : Op) (e : GameEngine) : option GameEngine :=
  match op with
  | OpSetGridSize w h => Some (setGridSize w h e)
  | OpStartGame mode env => startGame mode env e
  | OpGoToMenu => Some (goToMenu e)
  | OpPause => Some (pause e)
  | OpResume => Some (resume e)
  | OpTogglePause => Some (togglePause e)
  | OpSetDirection dir => Some (setDirection dir e)
  | OpTick deltaMs env => tick deltaMs env e
  end.

(** A sequence of calls, oldest first. *)
Fixpoint run (ops : list Op) (e : GameEngine) : option GameEngine :=
  match ops with
  | [] => Some e
  | op :: ops => e ← step op e; run ops e
  end.

Definition isTick (op : Op) : bool :=
  match op with OpTick _ _ => true | _ => false end.

(** The number of calls of [tick] in a sequence of calls. *)
Definition tickCalls (ops : list Op) : nat := length (List.filter isTick ops).

Definition isNavigation (op : Op) : bool :=
  match op with
  | OpStartGame _ _ | OpGoToMenu | OpPause | OpResume | OpTogglePause =>
      true
  | _ => false
  end.

(** The states of an engine that was constructed and then driven through
    its public operations.  A call that leaves the integer model is not
    followed: the only such call is a zen tick on a grid one of whose
    dimensions is zero, which puts [NaN] in the head of the snake; the
    renderer only ever sets dimensions between 10 and 30. *)
Inductive reachable : GameEngine → Prop :=
| reachable_new env stored : reachable (construct env stored)
| reachable_step op e e' :
    reachable e → step op e = Some e' → reachable e'.

(** The positions of the segments of the snake, head first. *)
Definition positions (e : GameEngine) : list Vector2 :=
  segPos <$> snake (state e).

(** What a call leaves untouched when it neither starts a game nor
    navigates: the mode, the grid, the base rate and the stored high
    scores, and no collision is reported that was not there before. *)
Record preserved (e e' : GameEngine) : Prop := mkPreserved {
  same_mode : mode (state e') = mode (state e);
  same_gridWidth : gridWidth (state e') = gridWidth (state e);
  same_gridHeight : gridHeight (state e') = gridHeight (state e);
  same_baseTickRate : baseTickRate (state e') = baseTickRate (state e);
  no_new_collision :
    ∀ r, COLLISION r ∈ emitted e' → COLLISION r ∈ emitted e
}.

(** The invariant of the reachable states. *)
Record invariant (s : GameState) : Prop := mkInvariant {
  inv_tickRate : MIN_TICK_RATE ≤ tickRate s ≤ baseTickRate s;
  inv_baseTickRate : baseTickRate s = BASE_TICK_RATES (mode s);
  inv_buffer : (length (directionBuffer s) ≤ 2)%nat;
  inv_snake : phase s = playing ∨ phase s = paused → snake s ≠ []
}.

(** The direction that the next [tick] moves in: the oldest buffered
    direction unless it reverses the current one. *)
Definition upcomingDirection (s : GameState) : Direction :=
  match directionBuffer s with
  | d :: _ =>
      if bool_decide (OPPOSITE_DIRECTION d ≠ direction s)
      then d else direction s
  | [] => direction s
  end.

(** *** What the bookkeeping of the engine maintains *)

(** The phase that the listeners were last told of: the [to] of the most
    recent [PHASE_CHANGE] event, if there is one. *)
Definition lastPhaseChange (events : list GameEvent) : option GamePhase :=
  fold_left (λ acc ev, match ev with
                       | PHASE_CHANGE _ to => Some to
                       | _ => acc
                       end) events None.

(** A food that suits a snake covering [cells] at a given score: it is on
    none of the cells, it is of a special type only if the score is above
    30, and it carries an expiry exactly when it is not normal. *)
Definition foodFits (cells : list Vector2) (currentScore : Z)
    (fd : option Food) : Prop :=
  ∀ f, fd = Some f →
    (foodPos f ∉ cells) ∧
    (type f ≠ normal → 30 < currentScore) ∧
    (expiresAt f = None ↔ type f = normal).

(** Each pending direction is a quarter turn away from the one before
    it, the first one from [current]. *)
Fixpoint quarterTurns (current : Direction) (pending : list Direction)
  : Prop :=
  match pending with
  | [] => True
  | d :: rest =>
      d ≠ current ∧ OPPOSITE_DIRECTION d ≠ current ∧ quarterTurns d rest
  end.

(** The fields that the bookkeeping invariants speak about. *)
Record Summary : Type := mkSummary {
  s_phase : GamePhase;
  s_mode : GameMode;
  s_score : Z;
  s_combo : Z;
  s_grace : Z;
  s_cells : list Vector2;
  s_food : option Food;
  s_told : option GamePhase;
  s_direction : Direction;
  s_buffer : list Direction
}.

Definition summary (e : GameEngine) : Summary :=
  mkSummary (phase (state e)) (mode (state e)) (score (state e))
            (combo (state e)) (gracePeriodTicks (state e)) (positions e)
            (food (state e)) (lastPhaseChange (emitted e))
            (direction (state e)) (directionBuffer (state e)).

Record wellFormed (s : Summary) : Prop := mkWellFormed {
  wf_snake : s_cells s = [] ∨ (3 ≤ length (s_cells s))%nat;
  wf_food : foodFits (s_cells s) (s_score s) (s_food s);
  wf_score : 0 ≤ s_score s ∧ s_score s mod 5 = 0;
  wf_combo : 0 ≤ s_combo s;
  wf_grace :
    s_grace s ≤ GRACE_PERIOD_TICKS ∧ (s_mode s ≠ zen → 0 ≤ s_grace s);
  wf_told :
    match s_told s with
    | Some p => s_phase s = p ∧ p ≠ boot
    | None => s_phase s = boot
    end;
  wf_turns : quarterTurns (s_direction s) (s_buffer s);
  wf_alive : s_cells s = [] → s_phase s = boot ∨ s_phase s = menu
}.

(** A grid on which a zen tick stays within the integers. *)
Definition wrappable (s : GameState) : Prop :=
  mode s = zen → gridWidth s ≠ 0 ∧ gridHeight s ≠ 0.

(** The cell that the head goes for in the next tick, from the cell
    [from] it is on: one step in the upcoming direction, wrapped in the
    zen mode. *)
Definition nextCell (s : GameState) (from : Vector2) : option Vector2 :=
  let target :=
    Collision.getNextHeadPosition from
      (DIRECTION_VECTORS (upcomingDirection s)) in
  if bool_decide (mode s = zen)
  then Collision.wrapPosition target (gridWidth s) (gridHeight s)
  else Some target.

(** The calls that leave the grid at least two cells wide and high. *)
Definition wideGrid (op : Op) : bool :=
  match op with
  | OpSetGridSize width height => (1 <? width) && (1 <? height)
  | _ => true
  end.

(** [n] ticks of [deltaMs] each, the [i]-th with the clock samples
    [envs i]. *)
Definition tickOps (deltaMs : Z) (envs : nat → TickEnv) (first n : nat)
  : list Op :=
  (λ i, OpTick deltaMs (envs i)) <$> seq first n.

End Engine.

(** ** src/ui/hooks/useGameLoop.ts *)

Module GameLoop.
Import Types Engine.

(** The references that the loop keeps between frames.  The handle of
    [requestAnimationFrame] is left out. *)
Record Refs : Type := mkRefs {
  accumulator : Z;
  lastTime : Z;
  isFirstFrame : bool
}.

(** What a frame leaves behind: the references, the engine, and the
    interpolation [alpha] handed to the renderer, if the frame renders. *)
Record Frame : Type := mkFrame {
  refs : Refs;
  engine : GameEngine;
  alpha : option Q
}.

(** [while (accumulatorRef.current >= tickRate) { engine.tick(tickRate);
    accumulatorRef.current -= tickRate; }], the [i]-th call of [tick]
    reading the clock samples [envs i].  [tickRate] is the constant taken
    before the loop.  The result is [None] when the fuel runs out or a
    [tick] leaves the integer model. *)
Fixpoint whileTicks (fuel : nat) (tickRate : Z) (envs : nat → TickEnv)
    (i : nat) (acc : Z) (e : GameEngine) : option (Z * GameEngine) :=
  if acc >=? tickRate then
    match fuel with
    | O => None
    | S fuel =>
        e ← tick tickRate (envs i) e;
        whileTicks fuel tickRate envs (S i) (acc - tickRate) e
    end
  else Some (acc, e).

(** [loop(timestamp)].  The timestamps of [requestAnimationFrame] are
    taken in whole milliseconds, like the clock samples of the engine, so
    that the accumulator is an integer. *)
Definition loop (fuel : nat) (timestamp : Z) (envs : nat → TickEnv)
    (r : Refs) (e : GameEngine) : option Frame :=
  if isFirstFrame r then Some (mkFrame (mkRefs 0 timestamp false) e None)
  else
    let deltaMs := timestamp - lastTime r in
    let cappedDelta := Z.min deltaMs 250 in
    let tickRate := tickRate (state e) in
    '(acc, e) ←
      (if bool_decide (phase (state e) = playing)
       then whileTicks fuel tickRate envs 0 (accumulator r + cappedDelta) e
       else Some (accumulator r, e));
    Some (mkFrame (mkRefs acc timestamp false) e
                  (Some (inject_Z acc / inject_Z tickRate)%Q)).

Definition start (r : Refs) : Refs :=
  mkRefs (accumulator r) (lastTime r) true.

Definition reset (r : Refs) : Refs := mkRefs 0 (lastTime r) true.

End GameLoop.

(** ** Concrete games *)

Module Scenario.
Import Types Engine.

Definition startEnv : StartEnv :=
  mkStartEnv 1700000000000 (Rng.mkDate 2024 0 15) 5.

Definition noScores : GameMode → option Z := λ _, None.

(** A tick all of whose clock samples are [now]. *)
Definition tickAt (now : Z) : Op := OpTick 100 (mkTickEnv now now now now).

(** The clock samples of the ticks of a frame that starts at [now], the
    [i]-th tick reading [now + i]. *)
Definition frameClock (now : Z) (i : nat) : TickEnv :=
  mkTickEnv (now + Z.of_nat i) (now + Z.of_nat i) (now + Z.of_nat i)
            (now + Z.of_nat i).

(** A freshly constructed engine. *)
Definition initial : GameEngine := construct startEnv noScores.

(** The state after a sequence of calls on a fresh engine. *)
Definition after (ops : list Op) : GameEngine :=
  default initial (run ops initial).

(** A classic game on a 4 by 4 grid; after one tick the head is on the
    last column and faces the right wall. *)
Definition narrowStart : list Op :=
  [OpSetGridSize 4 4; OpStartGame classic startEnv].
Definition narrow : list Op := narrowStart ++ [tickAt 100].

(** A classic game in which two turns are already buffered. *)
Definition twoTurns : list Op :=
  [OpStartGame classic startEnv; OpSetDirection UP; OpSetDirection LEFT].

(** A zen game on a 3 by 3 grid: after the first tick the head wraps
    onto the tail, and the three ticks that follow use the grace period
    up. *)
Definition zenLoop : list Op :=
  [OpSetGridSize 3 3; OpStartGame zen startEnv;
   tickAt 100; tickAt 250; tickAt 400; tickAt 550].

(** A classic game on a 4 by 4 grid in which the head has gone up the
    third column to the top row and has just been turned left, towards
    the first food, which lies next to it. *)
Definition meal : list Op :=
  narrowStart
  ++ [OpSetDirection UP; tickAt 100; tickAt 200; OpSetDirection LEFT].

(** The same game one tick later: the food is eaten. *)
Definition fed : list Op := meal ++ [tickAt 300].

(** The game of [narrow] after two further ticks against the right
    wall: the grace period is used up, and the next tick ends the
    game. *)
Definition doomed : list Op := narrow ++ [tickAt 200; tickAt 300].

End Scenario.

(** * Properties *)

Import Types.

(** ** The cases of the unit tests, replayed on the model *)

Section UnitTests.
Import Collision Spawn Engine.

Example wall_left : checkWallCollision (mkVec (-1) 5) 20 15 = true.
Proof. reflexivity. Qed.

Example wall_bottom : checkWallCollision (mkVec 5 15) 20 15 = true.
Proof. reflexivity. Qed.

Example wall_corner_inside : checkWallCollision (mkVec 19 14) 20 15 = false.
Proof. reflexivity. Qed.

Example self_hit_body :
  checkSelfCollision (mkVec 3 5)
    [mkSeg (mkVec 5 5) 4 5; mkSeg (mkVec 4 5) 3 5; mkSeg (mkVec 3 5) 2 5] 1
  = true.
Proof. reflexivity. Qed.

Example self_hit_skips :
  checkSelfCollision (mkVec 4 5)
    [mkSeg (mkVec 5 5) 4 5; mkSeg (mkVec 4 5) 3 5; mkSeg (mkVec 3 5) 2 5] 2
  = false.
Proof. reflexivity. Qed.

Example collision_wall_first :
  ctype (checkCollision (mkVec (-1) 5)
           [mkSeg (mkVec 5 5) 4 5; mkSeg (mkVec (-1) 5) 3 5]
           (Some (mkVec (-1) 5)) 20 15)
  = cWall.
Proof. reflexivity. Qed.

Example wrap_negative_y :
  wrapPosition (mkVec 5 (-1)) 20 15 = Some (mkVec 5 14).
Proof. reflexivity. Qed.

Example wrap_inside : wrapPosition (mkVec 10 7) 20 15 = Some (mkVec 10 7).
Proof. reflexivity. Qed.

Example empty_cells_all : length (getEmptyCells 5 5 []) = 25%nat.
Proof. by vm_compute. Qed.

Example empty_cells_excludes :
  length (getEmptyCells 5 5 [mkVec 0 0; mkVec 1 1; mkVec 2 2]) = 22%nat.
Proof. by vm_compute. Qed.

Example food_score_normal : getFoodScore normal 0 = 10.
Proof. reflexivity. Qed.

Example food_score_special_combo : getFoodScore special 5 = 75.
Proof. reflexivity. Qed.

Example food_valid_before_expiry :
  isFoodValid (mkFood (mkVec 5 5) special 1000 (Some 10000)) 5000 = true.
Proof. reflexivity. Qed.

Example food_expired :
  isFoodValid (mkFood (mkVec 5 5) special 1000 (Some 10000)) 15000 = false.
Proof. reflexivity. Qed.

(** A classic game starts with three segments centred on the 20 by 20
    grid, heading right at 100 ms per tick; one tick moves the head one
    cell to the right and the tail follows. *)
Example classic_start :
  let e := Scenario.after [OpStartGame classic Scenario.startEnv] in
  positions e = [mkVec 10 10; mkVec 9 10; mkVec 8 10] ∧
  direction (state e) = RIGHT ∧ score (state e) = 0 ∧
  tickRate (state e) = 100 ∧ phase (state e) = playing.
Proof. by vm_compute. Qed.

Example classic_first_tick :
  positions (Scenario.after [OpStartGame classic Scenario.startEnv;
                             Scenario.tickAt 100])
  = [mkVec 11 10; mkVec 10 10; mkVec 9 10].
Proof. by vm_compute. Qed.

(** On the 4 by 4 grid the first tick reaches the last column, the next
    two run into the wall and are absorbed, and the fourth tick of the
    game, the grace period being used up, ends it. *)
Example classic_wall_death :
  phase (state (Scenario.after
                  (Scenario.narrow
                   ++ [Scenario.tickAt 200; Scenario.tickAt 300;
                       Scenario.tickAt 400])))
  = gameover.
Proof. by vm_compute. Qed.

End UnitTests.

(** ** The generator *)

Section RngProperties.
Import Rng.

Lemma toUint32_range z : 0 ≤ JS.toUint32 z < 4294967296.
Proof. unfold JS.toUint32. apply Z.mod_pos_bound. lia. Qed.

Lemma nextBits_range r : 0 ≤ nextBits r < 4294967296.
Proof.
  unfold nextBits, JS.ushr. cbv zeta.
  replace (0 mod 32) with 0 by reflexivity.
  rewrite Z.shiftr_0_r. apply toUint32_range.
Qed.

(** Two runs of different lengths from the same state agree on the
    values they both produce. *)
Lemma calls_prefix m n r k a b :
  fst (calls m r) !! k = Some a → fst (calls n r) !! k = Some b → a = b.
Proof.
  revert n r k a b. induction m as [|m IH]; intros n r k a b; simpl.
  - by rewrite lookup_nil.
  - destruct n as [|n]; simpl; [by rewrite lookup_nil|].
    specialize (IH n (advance r)).
    destruct (calls m (advance r)) as [vs1 r1], (calls n (advance r))
      as [vs2 r2]; simpl in *.
    destruct k as [|k]; simpl; [congruence | apply IH].
Qed.

(** What an interleaving leaves in the two instances depends, for each
    of them, only on the number of calls it received. *)
Lemma schedule_spec ws p :
  let q := schedule ws p in
  inst1 q = snd (calls (callsOf true ws) (inst1 p)) ∧
  out1 q = out1 p ++ fst (calls (callsOf true ws) (inst1 p)) ∧
  inst2 q = snd (calls (callsOf false ws) (inst2 p)) ∧
  out2 q = out2 p ++ fst (calls (callsOf false ws) (inst2 p)).
Proof.
  revert p. induction ws as [|w ws IH]; intros p; simpl.
  - by rewrite !app_nil_r.
  - destruct (IH (callOn w p)) as (H1 & H2 & H3 & H4).
    unfold schedule in *. simpl. rewrite H1, H2, H3, H4. clear.
    destruct w; simpl.
    + destruct (calls _ (advance (inst1 p))); simpl.
      by rewrite <- app_assoc.
    + destruct (calls _ (advance (inst2 p))); simpl.
      by rewrite <- app_assoc.
Qed.

(** C1.  Two generators built from the same seed, numeric or string, and
    called in any interleaving, stay in step: each returns the sequence
    of values that the seed alone determines, the k-th values of the two
    agree whenever both exist, and after equally many calls the two logs
    and the two internal states are equal.  The string seed
    ["daily-20240115"] hashes to the integer 1496713703. *)
Theorem C1_same_seed_same_sequence (s : SeedArg) (ws : list Which) :
  let q := schedule ws (newPair s s) in
  out1 q = fst (calls (callsOf true ws) (new s)) ∧
  out2 q = fst (calls (callsOf false ws) (new s)) ∧
  (∀ k a b, out1 q !! k = Some a → out2 q !! k = Some b → a = b) ∧
  (callsOf true ws = callsOf false ws →
   out1 q = out2 q ∧ inst1 q = inst2 q) ∧
  hashString (JS.codeUnits "daily-20240115") = 1496713703 ∧
  new (StrSeed (JS.codeUnits "daily-20240115")) = mkRNG 1496713703.
Proof.
  destruct (schedule_spec ws (newPair s s)) as (H1 & H2 & H3 & H4).
  simpl in *. rewrite H1, H2, H3, H4.
  split; [done|]. split; [done|]. split; [|split; [|split]].
  - intros k a b. apply calls_prefix.
  - by intros ->.
  - reflexivity.
  - reflexivity.
Qed.

Lemma C1_same_seed_same_sequence_witness :
  let q := schedule [First; Second; Second; First]
             (newPair (StrSeed (JS.codeUnits "daily-20240115"))
                      (StrSeed (JS.codeUnits "daily-20240115"))) in
  out1 q = out2 q ∧ inst1 q = inst2 q.
Proof.
  apply (C1_same_seed_same_sequence
           (StrSeed (JS.codeUnits "daily-20240115"))
           [First; Second; Second; First]).
  reflexivity.
Defined.

End RngProperties.

(** ** The collision predicates *)

Section CollisionProperties.
Import Collision.

Lemma wrapCoord_pos c size :
  0 < size → wrapCoord c size = Some (c mod size).
Proof.
  intros Hs. unfold wrapCoord, jsRem.
  destruct (Z.eqb_spec size 0) as [->|_]; [lia|]. simpl.
  destruct (Z.eqb_spec size 0) as [->|_]; [lia|]. f_equal.
  pose proof (Z.rem_bound_abs c size ltac:(lia)) as Hb.
  assert (Hr : Z.rem c size = c - size * (c ÷ size))
    by (pose proof (Z.quot_rem' c size); lia).
  assert (Hsign : 0 ≤ c → 0 ≤ Z.rem c size)
    by (intros; apply Z.rem_nonneg; lia).
  assert (Hsign' : c ≤ 0 → Z.rem c size ≤ 0)
    by (intros; apply Z.rem_nonpos; lia).
  rewrite Z.rem_mod_nonneg by lia.
  rewrite Hr.
  replace (c - size * (c ÷ size) + size)
    with (c + (1 - c ÷ size) * size) by lia.
  by rewrite Z.mod_add by lia.
Qed.

Lemma wrapPosition_pos (pos : Vector2) (w h : Z) :
  0 < w → 0 < h →
  wrapPosition pos w h = Some (mkVec (x pos mod w) (y pos mod h)).
Proof.
  intros Hw Hh. unfold wrapPosition. by rewrite !wrapCoord_pos by done.
Qed.

(** C8.  On a grid of positive dimensions [wrapPosition] is the floored
    modulo of each coordinate, so the result lies on the grid and a
    coordinate of -1 wraps to the opposite edge; the two instances of
    the wrap law hold. *)
Theorem C8_wrapPosition_floored_modulo (pos : Vector2) (w h : Z) :
  0 < w → 0 < h →
  wrapPosition pos w h = Some (mkVec (x pos mod w) (y pos mod h)) ∧
  (0 ≤ x pos mod w < w ∧ 0 ≤ y pos mod h < h) ∧
  wrapPosition (mkVec (-1) (y pos)) w h = Some (mkVec (w - 1) (y pos mod h)) ∧
  wrapPosition (mkVec (-1) 5) 20 15 = Some (mkVec 19 5) ∧
  wrapPosition (mkVec 20 5) 20 15 = Some (mkVec 0 5).
Proof.
  intros Hw Hh. rewrite !wrapPosition_pos by done. simpl.
  split; [done|]. split.
  - split; apply Z.mod_pos_bound; lia.
  - split; [|done]. do 2 f_equal.
    replace (-1) with (w - 1 + (-1) * w) by lia.
    rewrite Z.mod_add by lia. apply Z.mod_small. lia.
Qed.

Lemma C8_wrapPosition_floored_modulo_witness :
  wrapPosition (mkVec (-21) 31) 20 15 = Some (mkVec 19 1).
Proof.
  exact (proj1 (C8_wrapPosition_floored_modulo (mkVec (-21) 31) 20 15
                  ltac:(lia) ltac:(lia))).
Defined.

End CollisionProperties.

(** ** The spawn system *)

Section SpawnProperties.
Import Spawn.

(** *** The keys of the occupied set identify the cells *)

Lemma list_ascii_of_string_app (s t : string) :
  list_ascii_of_string (s ++ t)
  = list_ascii_of_string s ++ list_ascii_of_string t.
Proof. induction s as [|c s IH]; simpl; [done | by rewrite IH]. Qed.

Lemma string_of_uint_digits (d : Decimal.uint) :
  JS.comma ∉ list_ascii_of_string (NilEmpty.string_of_uint d).
Proof.
  induction d; simpl; rewrite ?not_elem_of_cons;
    [by apply not_elem_of_nil | by split ..].
Qed.

Lemma numberToString_digits (n : Z) :
  JS.comma ∉ list_ascii_of_string (JS.numberToString n).
Proof.
  unfold JS.numberToString, NilZero.string_of_int, NilZero.string_of_uint.
  destruct (Z.to_int n) as [d|d]; destruct d; simpl;
    rewrite ?not_elem_of_cons; repeat split; try done;
    try apply not_elem_of_nil; apply string_of_uint_digits.
Qed.

Lemma to_int_not_nil (n : Z) :
  Z.to_int n ≠ Decimal.Pos Decimal.Nil ∧ Z.to_int n ≠ Decimal.Neg Decimal.Nil.
Proof.
  destruct n as [|p|p]; simpl; split; try discriminate;
    intros [= H]; by apply (DecimalPos.Unsigned.to_uint_nonnil p).
Qed.

Lemma numberToString_inj (a b : Z) :
  JS.numberToString a = JS.numberToString b → a = b.
Proof.
  unfold JS.numberToString. intros H.
  apply DecimalZ.to_int_inj.
  destruct (to_int_not_nil a) as [Ha1 Ha2], (to_int_not_nil b) as [Hb1 Hb2].
  pose proof (NilZero.isi _ Ha1 Ha2) as Ea.
  pose proof (NilZero.isi _ Hb1 Hb2) as Eb.
  rewrite H in Ea. congruence.
Qed.

Lemma split_at_separator (c : ascii) (l1 l2 t1 t2 : list ascii) :
  c ∉ l1 → c ∉ l2 → l1 ++ c :: t1 = l2 ++ c :: t2 → l1 = l2 ∧ t1 = t2.
Proof.
  revert l2. induction l1 as [|a l1 IH]; intros [|b l2] H1 H2; simpl.
  - by intros [= ->].
  - intros [= -> _]. by apply not_elem_of_cons in H2 as [[] _].
  - intros [= -> _]. by apply not_elem_of_cons in H1 as [[] _].
  - intros [= -> E]. apply not_elem_of_cons in H1 as [_ H1].
    apply not_elem_of_cons in H2 as [_ H2].
    destruct (IH l2 H1 H2 E) as [-> ->]. done.
Qed.

Lemma coordKey_inj (x1 y1 x2 y2 : Z) :
  coordKey x1 y1 = coordKey x2 y2 → x1 = x2 ∧ y1 = y2.
Proof.
  unfold coordKey. intros H.
  apply (f_equal list_ascii_of_string) in H.
  rewrite !list_ascii_of_string_app in H. simpl in H.
  apply split_at_separator in H as [Hx Hy];
    try apply numberToString_digits.
  apply (f_equal string_of_list_ascii) in Hx, Hy.
  rewrite !string_of_list_ascii_of_string in Hx, Hy.
  split; by apply numberToString_inj.
Qed.

Lemma elem_of_occupiedKeys_acc (occupied : list Vector2) (set : gset string)
    (k : string) :
  k ∈ fold_left (λ set pos, {[ coordKey (x pos) (y pos) ]} ∪ set)
        occupied set
  ↔ k ∈ set ∨ ∃ pos, pos ∈ occupied ∧ k = coordKey (x pos) (y pos).
Proof.
  revert set. induction occupied as [|p occ IH]; intros set; simpl.
  - split; [by left|]. intros [?|(pos & Hin & _)]; [done|].
    by apply elem_of_nil in Hin.
  - rewrite IH, elem_of_union, elem_of_singleton. split.
    + intros [[->|?]|(pos & Hin & ->)].
      * right. exists p. split; [left|done].
      * by left.
      * right. exists pos. split; [by right|done].
    + intros [?|(pos & Hin & ->)]; [left; by right|].
      apply elem_of_cons in Hin as [->|Hin]; [left; by left|].
      right. by exists pos.
Qed.

Lemma elem_of_occupiedKeys (occupied : list Vector2) (cx cy : Z) :
  coordKey cx cy ∈ occupiedKeys occupied ↔ mkVec cx cy ∈ occupied.
Proof.
  unfold occupiedKeys. rewrite elem_of_occupiedKeys_acc. split.
  - intros [H|([px py] & Hin & E)]; [by apply not_elem_of_empty in H|].
    simpl in E. by apply coordKey_inj in E as [-> ->].
  - intros H. right. by exists (mkVec cx cy).
Qed.

(** *** [getEmptyCells] against the reference enumerations *)

Lemma filter_bind {A B : Type} (P : B → Prop) `{∀ b, Decision (P b)}
    (f : A → list B) (l : list A) :
  filter P (l ≫= f) = l ≫= (λ a, filter P (f a)).
Proof.
  induction l as [|a l IH]; [done|].
  by rewrite !bind_cons, filter_app, IH.
Qed.

Lemma getEmptyCells_column_major (w h : Z) (occupied : list Vector2) :
  getEmptyCells w h occupied = unoccupied occupied (columnMajorGrid w h).
Proof.
  unfold getEmptyCells, unoccupied, columnMajorGrid.
  rewrite filter_bind. apply list_bind_ext; [|done]. intros cx.
  rewrite filter_bind. apply list_bind_ext; [|done]. intros cy.
  rewrite filter_cons, filter_nil.
  pose proof (elem_of_occupiedKeys occupied cx cy) as E.
  destruct (decide (mkVec cx cy ∉ occupied)) as [Hn|Hn].
  - rewrite bool_decide_eq_false_2; [done|]. by rewrite E.
  - rewrite bool_decide_eq_true_2; [done|]. rewrite E.
    by destruct (decide (mkVec cx cy ∈ occupied)).
Qed.

Lemma elem_of_columnMajorGrid (w h : Z) (c : Vector2) :
  c ∈ columnMajorGrid w h ↔ (0 ≤ x c < w) ∧ (0 ≤ y c < h).
Proof.
  unfold columnMajorGrid. rewrite list_elem_of_bind. split.
  - intros (cx & Hy & Hx). apply list_elem_of_bind in Hy as (cy & Hc & Hy).
    apply list_elem_of_singleton in Hc as ->. simpl.
    apply elem_of_seqZ in Hx, Hy. lia.
  - intros [Hx Hy]. exists (x c). split; [|apply elem_of_seqZ; lia].
    apply list_elem_of_bind. exists (y c).
    split; [|apply elem_of_seqZ; lia].
    destruct c. simpl. by apply list_elem_of_singleton.
Qed.

Lemma elem_of_getEmptyCells (w h : Z) (occupied : list Vector2)
    (c : Vector2) :
  c ∈ getEmptyCells w h occupied
  ↔ ((0 ≤ x c < w) ∧ (0 ≤ y c < h)) ∧ c ∉ occupied.
Proof.
  rewrite getEmptyCells_column_major. unfold unoccupied.
  rewrite list_elem_of_filter, elem_of_columnMajorGrid. tauto.
Qed.

(** C6, as the code has it.  For every width, height and occupied list,
    [getEmptyCells] returns the unoccupied cells of the grid in
    column-major order: the free cells of column [x = 0] by increasing
    [y], then those of column [x = 1], and so on.  A cell is returned
    exactly when it lies on the grid and is not occupied. *)
Theorem C6_getEmptyCells_column_major (w h : Z) (occupied : list Vector2) :
  getEmptyCells w h occupied = unoccupied occupied (columnMajorGrid w h) ∧
  (∀ c, c ∈ getEmptyCells w h occupied
        ↔ ((0 ≤ x c < w) ∧ (0 ≤ y c < h)) ∧ c ∉ occupied).
Proof.
  split; [apply getEmptyCells_column_major|].
  intros c. apply elem_of_getEmptyCells.
Qed.

(** C6, as stated, fails: on the empty 2 by 2 grid the result is not the
    row-major enumeration; the cell (0,1) comes before the cell (1,0). *)
Lemma C6_row_major_counterexample :
  getEmptyCells 2 2 [] ≠ unoccupied [] (rowMajorGrid 2 2) ∧
  getEmptyCells 2 2 [] = [mkVec 0 0; mkVec 0 1; mkVec 1 0; mkVec 1 1] ∧
  unoccupied [] (rowMajorGrid 2 2)
  = [mkVec 0 0; mkVec 1 0; mkVec 0 1; mkVec 1 1].
Proof. split; [|split]; by vm_compute. Qed.

(** *** [isFoodValid] *)

Lemma isFoodValid_false (food : Food) (now : Z) :
  isFoodValid food now = false
  ↔ ∃ e, expiresAt food = Some e ∧ e ≠ 0 ∧ now > e.
Proof.
  unfold isFoodValid, truthy. destruct (expiresAt food) as [e|]; simpl.
  - destruct (Z.eqb_spec e 0) as [->|Hne]; simpl.
    + split; [done|]. by intros (e & [= <-] & ? & _).
    + destruct (Z.gtb_spec now e); simpl.
      * split; [|done]. intros _. exists e. repeat split; [done|lia].
      * split; [done|]. intros (e' & [= <-] & _ & ?). lia.
  - split; [done|]. by intros (e & ? & _).
Qed.

(** C7 at the input that separates the code from the statement: a food
    whose [expiresAt] is set to 0 is still reported valid at time 1,
    though its expiry is set and lies in the past. *)
Lemma C7_isFoodValid_zero_expiry :
  let food := mkFood (mkVec 5 5) special 0 (Some 0) in
  isFoodValid food 1 = true ∧ expiresAt food = Some 0 ∧ 1 > 0.
Proof. by vm_compute. Qed.

(** *** [pick] and [spawnFood] *)

Lemma pick_nonempty {T : Type} (array : list T) (r : Rng.SeededRNG) :
  array ≠ [] →
  ∃ item, Rng.pick array r = (Some item, Rng.advance r) ∧ item ∈ array.
Proof.
  intros Hne. unfold Rng.pick, Rng.next.
  pose proof (nextBits_range r) as Hb.
  set (bits := Rng.nextBits r) in *.
  set (n := Z.of_nat (length array)).
  assert (Hn : 0 < n) by (destruct array; [done | simpl in n; lia]).
  assert (Hi : 0 ≤ (bits * n) `div` 4294967296 < n).
  { split; [apply Z.div_pos; lia|].
    apply Z.div_lt_upper_bound; [lia|]. nia. }
  destruct (Z.leb_spec 0 ((bits * n) `div` 4294967296)) as [_|?]; [|lia].
  destruct (lookup_lt_is_Some_2 array
              (Z.to_nat ((bits * n) `div` 4294967296))) as [item Hitem];
    [unfold n in *; lia|].
  exists item. rewrite Hitem. split; [done|].
  by eapply list_elem_of_lookup_2.
Qed.

Lemma Qltb_lt (a b : Q) : Qltb a b = true ↔ (a < b)%Q.
Proof.
  unfold Qltb. rewrite negb_true_iff, <- not_true_iff_false, Qle_bool_iff.
  split; [apply Qnot_le_lt | apply Qlt_not_le].
Qed.

Lemma Qltb_ge (a b : Q) : Qltb a b = false ↔ (b <= a)%Q.
Proof.
  unfold Qltb. by rewrite negb_false_iff, Qle_bool_iff.
Qed.

(** The bands of [chooseType], read as inequalities. *)
Lemma chooseType_bands (cfg : SpawnConfig) (currentScore : Z) (roll : Q) :
  let a := specialChance cfg in
  let b := (specialChance cfg + speedChance cfg)%Q in
  let c := (specialChance cfg + speedChance cfg + slowChance cfg)%Q in
  (currentScore ≤ 30 → chooseType cfg currentScore roll = normal) ∧
  (30 < currentScore →
   ((roll < a)%Q → chooseType cfg currentScore roll = special) ∧
   ((a <= roll)%Q → (roll < b)%Q →
    chooseType cfg currentScore roll = speed) ∧
   ((a <= roll)%Q → (b <= roll)%Q → (roll < c)%Q →
    chooseType cfg currentScore roll = slow) ∧
   ((a <= roll)%Q → (b <= roll)%Q → (c <= roll)%Q →
    chooseType cfg currentScore roll = normal)).
Proof.
  cbv zeta. unfold chooseType. split.
  - intros Hs. destruct (Z.gtb_spec currentScore 30); [lia|done].
  - intros Hs. destruct (Z.gtb_spec currentScore 30); [|lia].
    repeat split.
    + intros H1%Qltb_lt. by rewrite H1.
    + intros H1%Qltb_ge H2%Qltb_lt. by rewrite H1, H2.
    + intros H1%Qltb_ge H2%Qltb_ge H3%Qltb_lt. by rewrite H1, H2, H3.
    + intros H1%Qltb_ge H2%Qltb_ge H3%Qltb_ge. by rewrite H1, H2, H3.
Qed.

(** What [spawnFood] returns, in full: nothing and an untouched
    generator on a full board; otherwise a food on a picked free cell,
    and a generator advanced by two draws. *)
Lemma spawnFood_spec (rng : Rng.SeededRNG) (snake : list SnakeSegment)
    (config : PartialSpawnConfig) (currentScore now : Z) :
  let cfg := mergeConfig config in
  let cells :=
    getEmptyCells (gridWidth cfg) (gridHeight cfg) (segPos <$> snake) in
  let ty :=
    chooseType cfg currentScore
      (Rng.toUnit (Rng.nextBits (Rng.advance rng))) in
  (cells = [] ∧
   spawnFood rng snake config currentScore now = Some (None, rng)) ∨
  (∃ pos, pos ∈ cells ∧
     Rng.pick cells rng = (Some pos, Rng.advance rng) ∧
     spawnFood rng snake config currentScore now
     = Some (Some (mkFood pos ty now
                     (if bool_decide (ty ≠ normal)
                      then Some (now + specialDuration cfg) else None)),
             Rng.advance (Rng.advance rng))).
Proof.
  intros cfg cells ty. unfold spawnFood. fold cfg. fold cells.
  destruct (decide (cells = [])) as [E|Hne].
  - left. split; [done|]. by rewrite E.
  - right. destruct (pick_nonempty cells rng Hne) as (pos & Hpick & Hin).
    exists pos. split; [done|]. split; [done|].
    rewrite bool_decide_eq_false_2
      by (intros E; apply Hne; by destruct cells).
    rewrite Hpick. simpl. by destruct pos.
Qed.


(** *** Counting the free cells *)

Lemma length_bind_const {A B : Type} (f : A → list B) (m : nat)
    (l : list A) :
  (∀ a, length (f a) = m) → length (l ≫= f) = (length l * m)%nat.
Proof.
  intros Hf. induction l as [|a l IH]; [done|].
  rewrite bind_cons, length_app, IH, Hf. simpl. lia.
Qed.

Lemma length_columnMajorGrid (w h : Z) :
  length (columnMajorGrid w h) = (Z.to_nat w * Z.to_nat h)%nat.
Proof.
  unfold columnMajorGrid.
  rewrite (length_bind_const _ (Z.to_nat h)), length_seqZ; [done|].
  intros cx. rewrite (length_bind_const _ 1%nat), length_seqZ; [lia|done].
Qed.

Lemma NoDup_columnMajorGrid (w h : Z) : NoDup (columnMajorGrid w h).
Proof.
  unfold columnMajorGrid. apply NoDup_bind; [| |apply NoDup_seqZ].
  - intros x1 x2 c _ _ H1 H2.
    apply list_elem_of_bind in H1 as (y1 & ->%list_elem_of_singleton & _).
    by apply list_elem_of_bind in H2
      as (y2 & [= -> _]%list_elem_of_singleton & _).
  - intros cx _. apply NoDup_bind; [| |apply NoDup_seqZ].
    + intros y1 y2 c _ _ ->%list_elem_of_singleton
        [= ->]%list_elem_of_singleton. done.
    + intros cy _. apply NoDup_singleton.
Qed.

(** On a grid that contains every occupied cell, the free cells and the
    distinct occupied cells add up to the whole grid. *)
Lemma length_getEmptyCells (w h : Z) (occupied : list Vector2) :
  (∀ c, c ∈ occupied → (0 ≤ x c < w) ∧ (0 ≤ y c < h)) →
  (length (getEmptyCells w h occupied) + length (remove_dups occupied)
   = Z.to_nat w * Z.to_nat h)%nat.
Proof.
  intros Hgrid. rewrite getEmptyCells_column_major. unfold unoccupied.
  rewrite <- length_columnMajorGrid.
  pose proof (Permutation_length
                (filter_app_complement (λ c, c ∉ occupied)
                   (columnMajorGrid w h))) as Hp.
  rewrite length_app in Hp. rewrite <- Hp. f_equal. symmetry.
  apply Permutation_length.
  apply NoDup_Permutation.
  - apply NoDup_filter, NoDup_columnMajorGrid.
  - apply NoDup_remove_dups.
  - intros c.
    rewrite list_elem_of_filter, elem_of_remove_dups,
      elem_of_columnMajorGrid.
    split.
    + intros [Hc _]. by destruct (decide (c ∈ occupied)).
    + intros Hc. split; [by intros ?|by apply Hgrid].
Qed.

(** C2.  For a snake that lies on a grid of positive dimensions and
    covers [k] distinct cells of it, [spawnFood] returns; a food it
    returns is on the grid and on no cell of the snake; and it returns
    no food exactly when [k] is the number of cells of the grid. *)
Theorem C2_spawn_exclusive (rng : Rng.SeededRNG) (snake : list SnakeSegment)
    (config : PartialSpawnConfig) (currentScore now : Z) :
  let w := gridWidth (mergeConfig config) in
  let h := gridHeight (mergeConfig config) in
  let k := Z.of_nat (length (occupiedCells snake)) in
  0 < w → 0 < h →
  (∀ seg : SnakeSegment, seg ∈ snake → (0 ≤ x seg < w) ∧ (0 ≤ y seg < h)) →
  ∃ food rng',
    spawnFood rng snake config currentScore now = Some (food, rng') ∧
    (∀ f, food = Some f →
          ((0 ≤ x f < w) ∧ (0 ≤ y f < h)) ∧
          ∀ seg : SnakeSegment, seg ∈ snake → segPos seg ≠ foodPos f) ∧
    (food = None ↔ k = w * h).
Proof.
  intros w h k Hw Hh Hgrid.
  assert (Hlen : (length (getEmptyCells w h (segPos <$> snake))
                  + length (occupiedCells snake)
                  = Z.to_nat w * Z.to_nat h)%nat).
  { apply length_getEmptyCells. intros c (seg & -> & Hin)%list_elem_of_fmap.
    by apply Hgrid. }
  pose proof (spawnFood_spec rng snake config currentScore now) as Hs.
  cbv zeta in Hs. fold w h in Hs.
  destruct Hs as [[E Hspawn]|(pos & Hin & _ & Hspawn)].
  - exists None, rng. split; [done|]. split; [done|]. split; [|done].
    intros _. rewrite E in Hlen. simpl in Hlen. unfold k. nia.
  - eexists _, _. split; [exact Hspawn|]. split.
    + intros f [= <-]. simpl.
      apply elem_of_getEmptyCells in Hin as [Hpos Hfree].
      split; [done|]. intros seg Hseg E. apply Hfree. rewrite <- E.
      by apply list_elem_of_fmap_2.
    + split; [done|]. intros Hk. exfalso.
      destruct (getEmptyCells w h (segPos <$> snake)) as [|c cells];
        [by apply elem_of_nil in Hin|].
      simpl in Hlen. unfold k in Hk. nia.
Qed.

Lemma C2_spawn_exclusive_witness :
  let snake := [mkSeg (mkVec 5 5) 4 5; mkSeg (mkVec 4 5) 3 5;
                mkSeg (mkVec 3 5) 2 5] in
  ∃ food rng',
    spawnFood (Rng.new (Rng.NumSeed 12345)) snake (gridConfig 20 15) 0 1000
    = Some (food, rng') ∧
    (∀ f, food = Some f →
          ((0 ≤ x f < 20) ∧ (0 ≤ y f < 15)) ∧
          ∀ seg : SnakeSegment, seg ∈ snake → segPos seg ≠ foodPos f) ∧
    (food = None ↔ 3 = 20 * 15).
Proof.
  refine (C2_spawn_exclusive (Rng.new (Rng.NumSeed 12345))
            [mkSeg (mkVec 5 5) 4 5; mkSeg (mkVec 4 5) 3 5;
             mkSeg (mkVec 3 5) 2 5]
            (gridConfig 20 15) 0 1000 _ _ _).
  - simpl. lia.
  - simpl. lia.
  - intros seg Hin. simpl.
    repeat (apply elem_of_cons in Hin as [->|Hin]; [simpl; lia|]).
    by apply elem_of_nil in Hin.
Defined.

End SpawnProperties.

(** ** The engine *)

Section EngineProperties.
Import Engine.

(** [spawnFood] always returns, so [respawn] only replaces the food and
    advances the generator. *)
Lemma respawn_shape (currentScore now : Z) (e : GameEngine) :
  ∃ fd r, respawn currentScore now e = Some (upd (set_food fd) (set_rng r e)).
Proof.
  unfold respawn.
  pose proof (spawnFood_spec (rng e) (snake (state e))
                (Spawn.gridConfig (gridWidth (state e))
                                  (gridHeight (state e)))
                currentScore now) as H.
  cbv zeta in H. destruct H as [[_ ->]|(pos & _ & _ & ->)]; simpl; eauto.
Qed.

(** Closes the goals about fields that a sequence of assignments does
    not touch, and about events that are not collisions. *)
Ltac frame :=
  simpl;
  repeat match goal with
    | |- preserved _ _ => split; simpl
    | |- _ ∧ _ => split
    | |- ∀ _, _ => intro
    | H : _ ∈ _ ++ _ |- _ => apply elem_of_app in H as [H|H]
    | H : _ ∈ [_] |- _ => apply list_elem_of_singleton in H
    | H : COLLISION _ = _ |- _ => discriminate H
    end;
  try done; try lia.

Lemma expireCombo_shape now e :
  expireCombo now e = e
  ∨ expireCombo now e = emit COMBO_BREAK (upd (set_combo 0) e).
Proof. unfold expireCombo. case_match; auto. Qed.

Lemma expireFood_shape now spawnNow e :
  ∃ e', expireFood now spawnNow e = Some e'
        ∧ (e' = e ∨ ∃ fd r, e' = upd (set_food fd) (set_rng r e)).
Proof.
  unfold expireFood. destruct (food (state e)) as [f|]; [|by eauto].
  destruct (Spawn.isFoodValid f now); simpl; [by eauto|].
  destruct (respawn_shape (score (state e)) spawnNow e) as (fd & r & ->).
  eexists. split; [done|]. eauto.
Qed.

Lemma positions_storePrevious e :
  positions (storePrevious e) = positions e.
Proof.
  unfold positions, storePrevious. simpl.
  rewrite <- list_fmap_compose. by apply list_fmap_ext.
Qed.

(** The first half of [tick] always completes.  It leaves the phase, the
    tick rate, the grace counter and the positions of the snake as they
    were, removes the oldest buffered direction and makes it the current
    one unless it is a reversal. *)
Lemma tickPrelude_spec env e :
  ∃ e1, tickPrelude env e = Some e1 ∧ preserved e e1 ∧
    phase (state e1) = phase (state e) ∧
    tickRate (state e1) = tickRate (state e) ∧
    gracePeriodTicks (state e1) = gracePeriodTicks (state e) ∧
    positions e1 = positions e ∧
    storage e1 = storage e ∧
    directionBuffer (state e1) = tail (directionBuffer (state e)) ∧
    direction (state e1) = upcomingDirection (state e).
Proof.
  unfold tickPrelude.
  destruct (expireFood_shape (tickNow env) (respawnNow env)
              (expireCombo (tickNow env) e)) as (e' & -> & He').
  simpl. eexists. split; [done|].
  rewrite positions_storePrevious.
  unfold storePrevious, processDirectionBuffer, upcomingDirection.
  destruct (expireCombo_shape (tickNow env) e) as [Hc|Hc];
    rewrite Hc in He'; clear Hc;
    destruct He' as [->|(fd & r & ->)]; simpl;
    destruct (directionBuffer (state e)) as [|d rest] eqn:Hbuf; simpl;
    repeat case_bool_decide; rewrite ?Hbuf; frame.
Qed.

(** [eatFood] changes the tick rate only within the bounds. *)
Lemma adjustTickRate_spec foodType e :
  let e' := adjustTickRate foodType e in
  preserved e e' ∧
  phase (state e') = phase (state e) ∧
  gracePeriodTicks (state e') = gracePeriodTicks (state e) ∧
  snake (state e') = snake (state e) ∧
  directionBuffer (state e') = directionBuffer (state e) ∧
  direction (state e') = direction (state e) ∧
  storage e' = storage e ∧
  (MIN_TICK_RATE ≤ tickRate (state e) ≤ baseTickRate (state e) →
   MIN_TICK_RATE ≤ tickRate (state e') ≤ baseTickRate (state e')).
Proof.
  unfold adjustTickRate, MIN_TICK_RATE. cbv zeta.
  repeat case_bool_decide; simpl;
    repeat match goal with
      | |- context [?a >? ?b] => destruct (Z.gtb_spec a b)
      end; simpl; frame; lia.
Qed.

Lemma eatFood_spec now spawnNow e :
  ∃ e', eatFood now spawnNow e = Some e' ∧ preserved e e' ∧
    phase (state e') = phase (state e) ∧
    gracePeriodTicks (state e') = gracePeriodTicks (state e) ∧
    snake (state e') = snake (state e) ∧
    directionBuffer (state e') = directionBuffer (state e) ∧
    direction (state e') = direction (state e) ∧
    storage e' = storage e ∧
    (MIN_TICK_RATE ≤ tickRate (state e) ≤ baseTickRate (state e) →
     MIN_TICK_RATE ≤ tickRate (state e') ≤ baseTickRate (state e')).
Proof.
  unfold eatFood. destruct (food (state e)) as [f|] eqn:Hfood.
  2: { eexists. split; [done|]. frame. }
  cbv zeta.
  destruct (now - lastEatTime (state e) <? comboWindow (state e)); simpl;
    match goal with
    | |- context [if ?c then _ else _] => destruct c
    end;
    match goal with
    | |- context [respawn ?a ?b ?c] =>
        destruct (respawn_shape a b c) as (fd & r & ->)
    end;
    (eexists; split; [done|]); simpl;
    match goal with
    | |- context [adjustTickRate ?ft ?e1] =>
        destruct (adjustTickRate_spec ft e1)
          as ([Hm Hw Hh Hb Hc] & Hph & Hg & Hs & Hbuf & Hd & Hst & Hrate);
        simpl in *
    end;
    rewrite Hph, Hg, Hs, Hbuf, Hd, Hst; frame;
    match goal with
    | H : COLLISION _ ∈ _ |- _ => by apply Hc in H
    end.
Qed.

Lemma removelast_cons_nonempty {A : Type} (a : A) (l : list A) :
  l ≠ [] → removelast (a :: l) ≠ [].
Proof. by destruct l. Qed.

(** A move always completes.  It keeps the phase, the buffer and the
    direction, counts the grace period down, and leaves a snake that is
    not empty behind. *)
Lemma moveSnake_spec env head newHead e :
  ∃ e', moveSnake env head newHead e = Some e' ∧ preserved e e' ∧
    phase (state e') = phase (state e) ∧
    directionBuffer (state e') = directionBuffer (state e) ∧
    direction (state e') = direction (state e) ∧
    storage e' = storage e ∧
    gracePeriodTicks (state e')
    = (if gracePeriodTicks (state e) >? 0
       then gracePeriodTicks (state e) - 1
       else gracePeriodTicks (state e)) ∧
    (snake (state e) ≠ [] → snake (state e') ≠ []) ∧
    (MIN_TICK_RATE ≤ tickRate (state e) ≤ baseTickRate (state e) →
     MIN_TICK_RATE ≤ tickRate (state e') ≤ baseTickRate (state e')).
Proof.
  unfold moveSnake. cbv zeta. simpl.
  set (grown := upd (set_snake _) e).
  assert (Hpop : ∃ e2,
    (match food (state e) with
     | Some f =>
         if (x newHead =? x f) && (y newHead =? y f)
         then eatFood (eatNow env) (eatSpawnNow env) grown
         else Some (popTail grown)
     | None => Some (popTail grown)
     end) = Some e2 ∧ preserved e e2 ∧
    phase (state e2) = phase (state e) ∧
    directionBuffer (state e2) = directionBuffer (state e) ∧
    direction (state e2) = direction (state e) ∧
    storage e2 = storage e ∧
    gracePeriodTicks (state e2) = gracePeriodTicks (state e) ∧
    (snake (state e) ≠ [] → snake (state e2) ≠ []) ∧
    (MIN_TICK_RATE ≤ tickRate (state e) ≤ baseTickRate (state e) →
     MIN_TICK_RATE ≤ tickRate (state e2) ≤ baseTickRate (state e2))).
  { assert (Hp : ∃ e2, Some (popTail grown) = Some e2 ∧ preserved e e2 ∧
      phase (state e2) = phase (state e) ∧
      directionBuffer (state e2) = directionBuffer (state e) ∧
      direction (state e2) = direction (state e) ∧
      storage e2 = storage e ∧
      gracePeriodTicks (state e2) = gracePeriodTicks (state e) ∧
      (snake (state e) ≠ [] → snake (state e2) ≠ []) ∧
      (MIN_TICK_RATE ≤ tickRate (state e) ≤ baseTickRate (state e) →
       MIN_TICK_RATE ≤ tickRate (state e2) ≤ baseTickRate (state e2))).
    { eexists. split; [done|]. unfold popTail, grown. frame.
      by apply removelast_cons_nonempty. }
    destruct (food (state e)) as [f|]; [|done].
    destruct ((x newHead =? x f) && (y newHead =? y f)); [|done].
    destruct (eatFood_spec (eatNow env) (eatSpawnNow env) grown)
      as (e2 & -> & [Hm Hw Hh Hb Hc] & Hph & Hg & Hs & Hbuf & Hd & Hst
          & Hrate).
    exists e2. split; [done|]. unfold grown in *. simpl in *.
    rewrite Hph, Hg, Hs, Hbuf, Hd, Hst. frame. by apply Hc. }
  destruct Hpop as (e2 & -> & [Hm Hw Hh Hb Hc] & Hph & Hbuf & Hd & Hst
                    & Hg & Hs & Hrate).
  simpl. eexists. split; [done|].
  destruct (Z.gtb_spec (gracePeriodTicks (state e2)) 0);
    rewrite <- Hg; simpl;
    destruct (Z.gtb_spec (gracePeriodTicks (state e2)) 0); try lia;
    frame; auto.
Qed.

Lemma handleCollision_absorb wallHit selfHit e :
  (gracePeriodTicks (state e) >? 0)
  || (bool_decide (mode (state e) = zen) && selfHit) = true →
  handleCollision wallHit selfHit e
  = emit TICK
      (upd (set_gracePeriodTicks (gracePeriodTicks (state e) - 1)) e).
Proof. unfold handleCollision. by intros ->. Qed.

Lemma handleCollision_fatal wallHit selfHit e :
  (gracePeriodTicks (state e) >? 0)
  || (bool_decide (mode (state e) = zen) && selfHit) = false →
  handleCollision wallHit selfHit e
  = gameOver (if wallHit then wall else self) e.
Proof. unfold handleCollision. by intros ->. Qed.

Lemma startGame_spec mode env e :
  ∃ e', startGame mode env e = Some e' ∧
    phase (state e') = playing ∧
    Types.mode (state e') = mode ∧
    tickRate (state e') = BASE_TICK_RATES mode ∧
    baseTickRate (state e') = BASE_TICK_RATES mode ∧
    directionBuffer (state e') = [] ∧
    direction (state e') = RIGHT ∧
    gracePeriodTicks (state e') = GRACE_PERIOD_TICKS ∧
    length (snake (state e')) = 3%nat ∧
    gridWidth (state e') = gridWidth (state e) ∧
    gridHeight (state e') = gridHeight (state e).
Proof.
  unfold startGame. cbv zeta.
  match goal with
  | |- context [respawn ?a ?b ?c] =>
      destruct (respawn_shape a b c) as (fd & r & ->)
  end.
  eexists. split; [done|]. simpl. by case_bool_decide.
Qed.

Lemma snake_nonempty_positions e e' :
  positions e' = positions e → snake (state e) ≠ [] → snake (state e') ≠ [].
Proof.
  unfold positions. intros H Hne E. rewrite E in H. simpl in H.
  symmetry in H. by apply fmap_nil_inv in H.
Qed.

(** [tick] in the playing phase: the prelude, then either the collision
    handling or the move. *)
Lemma tick_playing deltaMs env e :
  phase (state e) = playing →
  ∃ e1, tickPrelude env e = Some e1 ∧
    tick deltaMs env e
    = (head ← snake (state e1) !! 0%nat;
       newHead ← computeNewHead e1;
       if wallHit e1 newHead || selfHit e1 newHead
       then Some (handleCollision (wallHit e1 newHead)
                                  (selfHit e1 newHead) e1)
       else moveSnake env head newHead e1).
Proof.
  intros Hph. unfold tick. rewrite bool_decide_eq_false_2 by (by intros ?).
  destruct (tickPrelude_spec env e) as (e1 & -> & _).
  by exists e1.
Qed.

Lemma tick_not_playing deltaMs env e :
  phase (state e) ≠ playing → tick deltaMs env e = Some e.
Proof. intros H. unfold tick. by rewrite bool_decide_eq_true_2. Qed.

Lemma tick_invariant deltaMs env e e' :
  invariant (state e) → tick deltaMs env e = Some e' → invariant (state e').
Proof.
  intros [Hrate Hbase Hbuf Hsnake] Htick.
  destruct (decide (phase (state e) = playing)) as [Hph|Hph].
  2: { rewrite tick_not_playing in Htick by done. by injection Htick as <-. }
  destruct (tick_playing deltaMs env e Hph) as (e1 & Hpre & Heq).
  rewrite Heq in Htick. clear Heq.
  destruct (tickPrelude_spec env e)
    as (e1' & Hpre' & [Hm Hw Hh Hb _] & Hph1 & Hr1 & Hg1 & Hpos1 & _
        & Hbuf1 & _).
  assert (e1' = e1) as -> by congruence. clear Hpre'.
  assert (Hs1 : snake (state e1) ≠ [])
    by (eapply snake_nonempty_positions; eauto).
  assert (Hlen1 : (length (directionBuffer (state e1)) ≤ 2)%nat).
  { rewrite Hbuf1. destruct (directionBuffer (state e)); simpl in *; lia. }
  destruct (snake (state e1) !! 0%nat) as [head|]; [|done].
  simpl in Htick. destruct (computeNewHead e1) as [newHead|]; [|done].
  simpl in Htick.
  destruct (wallHit e1 newHead || selfHit e1 newHead).
  - injection Htick as <-.
    destruct ((gracePeriodTicks (state e1) >? 0)
              || (bool_decide (mode (state e1) = zen)
                  && selfHit e1 newHead)) eqn:Hc.
    + rewrite handleCollision_absorb by done.
      split; simpl; rewrite ?Hr1, ?Hb, ?Hm; auto.
    + rewrite handleCollision_fatal by done.
      split; simpl; rewrite ?Hr1, ?Hb, ?Hm; auto.
  - destruct (moveSnake_spec env head newHead e1)
      as (e2 & He2 & [Hm2 _ _ Hb2 _] & Hph2 & Hbuf2 & _ & _ & _ & Hs2
          & Hr2).
    assert (e2 = e') as -> by congruence.
    split.
    + apply Hr2. by rewrite Hr1, Hb.
    + by rewrite Hb2, Hm2, Hb, Hm.
    + by rewrite Hbuf2.
    + auto.
Qed.

Lemma setDirection_shape dir e :
  setDirection dir e = e
  ∨ ((length (directionBuffer (state e)) < 2)%nat
     ∧ setDirection dir e
       = upd (set_directionBuffer (directionBuffer (state e) ++ [dir])) e).
Proof. unfold setDirection. repeat case_bool_decide; auto. Qed.

(** Every call of [tick] takes at most one tick off the grace period,
    and dequeues the oldest buffered direction. *)
Lemma tick_frame deltaMs env e e' :
  phase (state e) = playing → tick deltaMs env e = Some e' →
  directionBuffer (state e') = tail (directionBuffer (state e)) ∧
  direction (state e') = upcomingDirection (state e) ∧
  gracePeriodTicks (state e) - 1 ≤ gracePeriodTicks (state e').
Proof.
  intros Hph Htick.
  destruct (tick_playing deltaMs env e Hph) as (e1 & Hpre & Heq).
  rewrite Heq in Htick. clear Heq.
  destruct (tickPrelude_spec env e)
    as (e1' & Hpre' & _ & _ & _ & Hg1 & _ & _ & Hbuf1 & Hd1).
  assert (e1' = e1) as -> by congruence. clear Hpre'.
  destruct (snake (state e1) !! 0%nat) as [head|]; [|done].
  simpl in Htick. destruct (computeNewHead e1) as [newHead|]; [|done].
  simpl in Htick.
  destruct (wallHit e1 newHead || selfHit e1 newHead).
  - injection Htick as <-.
    destruct ((gracePeriodTicks (state e1) >? 0)
              || (bool_decide (mode (state e1) = zen)
                  && selfHit e1 newHead)) eqn:Hc.
    + rewrite handleCollision_absorb by done. simpl. repeat split; [done..|].
      lia.
    + rewrite handleCollision_fatal by done. simpl. repeat split; [done..|].
      lia.
  - destruct (moveSnake_spec env head newHead e1)
      as (e2 & He2 & _ & _ & Hbuf2 & Hd2 & _ & Hg2 & _).
    assert (e2 = e') as -> by congruence.
    rewrite Hbuf2, Hd2, Hg2. repeat split; [done..|].
    destruct (Z.gtb_spec (gracePeriodTicks (state e1)) 0); lia.
Qed.

Lemma step_startGame m env e :
  step (OpStartGame m env) e = startGame m env e.
Proof. reflexivity. Qed.

Lemma step_tick deltaMs env e :
  step (OpTick deltaMs env) e = tick deltaMs env e.
Proof. reflexivity. Qed.

Lemma step_invariant op e e' :
  invariant (state e) → step op e = Some e' → invariant (state e').
Proof.
  intros Hinv Hstep.
  destruct op as [w h|m env| | | | |dir|deltaMs env];
    [injection Hstep as <- | rewrite step_startGame in Hstep
    | injection Hstep as <- ..
    | rewrite step_tick in Hstep].
  - destruct Hinv. by split.
  - destruct (startGame_spec m env e)
      as (e2 & He2 & Hph & Hm & Hr & Hb & Hbuf & _ & _ & Hlen & _).
    rewrite He2 in Hstep. injection Hstep as <-.
    split.
    + rewrite Hr, Hb. unfold MIN_TICK_RATE. destruct m; simpl; lia.
    + by rewrite Hb, Hm.
    + rewrite Hbuf. simpl. lia.
    + intros _ E. by rewrite E in Hlen.
  - destruct Hinv. split; simpl; auto. by intros [?|?].
  - destruct Hinv. unfold pause. case_bool_decide; split; simpl; auto.
  - destruct Hinv. unfold resume. case_bool_decide; split; simpl; auto.
  - destruct Hinv. unfold togglePause, pause, resume.
    repeat case_bool_decide; split; simpl; auto.
  - destruct Hinv as [? ? Hbuf ?].
    destruct (setDirection_shape dir e) as [->|[Hlt ->]]; split; simpl;
      auto.
    rewrite length_app. simpl. lia.
  - exact (tick_invariant deltaMs env e e' Hinv Hstep).
Qed.

Lemma reachable_invariant e : reachable e → invariant (state e).
Proof.
  induction 1 as [env stored|op e e' _ IH Hstep].
  - split; simpl; unfold MIN_TICK_RATE; try lia; try done.
    by intros [?|?].
  - exact (step_invariant op e e' IH Hstep).
Qed.

Lemma run_reachable ops e e' :
  reachable e → run ops e = Some e' → reachable e'.
Proof.
  revert e. induction ops as [|op ops IH]; intros e He Hrun; simpl in Hrun.
  - by injection Hrun as <-.
  - destruct (step op e) as [e1|] eqn:Hstep; [|done].
    eapply IH; [|exact Hrun]. by eapply reachable_step.
Qed.

(** C10.  In every state that the public operations can reach the tick
    rate lies between the 50 ms floor and the base rate of the mode. *)
Theorem C10_tickRate_bounds (e : GameEngine) :
  reachable e →
  50 ≤ tickRate (state e) ≤ baseTickRate (state e) ∧
  baseTickRate (state e) = BASE_TICK_RATES (mode (state e)).
Proof.
  intros He. destruct (reachable_invariant e He) as [Hrate Hbase _ _].
  by split.
Qed.

Lemma after_reachable ops e :
  run ops Scenario.initial = Some e → reachable (Scenario.after ops).
Proof.
  intros H. unfold Scenario.after. rewrite H. simpl.
  eapply run_reachable; [apply reachable_new | exact H].
Qed.

Lemma C10_tickRate_bounds_witness :
  50 ≤ tickRate (state (Scenario.after Scenario.zenLoop))
     ≤ baseTickRate (state (Scenario.after Scenario.zenLoop)) ∧
  baseTickRate (state (Scenario.after Scenario.zenLoop)) = 150.
Proof.
  apply (C10_tickRate_bounds (Scenario.after Scenario.zenLoop)).
  eapply after_reachable. vm_compute. reflexivity.
Defined.

(** *** The direction buffer *)

(** C5, as the code has it.  [setDirection(dir)] changes nothing when
    the phase is not playing, when [dir] is the opposite of the reference
    direction or equal to it, and also when two directions are already
    pending; in the remaining case it appends [dir] to the buffer.  A
    reachable state never holds more than two pending directions, and a
    tick of a running game removes the oldest of them and makes it the
    current direction unless it reverses the current one. *)
Theorem C5_setDirection_buffer (e : GameEngine) (dir : Direction) :
  reachable e →
  (phase (state e) ≠ playing
   ∨ OPPOSITE_DIRECTION dir = refDir (state e)
   ∨ dir = refDir (state e)
   ∨ (2 ≤ length (directionBuffer (state e)))%nat →
   setDirection dir e = e) ∧
  (phase (state e) = playing →
   OPPOSITE_DIRECTION dir ≠ refDir (state e) →
   dir ≠ refDir (state e) →
   (length (directionBuffer (state e)) < 2)%nat →
   setDirection dir e
   = upd (set_directionBuffer (directionBuffer (state e) ++ [dir])) e) ∧
  (length (directionBuffer (state e)) ≤ 2)%nat ∧
  (∀ deltaMs env e',
     phase (state e) = playing → tick deltaMs env e = Some e' →
     directionBuffer (state e') = tail (directionBuffer (state e)) ∧
     direction (state e') = upcomingDirection (state e)).
Proof.
  intros He. split; [|split; [|split]].
  - unfold setDirection. intros H. repeat case_bool_decide; try done.
    destruct H as [?|[?|[?|?]]]; try done. lia.
  - unfold setDirection. intros H1 H2 H3 H4.
    by rewrite bool_decide_eq_false_2, bool_decide_eq_false_2,
      bool_decide_eq_false_2, bool_decide_eq_true_2 by (done || by intros ?).
  - by destruct (reachable_invariant e He).
  - intros deltaMs env e' Hph Htick.
    destruct (tick_frame deltaMs env e e' Hph Htick) as (? & ? & _). done.
Qed.

Lemma C5_setDirection_buffer_witness :
  setDirection DOWN (Scenario.after Scenario.twoTurns)
  = Scenario.after Scenario.twoTurns.
Proof.
  refine (proj1 (C5_setDirection_buffer
                   (Scenario.after Scenario.twoTurns) DOWN _) _).
  - eapply after_reachable. vm_compute. reflexivity.
  - right. right. right. vm_compute. lia.
Defined.

(** C5, as stated, fails: with UP and LEFT pending after a start towards
    the right, DOWN is neither the reference direction LEFT nor its
    opposite and the game is running, yet [setDirection(DOWN)] does not
    append it. *)
Lemma C5_full_buffer_counterexample :
  let e := Scenario.after Scenario.twoTurns in
  run Scenario.twoTurns Scenario.initial = Some e ∧
  phase (state e) = playing ∧
  OPPOSITE_DIRECTION DOWN ≠ refDir (state e) ∧
  DOWN ≠ refDir (state e) ∧
  directionBuffer (state (setDirection DOWN e)) = [UP; LEFT] ∧
  directionBuffer (state (setDirection DOWN e))
  ≠ directionBuffer (state e) ++ [DOWN].
Proof. by vm_compute. Qed.

(** *** The grace period *)

Lemma step_grace (n : nat) op e e' :
  GRACE_PERIOD_TICKS - Z.of_nat n ≤ gracePeriodTicks (state e) →
  step op e = Some e' →
  GRACE_PERIOD_TICKS - Z.of_nat n - (if isTick op then 1 else 0)
  ≤ gracePeriodTicks (state e').
Proof.
  intros Hg Hstep.
  destruct op as [w h|m env| | | | |dir|deltaMs env];
    [injection Hstep as <- | rewrite step_startGame in Hstep
    | injection Hstep as <- ..
    | rewrite step_tick in Hstep]; simpl.
  - lia.
  - destruct (startGame_spec m env e)
      as (e2 & He2 & _ & _ & _ & _ & _ & _ & Hg2 & _).
    rewrite He2 in Hstep. injection Hstep as <-. rewrite Hg2. lia.
  - lia.
  - unfold pause. case_bool_decide; simpl; lia.
  - unfold resume. case_bool_decide; simpl; lia.
  - unfold togglePause, pause, resume. repeat case_bool_decide; simpl; lia.
  - destruct (setDirection_shape dir e) as [->|[_ ->]]; simpl; lia.
  - destruct (decide (phase (state e) = playing)) as [Hph|Hph].
    + destruct (tick_frame deltaMs env e e' Hph Hstep) as (_ & _ & ?). lia.
    + rewrite tick_not_playing in Hstep by done.
      injection Hstep as <-. lia.
Qed.

Lemma tickCalls_cons op ops :
  tickCalls (op :: ops)
  = ((if isTick op then 1 else 0) + tickCalls ops)%nat.
Proof. unfold tickCalls. simpl. by destruct (isTick op). Qed.

(** A sequence of calls with [k] ticks leaves at least [3 - k] ticks of
    grace after a start. *)
Lemma run_grace (n : nat) ops e e' :
  GRACE_PERIOD_TICKS - Z.of_nat n ≤ gracePeriodTicks (state e) →
  run ops e = Some e' →
  GRACE_PERIOD_TICKS - Z.of_nat n - Z.of_nat (tickCalls ops)
  ≤ gracePeriodTicks (state e').
Proof.
  revert n e. induction ops as [|op ops IH]; intros n e Hg Hrun;
    simpl in Hrun.
  - injection Hrun as <-. unfold tickCalls. simpl. lia.
  - destruct (step op e) as [e1|] eqn:Hstep; [|done]. simpl in Hrun.
    pose proof (step_grace n op e e1 Hg Hstep) as Hg1.
    rewrite tickCalls_cons.
    destruct (isTick op).
    + specialize (IH (S n) e1). 
      assert (GRACE_PERIOD_TICKS - Z.of_nat (S n)
              ≤ gracePeriodTicks (state e1)) as H1 by lia.
      specialize (IH H1 Hrun). lia.
    + specialize (IH n e1).
      assert (GRACE_PERIOD_TICKS - Z.of_nat n
              ≤ gracePeriodTicks (state e1)) as H1 by lia.
      specialize (IH H1 Hrun). lia.
Qed.

(** C3.  After [startGame], in any mode, and any further calls of which
    at most two are ticks, a tick of the running game whose new head
    hits a wall or the body is absorbed: the tick completes, the phase
    is still playing, every segment is where it was, the stored high
    scores are untouched and no collision is reported. *)
Theorem C3_grace_period_absorbs (m : GameMode) (senv : StartEnv)
    (e0 e1 e : GameEngine) (ops : list Op) (deltaMs : Z) (env : TickEnv)
    (e2 : GameEngine) (newHead : Vector2) :
  startGame m senv e0 = Some e1 →
  run ops e1 = Some e →
  (tickCalls ops ≤ 2)%nat →
  phase (state e) = playing →
  tickPrelude env e = Some e2 →
  computeNewHead e2 = Some newHead →
  wallHit e2 newHead || selfHit e2 newHead = true →
  ∃ e', tick deltaMs env e = Some e' ∧
    phase (state e') = playing ∧
    positions e' = positions e ∧
    storage e' = storage e ∧
    (∀ r, COLLISION r ∈ emitted e' → COLLISION r ∈ emitted e).
Proof.
  intros Hstart Hrun Hticks Hph Hpre Hhead Hhit.
  destruct (startGame_spec m senv e0)
    as (e1' & He1 & _ & _ & _ & _ & _ & _ & Hg1 & _).
  assert (e1' = e1) as -> by congruence. clear He1.
  assert (Hg : 0 < gracePeriodTicks (state e)).
  { pose proof (run_grace 0 ops e1 e) as H. rewrite Hg1 in H.
    specialize (H ltac:(simpl; lia) Hrun).
    unfold GRACE_PERIOD_TICKS in H. lia. }
  destruct (tick_playing deltaMs env e Hph) as (e2' & Hpre' & ->).
  assert (e2' = e2) as -> by congruence. clear Hpre'.
  destruct (tickPrelude_spec env e)
    as (e2' & Hpre' & [_ _ _ _ Hc] & Hph2 & _ & Hg2 & Hpos2 & Hst2 & _).
  assert (e2' = e2) as -> by congruence. clear Hpre'.
  rewrite Hhead.
  assert (∃ head, snake (state e2) !! 0%nat = Some head) as [head ->].
  { unfold computeNewHead in Hhead.
    destruct (snake (state e2) !! 0%nat) as [head|]; [by eexists|done]. }
  simpl. rewrite Hhit.
  rewrite handleCollision_absorb.
  2: { rewrite Hg2. destruct (Z.gtb_spec (gracePeriodTicks (state e)) 0);
         [done|lia]. }
  eexists. split; [done|]. unfold positions in *. simpl.
  repeat split; try congruence.
  intros r Hr. apply Hc. frame.
Qed.

Lemma C3_grace_period_absorbs_witness :
  let e := Scenario.after Scenario.narrow in
  ∃ e', tick 100 (mkTickEnv 200 200 200 200) e = Some e' ∧
    phase (state e') = playing ∧
    positions e' = positions e ∧
    storage e' = storage e ∧
    (∀ r, COLLISION r ∈ emitted e' → COLLISION r ∈ emitted e).
Proof.
  refine (C3_grace_period_absorbs classic Scenario.startEnv
            (setGridSize 4 4 Scenario.initial)
            (Scenario.after Scenario.narrowStart)
            (Scenario.after Scenario.narrow)
            [Scenario.tickAt 100] 100 (mkTickEnv 200 200 200 200)
            (storePrevious (Scenario.after Scenario.narrow))
            (mkVec 4 2) _ _ _ _ _ _ _).
  - vm_compute. reflexivity.
  - vm_compute. reflexivity.
  - vm_compute. lia.
  - vm_compute. reflexivity.
  - vm_compute. reflexivity.
  - vm_compute. reflexivity.
  - vm_compute. reflexivity.
Defined.

(** *** The zen mode *)

Lemma wrapped_inside (pos : Vector2) (w h : Z) :
  0 < w → 0 < h →
  Collision.checkWallCollision (mkVec (x pos mod w) (y pos mod h)) w h
  = false.
Proof.
  intros Hw Hh. unfold Collision.checkWallCollision. simpl.
  pose proof (Z.mod_pos_bound (x pos) w Hw).
  pose proof (Z.mod_pos_bound (y pos) h Hh).
  repeat match goal with
    | |- context [?a <? ?b] => destruct (Z.ltb_spec a b); [lia|]
    | |- context [?a >=? ?b] => destruct (Z.geb_spec a b); [lia|]
    end.
  done.
Qed.

(** In the zen mode on a grid of positive dimensions the new head is
    always defined and never beyond a wall. *)
Lemma zen_newHead e head :
  mode (state e) = zen →
  0 < gridWidth (state e) → 0 < gridHeight (state e) →
  snake (state e) !! 0%nat = Some head →
  ∃ newHead, computeNewHead e = Some newHead ∧ wallHit e newHead = false.
Proof.
  intros Hm Hw Hh Hhead. unfold computeNewHead, wallHit.
  rewrite Hhead. simpl. rewrite bool_decide_eq_true_2 by done.
  rewrite wrapPosition_pos by done.
  eexists. split; [done|]. by apply wrapped_inside.
Qed.

(** C9.  In the zen mode, on a grid of positive dimensions, no call
    other than a navigation takes a reachable running game out of the
    playing phase: the call completes, the phase is still playing, no
    collision is reported and the stored high scores are untouched.  In
    particular [tick] never ends a zen game. *)
Theorem C9_zen_never_dies (e : GameEngine) (op : Op) :
  reachable e →
  mode (state e) = zen →
  0 < gridWidth (state e) → 0 < gridHeight (state e) →
  phase (state e) = playing →
  isNavigation op = false →
  ∃ e', step op e = Some e' ∧
    phase (state e') = playing ∧
    storage e' = storage e ∧
    (∀ r, COLLISION r ∈ emitted e' → COLLISION r ∈ emitted e).
Proof.
  intros He Hm Hw Hh Hph Hop.
  destruct op as [w h|m env| | | | |dir|deltaMs env]; try done.
  - eexists. split; [done|]. by frame.
  - eexists. split; [done|].
    destruct (setDirection_shape dir e) as [->|[_ ->]]; by frame.
  - rewrite step_tick.
    destruct (reachable_invariant e He) as [_ _ _ Hsnake].
    specialize (Hsnake (or_introl Hph)).
    destruct (tick_playing deltaMs env e Hph) as (e1 & Hpre & ->).
    destruct (tickPrelude_spec env e)
      as (e1' & Hpre' & [Hm1 Hw1 Hh1 _ Hc1] & Hph1 & _ & _ & Hpos1 & Hst1
          & _).
    assert (e1' = e1) as -> by congruence. clear Hpre'.
    assert (Hs1 : snake (state e1) ≠ [])
      by (eapply snake_nonempty_positions; eauto).
    destruct (snake (state e1)) as [|head rest] eqn:Hsn; [done|].
    assert (Hhead : snake (state e1) !! 0%nat = Some head)
      by (by rewrite Hsn).
    rewrite <- Hsn. rewrite Hhead. simpl.
    destruct (zen_newHead e1 head) as (newHead & -> & Hwall);
      try congruence; try lia.
    simpl. rewrite Hwall. simpl.
    destruct (selfHit e1 newHead) eqn:Hself.
    + rewrite handleCollision_absorb.
      2: { rewrite bool_decide_eq_true_2 by congruence.
           by rewrite orb_true_r. }
      eexists. split; [done|]. simpl. repeat split; try congruence.
      intros r Hr. apply Hc1. frame.
    + destruct (moveSnake_spec env head newHead e1)
        as (e2 & -> & [_ _ _ _ Hc2] & Hph2 & _ & _ & Hst2 & _).
      exists e2. split; [done|]. repeat split; try congruence. auto.
Qed.

Lemma C9_zen_never_dies_witness :
  let e := Scenario.after Scenario.zenLoop in
  ∃ e', step (OpTick 100 (mkTickEnv 700 700 700 700)) e = Some e' ∧
    phase (state e') = playing ∧
    storage e' = storage e ∧
    (∀ r, COLLISION r ∈ emitted e' → COLLISION r ∈ emitted e).
Proof.
  refine (C9_zen_never_dies (Scenario.after Scenario.zenLoop)
            (OpTick 100 (mkTickEnv 700 700 700 700)) _ _ _ _ _ _).
  - eapply after_reachable. vm_compute. reflexivity.
  - vm_compute. reflexivity.
  - vm_compute. reflexivity.
  - vm_compute. reflexivity.
  - vm_compute. reflexivity.
  - reflexivity.
Defined.

End EngineProperties.


(** * Further properties of the generator *)

Section RngFurther.
Import Rng.

Lemma toInt32_range z : - 2147483648 ≤ JS.toInt32 z < 2147483648.
Proof.
  unfold JS.toInt32.
  pose proof (Z.mod_pos_bound (z + 2 ^ 31) (2 ^ 32) ltac:(lia)). lia.
Qed.

Lemma toInt32_small z :
  - 2147483648 ≤ z < 2147483648 → JS.toInt32 z = z.
Proof.
  intros Hz. unfold JS.toInt32. rewrite Z.mod_small; lia.
Qed.

(** [ToInt32] only sees its argument modulo 2^32. *)
Lemma toInt32_add_multiple z k : JS.toInt32 (z + k * 4294967296) = JS.toInt32 z.
Proof.
  unfold JS.toInt32.
  replace (z + k * 4294967296 + 2 ^ 31) with (z + 2 ^ 31 + k * 2 ^ 32) by lia.
  by rewrite Z.mod_add by lia.
Qed.

Lemma toInt32_decompose z : ∃ k, JS.toInt32 z = z + k * 4294967296.
Proof.
  exists (- ((z + 2 ^ 31) `div` 2 ^ 32)). unfold JS.toInt32.
  pose proof (Z.div_mod (z + 2 ^ 31) (2 ^ 32) ltac:(lia)). lia.
Qed.

Lemma hashStep_polynomial hash char :
  hashStep hash char = JS.toInt32 (31 * hash + char).
Proof.
  unfold hashStep, JS.band, JS.shl. cbv zeta.
  rewrite Z.land_diag.
  replace (5 mod 32) with 5 by reflexivity.
  rewrite Z.shiftl_mul_pow2 by lia.
  destruct (toInt32_decompose hash) as [k1 ->].
  destruct (toInt32_decompose ((hash + k1 * 4294967296) * 2 ^ 5)) as [k2 ->].
  replace ((hash + k1 * 4294967296) * 2 ^ 5 + k2 * 4294967296 - hash + char)
    with (31 * hash + char + (32 * k1 + k2) * 4294967296) by lia.
  apply toInt32_add_multiple.
Qed.

Lemma hashLoop_polynomial str hash acc :
  JS.toInt32 hash = JS.toInt32 acc →
  JS.toInt32 (fold_left hashStep str hash)
  = JS.toInt32 (fold_left (λ acc char, 31 * acc + char) str acc).
Proof.
  revert hash acc. induction str as [|c str IH]; intros hash acc H; simpl.
  - done.
  - apply IH. rewrite hashStep_polynomial.
    destruct (toInt32_decompose hash) as [k1 E1].
    destruct (toInt32_decompose acc) as [k2 E2].
    destruct (toInt32_decompose (31 * hash + c)) as [k3 ->].
    replace (31 * hash + c + k3 * 4294967296)
      with (31 * acc + c + (31 * (k2 - k1) + k3) * 4294967296) by lia.
    apply toInt32_add_multiple.
Qed.

Lemma hashLoop_int32 str :
  JS.toInt32 (fold_left hashStep str 0) = fold_left hashStep str 0.
Proof.
  induction str as [|c str _] using rev_ind; [done|].
  rewrite fold_left_app. simpl. rewrite hashStep_polynomial.
  apply toInt32_small, toInt32_range.
Qed.

(** X1.  [hashString] is the polynomial rolling hash with multiplier 31
    over the code units, folded to a signed 32-bit integer and then made
    non-negative: its value is between 0 and 2^31 for every string. *)
Theorem X1_hashString_polynomial (str : list Z) :
  hashString str = Z.abs (JS.toInt32 (polynomial31 str)) ∧
  0 ≤ hashString str ≤ 2147483648.
Proof.
  unfold hashString, polynomial31.
  rewrite <- (hashLoop_polynomial str 0 0) by done.
  rewrite hashLoop_int32. split; [done|].
  pose proof (toInt32_range (fold_left hashStep str 0)) as H.
  rewrite hashLoop_int32 in H. lia.
Qed.

Lemma toUnit_range bits :
  0 ≤ bits < 4294967296 → (0 <= toUnit bits)%Q ∧ (toUnit bits < 1)%Q.
Proof.
  intros H. unfold toUnit, Qdiv, Qle, Qlt. simpl. lia.
Qed.




(** X4.  [nextBool(p)] is never true for [p <= 0] and always true for
    [p >= 1]. *)
Theorem X4_nextBool_extremes (p : Q) (r : SeededRNG) :
  ((p <= 0)%Q → fst (nextBool p r) = false) ∧
  ((1 <= p)%Q → fst (nextBool p r) = true).
Proof.
  destruct (toUnit_range (nextBits r) (nextBits_range r)) as [H1 H2].
  unfold nextBool, next. simpl. split; intros Hp.
  - apply negb_false_iff, Qle_bool_iff. by eapply Qle_trans.
  - apply negb_true_iff, not_true_iff_false. rewrite Qle_bool_iff.
    intros Hle. apply (Qlt_irrefl 1).
    eapply Qle_lt_trans; [exact Hp|]. by eapply Qle_lt_trans.
Qed.

(** X5.  [pick] returns [undefined] exactly on the empty array; on any
    other array it returns one of its elements.  In both cases it makes
    one draw. *)
Theorem X5_pick_member {T : Type} (array : list T) (r : SeededRNG) :
  (fst (pick array r) = None ↔ array = []) ∧
  (∀ item, fst (pick array r) = Some item → item ∈ array) ∧
  snd (pick array r) = advance r.
Proof.
  destruct array as [|a array].
  - unfold pick, next. change (Z.of_nat (length (@nil T))) with 0.
    rewrite Z.mul_0_r. change (0 `div` 4294967296) with 0.
    cbn [fst snd Z.leb Z.compare Z.to_nat lookup list_lookup].
    split; [done|]. split; [|done]. by intros item.
  - destruct (pick_nonempty (a :: array) r ltac:(done)) as (item & -> & Hin).
    cbn [fst snd]. split; [done|]. split; [|done]. by intros item' [= <-].
Qed.

(** *** The daily seed *)

Lemma pad2_length_table :
  forallb (λ n, Nat.eqb (String.length (pad2 n)) 2) (seqZ 0 100) = true.
Proof. by vm_compute. Qed.

Lemma pad2_inj_table :
  forallb (λ a, forallb (λ b, implb (String.eqb (pad2 a) (pad2 b)) (a =? b))
                        (seqZ 0 100))
          (seqZ 0 100) = true.
Proof. by vm_compute. Qed.

Lemma year_length_table :
  forallb (λ n, Nat.eqb (String.length (JS.numberToString n)) 4)
          (seqZ 1000 9000) = true.
Proof. by vm_compute. Qed.

Lemma in_seqZ (m n k : Z) : m ≤ k < m + n → In k (seqZ m n).
Proof. intros H. apply list_elem_of_In, elem_of_seqZ. lia. Qed.

Lemma pad2_length n : 0 ≤ n < 100 → String.length (pad2 n) = 2%nat.
Proof.
  intros Hn. pose proof pad2_length_table as H.
  rewrite forallb_forall in H. specialize (H n (in_seqZ 0 100 n ltac:(lia))).
  by apply Nat.eqb_eq in H.
Qed.

Lemma pad2_inj a b : 0 ≤ a < 100 → 0 ≤ b < 100 → pad2 a = pad2 b → a = b.
Proof.
  intros Ha Hb E. pose proof pad2_inj_table as H.
  rewrite forallb_forall in H. specialize (H a (in_seqZ 0 100 a ltac:(lia))).
  rewrite forallb_forall in H. specialize (H b (in_seqZ 0 100 b ltac:(lia))).
  rewrite E, String.eqb_refl in H. simpl in H. by apply Z.eqb_eq in H.
Qed.

Lemma length_list_ascii_of_string (s : string) :
  length (list_ascii_of_string s) = String.length s.
Proof. induction s as [|c s IH]; simpl; [done | by rewrite IH]. Qed.

Lemma list_ascii_of_string_inj (s t : string) :
  list_ascii_of_string s = list_ascii_of_string t → s = t.
Proof.
  intros H. apply (f_equal string_of_list_ascii) in H.
  by rewrite !string_of_list_ascii_of_string in H.
Qed.

Lemma getDailySeed_parts (d : Date) :
  list_ascii_of_string (getDailySeed d)
  = list_ascii_of_string "daily-"
    ++ list_ascii_of_string (JS.numberToString (fullYear d))
    ++ list_ascii_of_string (pad2 (month d + 1))
    ++ list_ascii_of_string (pad2 (date d)).
Proof.
  unfold getDailySeed, pad2. cbv zeta.
  by rewrite !list_ascii_of_string_app.
Qed.

(** X6.  Two calendar dates have the same daily seed only if they are the
    same date, whatever the years are; and for a year of four digits the
    seed is 14 characters long. *)
Theorem X6_getDailySeed_injective (d1 d2 : Date) :
  calendarDate d1 → calendarDate d2 →
  (getDailySeed d1 = getDailySeed d2 → d1 = d2) ∧
  (1000 ≤ fullYear d1 ≤ 9999 → String.length (getDailySeed d1) = 14%nat).
Proof.
  intros [Hm1 Hd1] [Hm2 Hd2].
  pose proof (pad2_length (month d1 + 1) ltac:(lia)) as Lm1.
  pose proof (pad2_length (month d2 + 1) ltac:(lia)) as Lm2.
  pose proof (pad2_length (date d1) ltac:(lia)) as Ld1.
  pose proof (pad2_length (date d2) ltac:(lia)) as Ld2.
  split.
  - intros E. apply (f_equal list_ascii_of_string) in E.
    rewrite !getDailySeed_parts in E.
    apply app_inv_head in E.
    apply app_inj_2 in E as [Ey E];
      [|by rewrite !length_app, !length_list_ascii_of_string, Lm1, Lm2,
           Ld1, Ld2].
    apply app_inj_1 in E as [Em Ed];
      [|by rewrite !length_list_ascii_of_string, Lm1, Lm2].
    apply list_ascii_of_string_inj, numberToString_inj in Ey.
    apply list_ascii_of_string_inj, pad2_inj in Em; [|lia..].
    apply list_ascii_of_string_inj, pad2_inj in Ed; [|lia..].
    destruct d1, d2. simpl in *. f_equal; lia.
  - intros Hy. rewrite <- length_list_ascii_of_string, getDailySeed_parts.
    rewrite !length_app, !length_list_ascii_of_string, Lm1, Ld1.
    pose proof year_length_table as H. rewrite forallb_forall in H.
    specialize (H (fullYear d1) (in_seqZ 1000 9000 (fullYear d1) ltac:(lia))).
    apply Nat.eqb_eq in H. by rewrite H.
Qed.

Lemma X6_getDailySeed_injective_witness :
  String.length (getDailySeed (mkDate 2024 0 15)) = 14%nat.
Proof.
  refine (proj2 (X6_getDailySeed_injective (mkDate 2024 0 15)
                   (mkDate 2024 11 31) _ _) _);
    unfold calendarDate; simpl; lia.
Defined.

End RngFurther.

(** * Further properties of the collision predicates *)

Section CollisionFurther.
Import Collision.

Lemma wrapCoord_nonzero c size :
  size ≠ 0 → ∃ r, wrapCoord c size = Some r.
Proof.
  intros Hs. unfold wrapCoord, jsRem.
  destruct (Z.eqb_spec size 0) as [?|_]; [done|]. simpl.
  destruct (Z.eqb_spec size 0) as [?|_]; [done|]. eauto.
Qed.

Lemma wrapCoord_zero c : wrapCoord c 0 = None.
Proof. reflexivity. Qed.

(** X7.  On a grid of positive dimensions [wrapPosition] is a projection
    onto the grid: it leaves a position of the grid where it is, so
    wrapping twice is wrapping once, its result never collides with a
    wall, and positions that differ by whole grid widths and heights wrap
    to the same cell. *)
Theorem X7_wrapPosition_torus (pos : Vector2) (w h : Z) :
  0 < w → 0 < h →
  (checkWallCollision pos w h = false → wrapPosition pos w h = Some pos) ∧
  (∀ q, wrapPosition pos w h = Some q →
        wrapPosition q w h = Some q ∧ checkWallCollision q w h = false) ∧
  (∀ i j, wrapPosition (mkVec (x pos + i * w) (y pos + j * h)) w h
          = wrapPosition pos w h).
Proof.
  intros Hw Hh. split; [|split].
  - unfold checkWallCollision. intros Hin.
    rewrite !orb_false_iff in Hin. destruct Hin as [[[H1 H2] H3] H4].
    apply Z.ltb_ge in H1, H3. rewrite Z.geb_leb in H2, H4.
    apply Z.leb_gt in H2, H4.
    rewrite wrapPosition_pos by done.
    rewrite !Z.mod_small by lia. by destruct pos.
  - intros q. rewrite wrapPosition_pos by done. intros [= <-].
    rewrite wrapPosition_pos by done. simpl.
    rewrite !Z.mod_mod by lia. split; [done|]. by apply wrapped_inside.
  - intros i j. rewrite !wrapPosition_pos by done. simpl.
    by rewrite !Z.mod_add by lia.
Qed.

Lemma X7_wrapPosition_torus_witness :
  wrapPosition (mkVec 10 7) 20 15 = Some (mkVec 10 7).
Proof.
  refine (proj1 (X7_wrapPosition_torus (mkVec 10 7) 20 15 _ _) _);
    [lia | lia | reflexivity].
Defined.

(** X8.  [wrapPosition] fails to give a position, a coordinate being
    [NaN], exactly when a dimension of the grid is zero. *)
Theorem X8_wrapPosition_zero_dimension (pos : Vector2) (w h : Z) :
  wrapPosition pos w h = None ↔ w = 0 ∨ h = 0.
Proof.
  unfold wrapPosition. split.
  - intros H. destruct (decide (w = 0)) as [|Hw]; [by left|].
    destruct (decide (h = 0)) as [|Hh]; [by right|].
    destruct (wrapCoord_nonzero (x pos) w Hw) as [wx Ex].
    destruct (wrapCoord_nonzero (y pos) h Hh) as [wy Ey].
    by rewrite Ex, Ey in H.
  - intros [-> | ->].
    + by rewrite wrapCoord_zero.
    + rewrite wrapCoord_zero. by destruct (wrapCoord (x pos) w).
Qed.

(** X9.  A step in one of the four directions leads to a cell at
    Manhattan distance 1; a step in the opposite direction leads back;
    and no direction is its own opposite, the opposite of an opposite
    being the direction itself. *)
Theorem X9_direction_steps (pos : Vector2) (d : Direction) :
  manhattanDistance pos (getNextHeadPosition pos (DIRECTION_VECTORS d)) = 1 ∧
  getNextHeadPosition (getNextHeadPosition pos (DIRECTION_VECTORS d))
                      (DIRECTION_VECTORS (OPPOSITE_DIRECTION d)) = pos ∧
  OPPOSITE_DIRECTION (OPPOSITE_DIRECTION d) = d ∧
  OPPOSITE_DIRECTION d ≠ d.
Proof.
  destruct pos as [px py].
  unfold manhattanDistance, getNextHeadPosition.
  destruct d; simpl; repeat split; try done; try lia; f_equal; lia.
Qed.

(** X10.  [manhattanDistance] is a metric on the grid: symmetric, zero
    exactly between equal positions, and subject to the triangle
    inequality. *)
Theorem X10_manhattan_metric (a b c : Vector2) :
  manhattanDistance a b = manhattanDistance b a ∧
  (manhattanDistance a b = 0 ↔ a = b) ∧
  manhattanDistance a c ≤ manhattanDistance a b + manhattanDistance b c.
Proof.
  destruct a as [ax ay], b as [bx by_], c as [cx cy].
  unfold manhattanDistance. simpl. split; [lia|]. split; [|lia].
  split.
  - intros H. f_equal; lia.
  - intros [= -> ->]. lia.
Qed.

Lemma same_cell (p q : Vector2) :
  (x p =? x q) && (y p =? y q) = true ↔ p = q.
Proof.
  destruct p as [px py], q as [qx qy]. simpl.
  rewrite andb_true_iff, !Z.eqb_eq. split.
  - by intros [-> ->].
  - by intros [= -> ->].
Qed.

Lemma on_segments (pos : Vector2) (body : list SnakeSegment) :
  existsb (λ seg : SnakeSegment, (x seg =? x pos) && (y seg =? y pos)) body
  = true
  ↔ pos ∈ segPos <$> body.
Proof.
  rewrite existsb_exists, list_elem_of_fmap. split.
  - intros (seg & Hin & E). apply same_cell in E.
    exists seg. split; [done|]. by apply list_elem_of_In.
  - intros (seg & -> & Hin). exists seg.
    split; [by apply list_elem_of_In|]. by apply same_cell.
Qed.

(** X11.  [checkSelfCollision] with [skipFirst = k] reports exactly the
    heads that lie on a segment of index [k] or more.  It coincides with
    [isOnSnake] for [k = 0], finds nothing once [k] reaches the length of
    the body, and never finds more when more segments are skipped. *)
Theorem X11_checkSelfCollision_membership (head : Vector2)
    (body : list SnakeSegment) (k : nat) :
  (checkSelfCollision head body k = true ↔ head ∈ segPos <$> drop k body) ∧
  Spawn.isOnSnake head body = checkSelfCollision head body 0 ∧
  ((length body ≤ k)%nat → checkSelfCollision head body k = false) ∧
  (checkSelfCollision head body (S k) = true →
   checkSelfCollision head body k = true).
Proof.
  unfold checkSelfCollision, Spawn.isOnSnake.
  split; [apply on_segments|]. split; [done|]. split.
  - intros Hk. by rewrite drop_ge.
  - rewrite !on_segments. intros (seg & -> & Hin)%list_elem_of_fmap.
    apply list_elem_of_fmap_2.
    apply list_elem_of_lookup in Hin as [i Hi].
    rewrite lookup_drop in Hi.
    apply list_elem_of_lookup. exists (S i).
    rewrite lookup_drop. by replace (k + S i)%nat with (S k + i)%nat by lia.
Qed.


End CollisionFurther.

(** * Further properties of the spawn system *)

Section SpawnFurther.
Import Spawn.

(** X13.  [getEmptyCells] lists every free cell of the grid once: the
    result has no duplicates and at most width times height elements,
    exactly that many when nothing is occupied, and none at all when a
    dimension is not positive.  A cell of the grid is listed exactly when
    [isOnSnake] denies it. *)
Theorem X13_getEmptyCells_distinct (w h : Z) (occupied : list Vector2) :
  NoDup (getEmptyCells w h occupied) ∧
  (length (getEmptyCells w h occupied) ≤ Z.to_nat w * Z.to_nat h)%nat ∧
  length (getEmptyCells w h []) = (Z.to_nat w * Z.to_nat h)%nat ∧
  (w ≤ 0 ∨ h ≤ 0 → getEmptyCells w h occupied = []) ∧
  (∀ (snake : list SnakeSegment) (c : Vector2),
     (0 ≤ x c < w) ∧ (0 ≤ y c < h) →
     (c ∈ getEmptyCells w h (segPos <$> snake) ↔ isOnSnake c snake = false)).
Proof.
  split; [|split; [|split; [|split]]].
  - rewrite getEmptyCells_column_major. apply NoDup_filter.
    apply NoDup_columnMajorGrid.
  - rewrite getEmptyCells_column_major, <- length_columnMajorGrid.
    apply length_filter.
  - pose proof (length_getEmptyCells w h []) as H. simpl in H.
    rewrite <- H; [lia|]. intros c Hc. by apply elem_of_nil in Hc.
  - intros Hd.
    destruct (getEmptyCells w h occupied) as [|c cells] eqn:E; [done|].
    assert (Hc : c ∈ getEmptyCells w h occupied) by (rewrite E; left).
    apply elem_of_getEmptyCells in Hc. lia.
  - intros snake c Hc. rewrite elem_of_getEmptyCells.
    unfold isOnSnake. rewrite <- not_true_iff_false, on_segments. tauto.
Qed.

(** X14.  A food that [spawnFood] returns is stamped with the time of the
    spawn.  A normal food carries no expiry and stays valid for ever; any
    other food expires [specialDuration] after the spawn and, this
    instant not being 0, is valid up to it and invalid after it. *)
Theorem X14_spawned_food_expiry (rng : Rng.SeededRNG)
    (snake : list SnakeSegment) (config : PartialSpawnConfig)
    (currentScore now : Z) (f : Food) (rng' : Rng.SeededRNG) :
  spawnFood rng snake config currentScore now = Some (Some f, rng') →
  spawnTime f = now ∧
  (type f = normal →
   expiresAt f = None ∧ ∀ t, isFoodValid f t = true) ∧
  (type f ≠ normal →
   expiresAt f = Some (now + specialDuration (mergeConfig config)) ∧
   (now + specialDuration (mergeConfig config) ≠ 0 →
    ∀ t, isFoodValid f t = true
         ↔ t ≤ now + specialDuration (mergeConfig config))).
Proof.
  intros Hspawn.
  pose proof (spawnFood_spec rng snake config currentScore now) as Hs.
  cbv zeta in Hs. destruct Hs as [[_ E]|(pos & _ & _ & E)].
  { rewrite E in Hspawn. by injection Hspawn. }
  rewrite E in Hspawn. injection Hspawn as <- _.
  cbn [spawnTime type expiresAt].
  clear E.
  change (specialDuration (mergeConfig config))
    with (default 8000 (specialDuration' config)).
  set (deadline := now + default 8000 (specialDuration' config)).
  clearbody deadline. split; [done|]. split.
  - intros Hty. rewrite bool_decide_eq_false_2 by (by intros ?).
    split; [done|]. intros t. unfold isFoodValid. by cbn [expiresAt truthy].
  - intros Hty. rewrite bool_decide_eq_true_2 by done.
    split; [done|]. intros Hnz t. unfold isFoodValid, truthy.
    cbn [expiresAt].
    destruct (Z.eqb_spec deadline 0); [done|].
    destruct (Z.gtb_spec t deadline); simpl; split; intros; (done || lia).
Qed.

Lemma X14_spawned_food_expiry_witness :
  spawnTime (mkFood (mkVec 19 8) normal 1000 None) = 1000 ∧
  (type (mkFood (mkVec 19 8) normal 1000 None) = normal →
   expiresAt (mkFood (mkVec 19 8) normal 1000 None) = None ∧
   ∀ t, isFoodValid (mkFood (mkVec 19 8) normal 1000 None) t = true).
Proof.
  pose proof (X14_spawned_food_expiry (Rng.new (Rng.NumSeed 12345))
                [mkSeg (mkVec 5 5) 4 5; mkSeg (mkVec 4 5) 3 5]
                (gridConfig 20 15) 0 1000
                (mkFood (mkVec 19 8) normal 1000 None)
                (Rng.mkRNG 3663143971) ltac:(by vm_compute)) as H.
  split; [apply H|]. apply H.
Defined.

End SpawnFurther.


(** * Further properties of the engine *)

Section EngineFurther.
Import Engine.

Lemma lastPhaseChange_snoc events ev :
  lastPhaseChange (events ++ [ev])
  = match ev with
    | PHASE_CHANGE _ to => Some to
    | _ => lastPhaseChange events
    end.
Proof. unfold lastPhaseChange. rewrite fold_left_app. by destruct ev. Qed.

(** Brings the summary of a state built by assignments into the open. *)
Ltac summarize :=
  unfold summary, positions; simpl; rewrite ?lastPhaseChange_snoc; simpl.

(** [spawnFood] gives the engine a food that fits the snake it was given
    and the score it was given. *)
Lemma respawn_fits (currentScore now : Z) (e : GameEngine) :
  ∃ fd r,
    respawn currentScore now e = Some (upd (set_food fd) (set_rng r e)) ∧
    foodFits (positions e) currentScore fd.
Proof.
  unfold respawn.
  pose proof (spawnFood_spec (rng e) (snake (state e))
                (Spawn.gridConfig (gridWidth (state e))
                                  (gridHeight (state e)))
                currentScore now) as H.
  cbv zeta in H. destruct H as [[_ ->]|(pos & Hin & _ & ->)]; simpl.
  - eexists _, _. split; [done|]. by intros f.
  - eexists _, _. split; [done|]. intros f [= <-]. simpl.
    apply elem_of_getEmptyCells in Hin as [_ Hfree]. split; [done|].
    pose proof (chooseType_bands
                  (Spawn.mergeConfig
                     (Spawn.gridConfig (gridWidth (state e))
                                       (gridHeight (state e))))
                  currentScore
                  (Rng.toUnit (Rng.nextBits (Rng.advance (rng e)))))
      as [Hlow _].
    split.
    + intros Hty. destruct (Z.le_gt_cases currentScore 30); [|lia].
      by destruct Hty; apply Hlow.
    + case_bool_decide as Hty; split; done.
Qed.

Lemma foodFits_none cells sc : foodFits cells sc None.
Proof. by intros f. Qed.

(** A food that fits keeps fitting when the score grows and the snake
    covers fewer cells. *)
Lemma foodFits_weaken cells cells' sc sc' fd :
  foodFits cells sc fd → (∀ c, c ∈ cells' → c ∈ cells) → sc ≤ sc' →
  foodFits cells' sc' fd.
Proof.
  intros H Hsub Hsc f Hf. destruct (H f Hf) as (H1 & H2 & H3).
  split; [|split]; [by intros ?%Hsub | intros ?%H2; lia | done].
Qed.

Lemma summary_turn e :
  summary (storePrevious (processDirectionBuffer e))
  = mkSummary (s_phase (summary e)) (s_mode (summary e))
      (s_score (summary e)) (s_combo (summary e)) (s_grace (summary e))
      (s_cells (summary e)) (s_food (summary e)) (s_told (summary e))
      (upcomingDirection (state e)) (tail (directionBuffer (state e))).
Proof.
  unfold summary at 1. rewrite positions_storePrevious.
  unfold storePrevious, processDirectionBuffer, upcomingDirection, positions.
  destruct (directionBuffer (state e)) as [|d rest] eqn:Hbuf; simpl;
    [by rewrite Hbuf|].
  by case_bool_decide.
Qed.

(** The summary after the first half of a tick. *)
Lemma summary_prelude env e :
  ∃ e1 c fd,
    tickPrelude env e = Some e1 ∧
    summary e1
    = mkSummary (phase (state e)) (mode (state e)) (score (state e)) c
        (gracePeriodTicks (state e)) (positions e) fd
        (lastPhaseChange (emitted e)) (upcomingDirection (state e))
        (tail (directionBuffer (state e))) ∧
    (c = combo (state e) ∨ c = 0) ∧
    (fd = food (state e) ∨ foodFits (positions e) (score (state e)) fd).
Proof.
  unfold tickPrelude.
  assert (Hc : ∃ e0 c, expireCombo (tickNow env) e = e0 ∧
            (c = combo (state e) ∨ c = 0) ∧
            summary e0
            = mkSummary (phase (state e)) (mode (state e)) (score (state e))
                c (gracePeriodTicks (state e)) (positions e)
                (food (state e)) (lastPhaseChange (emitted e))
                (direction (state e)) (directionBuffer (state e))).
  { destruct (expireCombo_shape (tickNow env) e) as [->| ->].
    - eexists _, _. split; [done|]. split; [by left|]. done.
    - eexists _, _. split; [done|]. split; [by right|]. by summarize. }
  destruct Hc as (e0 & c & -> & Hc & Hsum0).
  assert (Hf : ∃ e1 fd, expireFood (tickNow env) (respawnNow env) e0 = Some e1
            ∧ (fd = food (state e) ∨ foodFits (positions e) (score (state e)) fd)
            ∧ summary e1
              = mkSummary (phase (state e)) (mode (state e))
                  (score (state e)) c (gracePeriodTicks (state e))
                  (positions e) fd (lastPhaseChange (emitted e))
                  (direction (state e)) (directionBuffer (state e))).
  { injection Hsum0 as Hph Hm Hsc Hco Hg Hpos Hfd Hto Hd Hb.
    unfold expireFood. rewrite Hfd.
    destruct (food (state e)) as [f|] eqn:Hfood.
    2: { eexists _, _. split; [done|]. split; [by left|].
         unfold summary. by rewrite Hph, Hm, Hsc, Hco, Hg, Hpos, Hfd, Hto,
           Hd, Hb. }
    destruct (Spawn.isFoodValid f (tickNow env)); simpl.
    { eexists _, _. split; [done|]. split; [by left|].
      unfold summary. by rewrite Hph, Hm, Hsc, Hco, Hg, Hpos, Hfd, Hto,
        Hd, Hb. }
    destruct (respawn_fits (score (state e0)) (respawnNow env) e0)
      as (fd & r & -> & Hfit).
    eexists _, fd. split; [done|]. rewrite Hsc, Hpos in Hfit.
    split; [by right|].
    unfold summary, positions in *. simpl.
    by rewrite Hph, Hm, Hsc, Hco, Hg, Hpos, Hto, Hd, Hb. }
  destruct Hf as (e1 & fd & -> & Hfd & Hsum1).
  simpl. eexists _, c, fd. split; [done|]. split; [|done].
  rewrite summary_turn, Hsum1. simpl.
  injection Hsum1 as _ _ _ _ _ _ _ _ Hd Hb.
  unfold upcomingDirection. by rewrite Hb, Hd.
Qed.

Lemma summary_adjust foodType e :
  summary (adjustTickRate foodType e) = summary e.
Proof.
  unfold adjustTickRate, MIN_TICK_RATE. cbv zeta.
  repeat case_bool_decide; simpl;
    repeat match goal with
      | |- context [?a >? ?b] => destruct (Z.gtb_spec a b)
      end; simpl; by summarize.
Qed.

(** The summary after [eatFood]: the combo and the score have grown, and
    the new food fits the snake and the new score. *)
Lemma summary_eat now spawnNow e f :
  food (state e) = Some f →
  ∃ e' co fd,
    eatFood now spawnNow e = Some e' ∧
    summary e'
    = mkSummary (phase (state e)) (mode (state e))
        (score (state e) + Spawn.getFoodScore (type f) co) co
        (gracePeriodTicks (state e)) (positions e) fd
        (lastPhaseChange (emitted e)) (direction (state e))
        (directionBuffer (state e)) ∧
    (co = combo (state e) + 1 ∨ co = 1) ∧
    foodFits (positions e)
             (score (state e) + Spawn.getFoodScore (type f) co) fd.
Proof.
  intros Hfood. unfold eatFood. rewrite Hfood. cbv zeta.
  destruct (now - lastEatTime (state e) <? comboWindow (state e)); simpl;
    match goal with
    | |- context [if ?c then _ else _] => destruct c
    end;
    match goal with
    | |- context [respawn ?a ?b ?c] =>
        destruct (respawn_fits a b c) as (fd & r & -> & Hfit)
    end;
    match goal with
    | |- context [adjustTickRate ?ft ?e1] =>
        pose proof (summary_adjust ft e1) as Ha;
        unfold summary, positions in Ha, Hfit; simpl in Ha, Hfit;
        injection Ha as Hph Hm Hsc Hco Hg Hpos Hfd Hto Hd Hb
    end;
    rewrite Hsc, Hpos in Hfit;
    (eexists _, _, fd; split; [done|]);
    (split; [summarize; by rewrite Hph, Hm, Hsc, Hco, Hg, Hpos, Hto, Hd, Hb|]);
    (split; [(by left) || (by right) | done]).
Qed.

Lemma fmap_removelast {A B : Type} (g : A → B) (l : list A) :
  g <$> removelast l = removelast (g <$> l).
Proof.
  induction l as [|a [|b l] IH]; [done..|].
  change (removelast (a :: b :: l)) with (a :: removelast (b :: l)).
  rewrite fmap_cons, IH. done.
Qed.

Lemma elem_of_removelast {A : Type} (x : A) (l : list A) :
  x ∈ removelast l → x ∈ l.
Proof.
  induction l as [|a [|b l] IH]; [done| |].
  - simpl. by intros ?%elem_of_nil.
  - change (removelast (a :: b :: l)) with (a :: removelast (b :: l)).
    rewrite !(elem_of_cons _ x a). intros [->|H]; [by left|].
    right. by apply IH.
Qed.

Lemma length_removelast_cons {A : Type} (a : A) (l : list A) :
  length (removelast (a :: l)) = length l.
Proof.
  revert a. induction l as [|b l IH]; intros a; [done|].
  change (removelast (a :: b :: l)) with (a :: removelast (b :: l)).
  rewrite length_cons, (IH b). done.
Qed.

(** The summary after a move: either the head has reached the food, which
    is eaten, or the tail follows. *)
Lemma summary_move env head newHead e :
  ∃ e' sc co fd cells,
    moveSnake env head newHead e = Some e' ∧
    summary e'
    = mkSummary (phase (state e)) (mode (state e)) sc co
        (if gracePeriodTicks (state e) >? 0
         then gracePeriodTicks (state e) - 1
         else gracePeriodTicks (state e))
        cells fd (lastPhaseChange (emitted e)) (direction (state e))
        (directionBuffer (state e)) ∧
    ((∃ f, food (state e) = Some f ∧ foodPos f = newHead ∧
           cells = newHead :: positions e ∧
           (co = combo (state e) + 1 ∨ co = 1) ∧
           sc = score (state e) + Spawn.getFoodScore (type f) co ∧
           foodFits cells sc fd)
     ∨ (cells = removelast (newHead :: positions e) ∧
        co = combo (state e) ∧ sc = score (state e) ∧
        fd = food (state e) ∧
        ∀ f, food (state e) = Some f → foodPos f ≠ newHead)).
Proof.
  unfold moveSnake. cbv zeta. simpl.
  set (grown := upd (set_snake _) e).
  assert (Hpop : ∃ e2,
    Some (popTail grown) = Some e2 ∧
    summary e2
    = mkSummary (phase (state e)) (mode (state e)) (score (state e))
        (combo (state e)) (gracePeriodTicks (state e))
        (removelast (newHead :: positions e)) (food (state e))
        (lastPhaseChange (emitted e)) (direction (state e))
        (directionBuffer (state e))).
  { eexists. split; [done|]. unfold popTail, grown, summary, positions.
    f_equal.
    transitivity (segPos <$> removelast
      (mkSeg (mkVec (x newHead) (y newHead)) (x head) (y head)
         :: snake (state e))); [done|].
    rewrite fmap_removelast. by destruct newHead. }
  assert (Hstep : ∃ e2 sc co fd cells,
    (match food (state e) with
     | Some f =>
         if (x newHead =? x f) && (y newHead =? y f)
         then eatFood (eatNow env) (eatSpawnNow env) grown
         else Some (popTail grown)
     | None => Some (popTail grown)
     end) = Some e2 ∧
    summary e2
    = mkSummary (phase (state e)) (mode (state e)) sc co
        (gracePeriodTicks (state e)) cells fd
        (lastPhaseChange (emitted e)) (direction (state e))
        (directionBuffer (state e)) ∧
    ((∃ f, food (state e) = Some f ∧ foodPos f = newHead ∧
           cells = newHead :: positions e ∧
           (co = combo (state e) + 1 ∨ co = 1) ∧
           sc = score (state e) + Spawn.getFoodScore (type f) co ∧
           foodFits cells sc fd)
     ∨ (cells = removelast (newHead :: positions e) ∧
        co = combo (state e) ∧ sc = score (state e) ∧
        fd = food (state e) ∧
        ∀ f, food (state e) = Some f → foodPos f ≠ newHead))).
  { destruct Hpop as (e2 & Hpop & Hsum).
    destruct (food (state e)) as [f|] eqn:Hfood.
    2: { eexists e2, _, _, _, _. split; [done|]. split; [done|]. right.
         by repeat split. }
    destruct ((x newHead =? x f) && (y newHead =? y f)) eqn:Hat.
    2: { eexists e2, _, _, _, _. split; [done|]. split; [done|]. right.
         repeat split; try done. intros f' [= <-] E.
         apply not_true_iff_false in Hat. apply Hat.
         apply same_cell. by rewrite E. }
    apply same_cell in Hat.
    destruct (summary_eat (eatNow env) (eatSpawnNow env) grown f Hfood)
      as (e3 & co & fd & -> & Hsum3 & Hco & Hfit).
    eexists e3, _, co, fd, _. split; [done|].
    unfold grown, positions in Hsum3, Hfit, Hco.
    simpl in Hsum3, Hfit, Hco.
    split; [exact Hsum3|]. left. exists f.
    unfold positions. subst newHead. by destruct (foodPos f). }
  destruct Hstep as (e2 & sc & co & fd & cells & -> & Hsum & Hcases).
  simpl. eexists _, sc, co, fd, cells. split; [done|]. split; [|done].
  injection Hsum as Hph Hm Hsc Hco Hg Hpos Hfd Hto Hd Hb.
  destruct (Z.gtb_spec (gracePeriodTicks (state e2)) 0);
    rewrite <- Hg;
    destruct (Z.gtb_spec (gracePeriodTicks (state e2)) 0); try lia;
    summarize; unfold positions in Hpos;
    by rewrite Hph, Hm, Hsc, Hco, Hpos, Hfd, Hto, Hd, Hb.
Qed.

Lemma summary_gameOver reason e :
  summary (gameOver reason e)
  = mkSummary gameover (mode (state e)) (score (state e)) (combo (state e))
      (gracePeriodTicks (state e)) (positions e) (food (state e))
      (Some gameover) (direction (state e)) (directionBuffer (state e)).
Proof. unfold gameOver, saveHighScore. by summarize. Qed.

(** What one [tick] of a running game does to the summary: the collision
    is absorbed, or the game is over, or the snake has moved. *)
Lemma summary_tick deltaMs env e e' :
  phase (state e) = playing → tick deltaMs env e = Some e' →
  ∃ c fd,
    (c = combo (state e) ∨ c = 0) ∧
    (fd = food (state e) ∨ foodFits (positions e) (score (state e)) fd) ∧
    positions e ≠ [] ∧
    ((summary e'
      = mkSummary playing (mode (state e)) (score (state e)) c
          (gracePeriodTicks (state e) - 1) (positions e) fd
          (lastPhaseChange (emitted e)) (upcomingDirection (state e))
          (tail (directionBuffer (state e))) ∧
      (0 < gracePeriodTicks (state e) ∨ mode (state e) = zen))
     ∨ (summary e'
        = mkSummary gameover (mode (state e)) (score (state e)) c
            (gracePeriodTicks (state e)) (positions e) fd
            (Some gameover) (upcomingDirection (state e))
            (tail (directionBuffer (state e))) ∧
        gracePeriodTicks (state e) ≤ 0)
     ∨ ∃ newHead sc co fd' cells,
         summary e'
         = mkSummary playing (mode (state e)) sc co
             (if gracePeriodTicks (state e) >? 0
              then gracePeriodTicks (state e) - 1
              else gracePeriodTicks (state e))
             cells fd' (lastPhaseChange (emitted e))
             (upcomingDirection (state e))
             (tail (directionBuffer (state e))) ∧
         ((∃ f, fd = Some f ∧ foodPos f = newHead ∧
                cells = newHead :: positions e ∧
                (co = c + 1 ∨ co = 1) ∧
                sc = score (state e) + Spawn.getFoodScore (type f) co ∧
                foodFits cells sc fd')
          ∨ (cells = removelast (newHead :: positions e) ∧
             co = c ∧ sc = score (state e) ∧ fd' = fd ∧
             ∀ f, fd = Some f → foodPos f ≠ newHead))).
Proof.
  intros Hph Htick.
  destruct (tick_playing deltaMs env e Hph) as (e1 & Hpre & Heq).
  rewrite Heq in Htick. clear Heq.
  destruct (summary_prelude env e) as (e1' & c & fd & Hpre' & Hsum & Hc & Hfd).
  rewrite Hpre in Hpre'. injection Hpre' as <-.
  rewrite Hph in Hsum.
  injection Hsum as Hph1 Hm Hsc Hco Hg Hpos Hfood Hto Hd Hb.
  exists c, fd. split; [done|]. split; [done|].
  destruct (snake (state e1) !! 0%nat) as [head|] eqn:Hhead; [|done].
  split.
  { intros E. rewrite <- Hpos in E. unfold positions in E.
    apply fmap_nil_inv in E. by rewrite E in Hhead. }
  simpl in Htick.
  destruct (computeNewHead e1) as [newHead|]; [|done]. simpl in Htick.
  destruct (wallHit e1 newHead || selfHit e1 newHead).
  - injection Htick as <-.
    destruct ((gracePeriodTicks (state e1) >? 0)
              || (bool_decide (mode (state e1) = zen) && selfHit e1 newHead))
      eqn:Hab.
    + rewrite (handleCollision_absorb _ _ _ Hab). left. split.
      * summarize. unfold positions in Hpos.
        by rewrite Hph1, Hm, Hsc, Hco, Hg, Hpos, Hfood, Hto, Hd, Hb.
      * apply orb_true_iff in Hab as [H|H].
        -- left. rewrite <- Hg. by apply Z.gtb_lt in H.
        -- right. apply andb_true_iff in H as [H _].
           apply bool_decide_eq_true in H. by rewrite <- Hm.
    + rewrite (handleCollision_fatal _ _ _ Hab). right. left. split.
      * rewrite summary_gameOver.
        by rewrite Hm, Hsc, Hco, Hg, Hpos, Hfood, Hd, Hb.
      * apply orb_false_iff in Hab as [H _]. rewrite <- Hg.
        destruct (Z.gtb_spec (gracePeriodTicks (state e1)) 0); [done|lia].
  - right. right.
    destruct (summary_move env head newHead e1)
      as (e2 & sc & co & fd' & cells & Hmove & Hsum2 & Hcases).
    rewrite Hmove in Htick. injection Htick as <-.
    exists newHead, sc, co, fd', cells.
    rewrite ?Hph1, ?Hm, ?Hg, ?Hto, ?Hd, ?Hb in Hsum2.
    rewrite ?Hsc, ?Hco, ?Hpos, ?Hfood in Hcases.
    done.
Qed.

Lemma quarterTurns_upcoming current pending :
  quarterTurns current pending →
  quarterTurns
    (match pending with
     | d :: _ =>
         if bool_decide (OPPOSITE_DIRECTION d ≠ current) then d else current
     | [] => current
     end) (tail pending).
Proof.
  destruct pending as [|d rest]; [done|]. simpl. intros (_ & Hopp & Hrest).
  by rewrite bool_decide_eq_true_2.
Qed.

Lemma quarterTurns_snoc current pending dir :
  quarterTurns current pending →
  dir ≠ default current (last pending) →
  OPPOSITE_DIRECTION dir ≠ default current (last pending) →
  quarterTurns current (pending ++ [dir]).
Proof.
  revert current. induction pending as [|d rest IH]; intros current.
  - simpl. by intros _ ? ?.
  - intros (Hd & Hopp & Hrest) H1 H2. simpl. split; [done|]. split; [done|].
    apply IH; [done| |].
    + destruct rest as [|d' rest]; [exact H1|].
      rewrite last_cons_cons in H1.
      by destruct (proj2 (last_is_Some (d' :: rest)) ltac:(done)) as [? E];
        rewrite E in *.
    + destruct rest as [|d' rest]; [exact H2|].
      rewrite last_cons_cons in H2.
      by destruct (proj2 (last_is_Some (d' :: rest)) ltac:(done)) as [? E];
        rewrite E in *.
Qed.

Lemma getFoodScore_five foodType combo :
  0 ≤ combo →
  0 < Spawn.getFoodScore foodType combo ∧
  Spawn.getFoodScore foodType combo mod 5 = 0.
Proof.
  intros H. unfold Spawn.getFoodScore, Spawn.baseScores. cbv zeta.
  destruct foodType; split; try lia.
  - replace (10 + combo * 5) with ((2 + combo) * 5) by lia.
    apply Z_mod_mult.
  - replace (50 + combo * 5) with ((10 + combo) * 5) by lia.
    apply Z_mod_mult.
  - replace (30 + combo * 5) with ((6 + combo) * 5) by lia.
    apply Z_mod_mult.
  - replace (20 + combo * 5) with ((4 + combo) * 5) by lia.
    apply Z_mod_mult.
Qed.

Lemma tick_wellFormed deltaMs env e e' :
  wellFormed (summary e) → tick deltaMs env e = Some e' →
  wellFormed (summary e').
Proof.
  intros Hwf Htick.
  destruct (decide (phase (state e) = playing)) as [Hph|Hph].
  2: { rewrite tick_not_playing in Htick by done. by injection Htick as <-. }
  destruct Hwf
    as [Hsnake Hfood [Hsc0 Hsc5] Hco [Hg3 Hg0] Htold Hturns Halive].
  unfold summary in *. simpl in *.
  assert (Hlen : (3 ≤ length (positions e))%nat ∧
                 ∀ e1, summary e1 = summary e1).
  { split; [|done].
    destruct (summary_tick deltaMs env e e' Hph Htick)
      as (_ & _ & _ & _ & Hne & _).
    by destruct Hsnake. }
  destruct Hlen as [Hlen _].
  assert (Hup : quarterTurns (upcomingDirection (state e))
                             (tail (directionBuffer (state e)))).
  { by apply quarterTurns_upcoming. }
  destruct (summary_tick deltaMs env e e' Hph Htick)
    as (c & fd & Hc & Hfd & Hne & Hcases).
  assert (Hc0 : 0 ≤ c) by (destruct Hc; lia).
  assert (Hfd' : foodFits (positions e) (score (state e)) fd).
  { by destruct Hfd as [->|?]. }
  rewrite Hph in Htold.
  destruct Hcases as [[Hsum Hab]|[[Hsum Hab]|Hmoved]].
  - unfold summary in Hsum. rewrite Hsum.
    split; simpl; [by right|done|done|done| |done|done|done].
    split; [lia|]. intros Hz. destruct Hab; [lia|done].
  - unfold summary in Hsum. rewrite Hsum.
    split; simpl; [by right|done..].
  - destruct Hmoved as (newHead & sc & co & fd' & cells & Hsum & Hmoved).
    unfold summary in Hsum. rewrite Hsum.
    assert (Hgrace :
      (if gracePeriodTicks (state e) >? 0
       then gracePeriodTicks (state e) - 1
       else gracePeriodTicks (state e)) ≤ GRACE_PERIOD_TICKS ∧
      (mode (state e) ≠ zen →
       0 ≤ (if gracePeriodTicks (state e) >? 0
            then gracePeriodTicks (state e) - 1
            else gracePeriodTicks (state e)))).
    { destruct (Z.gtb_spec (gracePeriodTicks (state e)) 0).
      - split; [lia|]. intros _. lia.
      - split; [lia|]. done. }
    destruct Hmoved as [(f & -> & Hat & -> & Hco' & -> & Hfit)
                       |(-> & -> & -> & -> & Hoff)].
    + assert (Hco0 : 0 ≤ co) by (destruct Hco'; lia).
      destruct (getFoodScore_five (type f) co Hco0) as [Hpos Hfive].
      split; simpl; [|done| |done..].
      * right. lia.
      * split; [lia|].
        rewrite Z.add_mod, Hsc5, Hfive by done. done.
    + split;
        cbn [s_phase s_mode s_score s_combo s_grace s_cells s_food s_told
             s_direction s_buffer]; [| |done|done|done|done|done|].
      * right. by rewrite length_removelast_cons.
      * intros f Hf. destruct (Hfd' f Hf) as (Hnot & Htype & Hexp).
        split; [|done]. intros Hin%elem_of_removelast.
        apply elem_of_cons in Hin as [Hin|Hin]; [|done].
        by apply (Hoff f Hf).
      * intros E. apply (f_equal length) in E.
        rewrite length_removelast_cons in E. simpl in E. lia.
Qed.

Ltac fields :=
  cbn [s_phase s_mode s_score s_combo s_grace s_cells s_food s_told
       s_direction s_buffer].

Lemma construct_wellFormed env stored :
  wellFormed (summary (construct env stored)).
Proof.
  split; simpl; try done; by left.
Qed.

Lemma summary_startGame mode env e :
  ∃ e' fd,
    startGame mode env e = Some e' ∧
    summary e'
    = mkSummary playing mode 0 0 GRACE_PERIOD_TICKS
        [ mkVec (gridWidth (state e) / 2) (gridHeight (state e) / 2);
          mkVec (gridWidth (state e) / 2 - 1) (gridHeight (state e) / 2);
          mkVec (gridWidth (state e) / 2 - 2) (gridHeight (state e) / 2) ]
        fd (Some playing) RIGHT [] ∧
    foodFits
      [ mkVec (gridWidth (state e) / 2) (gridHeight (state e) / 2);
        mkVec (gridWidth (state e) / 2 - 1) (gridHeight (state e) / 2);
        mkVec (gridWidth (state e) / 2 - 2) (gridHeight (state e) / 2) ]
      0 fd.
Proof.
  unfold startGame. cbv zeta.
  match goal with
  | |- context [respawn ?a ?b ?c] =>
      destruct (respawn_fits a b c) as (fd & r & -> & Hfit)
  end.
  eexists _, fd. split; [done|].
  unfold positions in Hfit. simpl in Hfit.
  split; [|by case_bool_decide].
  summarize. by case_bool_decide.
Qed.

Lemma startGame_wellFormed mode env e e' :
  startGame mode env e = Some e' → wellFormed (summary e').
Proof.
  intros Hstart.
  destruct (summary_startGame mode env e) as (e2 & fd & Heq & Hsum & Hfit).
  rewrite Hstart in Heq. injection Heq as <-. rewrite Hsum.
  split; fields; try done. right. simpl. lia.
Qed.

Lemma goToMenu_wellFormed e :
  wellFormed (summary e) → wellFormed (summary (goToMenu e)).
Proof.
  intros [? ? ? ? ? ? ? ?]. unfold goToMenu. cbv zeta.
  split; summarize; try done. by right.
Qed.

Lemma pause_wellFormed e :
  wellFormed (summary e) → wellFormed (summary (pause e)).
Proof.
  intros Hwf. unfold pause. case_bool_decide as Hph; [|done].
  destruct Hwf as [? ? ? ? ? ? ? Halive]. cbv zeta.
  split; summarize; try done.
  intros E. simpl in Halive. rewrite Hph in Halive.
  by destruct (Halive E).
Qed.

Lemma resume_wellFormed e :
  wellFormed (summary e) → wellFormed (summary (resume e)).
Proof.
  intros Hwf. unfold resume. case_bool_decide as Hph; [|done].
  destruct Hwf as [? ? ? ? ? ? ? Halive]. cbv zeta.
  split; summarize; try done.
  intros E. simpl in Halive. rewrite Hph in Halive.
  by destruct (Halive E).
Qed.

Lemma setDirection_wellFormed dir e :
  wellFormed (summary e) → wellFormed (summary (setDirection dir e)).
Proof.
  intros Hwf. unfold setDirection. cbv zeta.
  repeat (case_bool_decide; [done|]).
  case_bool_decide; [|done].
  destruct Hwf as [? ? ? ? ? ? Hturns ?].
  split; summarize; try done.
  simpl in Hturns.
  apply quarterTurns_snoc; [done| |].
  - intros E. unfold refDir in *.
    by destruct (last (directionBuffer (state e))).
  - intros E. unfold refDir in *.
    by destruct (last (directionBuffer (state e))).
Qed.

Lemma step_wellFormed op e e' :
  wellFormed (summary e) → step op e = Some e' → wellFormed (summary e').
Proof.
  intros Hwf Hstep. destruct op.
  - injection Hstep as <-. done.
  - rewrite step_startGame in Hstep. by eapply startGame_wellFormed.
  - injection Hstep as <-. by apply goToMenu_wellFormed.
  - injection Hstep as <-. by apply pause_wellFormed.
  - injection Hstep as <-. unfold togglePause in *.
    by apply resume_wellFormed.
  - injection Hstep as <-. unfold togglePause.
    case_bool_decide; [by apply pause_wellFormed|].
    case_bool_decide; [by apply resume_wellFormed|done].
  - injection Hstep as <-. by apply setDirection_wellFormed.
  - rewrite step_tick in Hstep. by eapply tick_wellFormed.
Qed.

Lemma reachable_wellFormed e : reachable e → wellFormed (summary e).
Proof.
  induction 1 as [env stored|op e e' _ IH Hstep].
  - apply construct_wellFormed.
  - by eapply step_wellFormed.
Qed.

Lemma lastPhaseChange_elem events p q :
  PHASE_CHANGE p q ∈ events → is_Some (lastPhaseChange events).
Proof.
  induction events as [|ev events IH] using rev_ind.
  - by intros ?%elem_of_nil.
  - intros Hin. rewrite lastPhaseChange_snoc.
    apply elem_of_app in Hin as [Hin|Hin%list_elem_of_singleton].
    + destruct ev; try by apply IH. done.
    + by subst ev.
Qed.

Lemma lastPhaseChange_Some events to :
  lastPhaseChange events = Some to → ∃ p, PHASE_CHANGE p to ∈ events.
Proof.
  induction events as [|ev events IH] using rev_ind; [done|].
  rewrite lastPhaseChange_snoc.
  destruct ev;
    try (intros H; destruct (IH H) as [p0 ?]; exists p0;
         apply elem_of_app; by left).
  intros [= ->]. eexists. apply elem_of_app. right.
  by apply list_elem_of_singleton.
Qed.

(** *** What every reachable state satisfies *)

(** X15.  The snake of an engine is empty only before its first game, in
    the boot phase or in the menu; from the first [startGame] on it has
    at least three segments, whatever the calls. *)
Theorem X15_snake_length (e : GameEngine) :
  reachable e →
  (snake (state e) = [] → phase (state e) = boot ∨ phase (state e) = menu) ∧
  (snake (state e) ≠ [] → (3 ≤ length (snake (state e)))%nat) ∧
  (phase (state e) = playing ∨ phase (state e) = paused
   ∨ phase (state e) = gameover →
   (3 ≤ length (snake (state e)))%nat).
Proof.
  intros He. destruct (reachable_wellFormed e He) as [Hsnake _ _ _ _ _ _ Ha].
  unfold summary, positions in Hsnake, Ha. simpl in Hsnake, Ha.
  rewrite length_fmap in Hsnake.
  assert (Hnil : segPos <$> snake (state e) = [] ↔ snake (state e) = []).
  { split; [apply fmap_nil_inv|by intros ->]. }
  rewrite Hnil in Hsnake, Ha.
  split; [done|]. split.
  - intros Hne. by destruct Hsnake.
  - intros Hph. destruct Hsnake as [E|?]; [|done].
    destruct (Ha E) as [Hb|Hb]; rewrite Hb in Hph;
      by destruct Hph as [?|[?|?]].
Qed.

Lemma X15_snake_length_witness :
  let e := Scenario.after Scenario.zenLoop in
  (snake (state e) = [] → phase (state e) = boot ∨ phase (state e) = menu) ∧
  (snake (state e) ≠ [] → (3 ≤ length (snake (state e)))%nat) ∧
  (phase (state e) = playing ∨ phase (state e) = paused
   ∨ phase (state e) = gameover →
   (3 ≤ length (snake (state e)))%nat).
Proof.
  refine (X15_snake_length (Scenario.after Scenario.zenLoop) _).
  eapply after_reachable. vm_compute. reflexivity.
Defined.

(** X16.  The food of a reachable state never lies under the snake:
    [isOnSnake] denies its cell.  It is of a special type only when the
    score is above 30, and it carries an expiry exactly when it is not
    normal. *)
Theorem X16_food_fits_the_game (e : GameEngine) (f : Food) :
  reachable e → food (state e) = Some f →
  Spawn.isOnSnake (foodPos f) (snake (state e)) = false ∧
  (type f ≠ normal → 30 < score (state e)) ∧
  (expiresAt f = None ↔ type f = normal).
Proof.
  intros He Hf. destruct (reachable_wellFormed e He) as [_ Hfood _ _ _ _ _ _].
  destruct (Hfood f Hf) as (Hoff & Htype & Hexp).
  split; [|done].
  unfold Spawn.isOnSnake. by rewrite <- not_true_iff_false, on_segments.
Qed.

Lemma X16_food_fits_the_game_witness :
  let e := Scenario.after Scenario.fed in
  let f := mkFood (mkVec 3 3) normal 300 None in
  Spawn.isOnSnake (foodPos f) (snake (state e)) = false ∧
  (type f ≠ normal → 30 < score (state e)) ∧
  (expiresAt f = None ↔ type f = normal).
Proof.
  refine (X16_food_fits_the_game (Scenario.after Scenario.fed)
            (mkFood (mkVec 3 3) normal 300 None) _ _).
  - eapply after_reachable. vm_compute. reflexivity.
  - vm_compute. reflexivity.
Defined.

(** X17.  In every reachable state the score is a non-negative multiple
    of 5 and the combo is not negative. *)
Theorem X17_score_multiple_of_five (e : GameEngine) :
  reachable e →
  0 ≤ score (state e) ∧ score (state e) mod 5 = 0 ∧ 0 ≤ combo (state e).
Proof.
  intros He.
  by destruct (reachable_wellFormed e He) as [_ _ [? ?] ? _ _ _ _].
Qed.

Lemma X17_score_multiple_of_five_witness :
  let e := Scenario.after Scenario.fed in
  0 ≤ score (state e) ∧ score (state e) mod 5 = 0 ∧ 0 ≤ combo (state e).
Proof.
  refine (X17_score_multiple_of_five (Scenario.after Scenario.fed) _).
  eapply after_reachable. vm_compute. reflexivity.
Defined.

(** X18.  The grace counter of a reachable state is never above
    [GRACE_PERIOD_TICKS], and outside the zen mode it is never
    negative. *)
Theorem X18_grace_counter_bounds (e : GameEngine) :
  reachable e →
  gracePeriodTicks (state e) ≤ GRACE_PERIOD_TICKS ∧
  (mode (state e) ≠ zen → 0 ≤ gracePeriodTicks (state e)).
Proof.
  intros He.
  by destruct (reachable_wellFormed e He) as [_ _ _ _ [? ?] _ _ _].
Qed.

Lemma X18_grace_counter_bounds_witness :
  let e := Scenario.after Scenario.narrow in
  gracePeriodTicks (state e) ≤ GRACE_PERIOD_TICKS ∧
  (mode (state e) ≠ zen → 0 ≤ gracePeriodTicks (state e)).
Proof.
  refine (X18_grace_counter_bounds (Scenario.after Scenario.narrow) _).
  eapply after_reachable. vm_compute. reflexivity.
Defined.

(** X19.  The listeners always know the phase: the [to] of the last
    [PHASE_CHANGE] event that a reachable engine has emitted is its
    phase, and an engine that has emitted none is still in the boot
    phase.  The boot phase is never entered again: an engine is in it
    exactly when it has emitted no [PHASE_CHANGE] at all. *)
Theorem X19_listeners_know_the_phase (e : GameEngine) :
  reachable e →
  match lastPhaseChange (emitted e) with
  | Some to => phase (state e) = to
  | None => phase (state e) = boot
  end ∧
  (phase (state e) = boot ↔ ∀ p q, PHASE_CHANGE p q ∉ emitted e).
Proof.
  intros He.
  destruct (reachable_wellFormed e He) as [_ _ _ _ _ Htold _ _].
  simpl in Htold. split.
  { by destruct (lastPhaseChange (emitted e)) as [to|]; [destruct Htold|]. }
  split.
  - intros Hb p q Hin.
    destruct (lastPhaseChange_elem (emitted e) p q Hin) as [to Hto].
    rewrite Hto in Htold. destruct Htold as [<- Hnot]. done.
  - intros Hnone.
    destruct (lastPhaseChange (emitted e)) as [to|] eqn:Hto; [|done].
    destruct (lastPhaseChange_Some (emitted e) to Hto) as [p Hin].
    by destruct (Hnone p to).
Qed.

Lemma X19_listeners_know_the_phase_witness :
  let e := Scenario.after Scenario.narrow in
  match lastPhaseChange (emitted e) with
  | Some to => phase (state e) = to
  | None => phase (state e) = boot
  end ∧
  (phase (state e) = boot ↔ ∀ p q, PHASE_CHANGE p q ∉ emitted e).
Proof.
  refine (X19_listeners_know_the_phase (Scenario.after Scenario.narrow) _).
  eapply after_reachable. vm_compute. reflexivity.
Defined.

(** *** What one tick does *)

(** X20.  The directions that wait in the buffer of a reachable state
    are quarter turns, each with respect to the one before it and the
    first with respect to the current direction.  So the reversal test
    of [tick] never rejects one: a tick of a running game makes the
    oldest pending direction the current one, and the snake never
    reverses. *)
Theorem X20_turns_are_quarter_turns (e : GameEngine) (deltaMs : Z)
    (env : TickEnv) (e' : GameEngine) :
  reachable e → phase (state e) = playing → tick deltaMs env e = Some e' →
  quarterTurns (direction (state e)) (directionBuffer (state e)) ∧
  direction (state e')
  = default (direction (state e)) (head (directionBuffer (state e))) ∧
  directionBuffer (state e') = tail (directionBuffer (state e)) ∧
  direction (state e') ≠ OPPOSITE_DIRECTION (direction (state e)).
Proof.
  intros He Hph Htick.
  destruct (reachable_wellFormed e He) as [_ _ _ _ _ _ Hturns _].
  simpl in Hturns.
  destruct (tick_frame deltaMs env e e' Hph Htick) as (Hbuf & Hdir & _).
  split; [done|]. rewrite Hdir, Hbuf. unfold upcomingDirection.
  destruct (directionBuffer (state e)) as [|d rest]; simpl.
  - split; [done|]. split; [done|]. by destruct (direction (state e)).
  - destruct Hturns as (Hne & Hopp & _).
    rewrite bool_decide_eq_true_2 by done.
    split; [done|]. split; [done|].
    intros ->. apply Hopp. by destruct (direction (state e)).
Qed.

Lemma X20_turns_are_quarter_turns_witness :
  let e := Scenario.after Scenario.twoTurns in
  ∃ e', step (OpTick 100 (mkTickEnv 100 100 100 100)) e = Some e' ∧
    quarterTurns (direction (state e)) (directionBuffer (state e)) ∧
    direction (state e')
    = default (direction (state e)) (head (directionBuffer (state e))) ∧
    directionBuffer (state e') = tail (directionBuffer (state e)) ∧
    direction (state e') ≠ OPPOSITE_DIRECTION (direction (state e)).
Proof.
  eexists. split; [vm_compute; reflexivity|].
  refine (X20_turns_are_quarter_turns (Scenario.after Scenario.twoTurns)
            100 (mkTickEnv 100 100 100 100) _ _ _ _).
  - eapply after_reachable. vm_compute. reflexivity.
  - vm_compute. reflexivity.
  - vm_compute. reflexivity.
Defined.

(** X21.  A tick of a reachable state either leaves the score and the
    length of the snake as they are, or the snake has eaten: the game is
    still running, the snake is one segment longer, the combo is at
    least 1 and the score has grown by the value [getFoodScore] gives
    the food at the new combo, which is at least 15. *)
Theorem X21_snake_grows_when_it_scores (e : GameEngine) (deltaMs : Z)
    (env : TickEnv) (e' : GameEngine) :
  reachable e → tick deltaMs env e = Some e' →
  (score (state e') = score (state e) ∧
   length (snake (state e')) = length (snake (state e)))
  ∨ (phase (state e') = playing ∧
     length (snake (state e')) = S (length (snake (state e))) ∧
     1 ≤ combo (state e') ∧
     (∃ foodType,
        score (state e')
        = score (state e)
          + Spawn.getFoodScore foodType (combo (state e'))) ∧
     score (state e) + 15 ≤ score (state e')).
Proof.
  intros He Htick.
  destruct (decide (phase (state e) = playing)) as [Hph|Hph].
  2: { rewrite tick_not_playing in Htick by done. injection Htick as <-.
       by left. }
  destruct (reachable_wellFormed e He) as [_ _ _ Hco _ _ _ _].
  simpl in Hco.
  destruct (summary_tick deltaMs env e e' Hph Htick)
    as (c & fd & Hc & _ & _ & Hcases).
  assert (Hc0 : 0 ≤ c) by (destruct Hc; lia).
  assert (Hlen : ∀ e0, length (positions e0) = length (snake (state e0))).
  { intros e0. unfold positions. by rewrite length_fmap. }
  destruct Hcases as [[Hsum _]|[[Hsum _]|Hmoved]].
  - injection Hsum as _ _ Hsc _ _ Hpos _ _ _ _. left.
    by rewrite <- !Hlen, Hpos, Hsc.
  - injection Hsum as _ _ Hsc _ _ Hpos _ _ _ _. left.
    by rewrite <- !Hlen, Hpos, Hsc.
  - destruct Hmoved as (newHead & sc & co & fd' & cells & Hsum & Hmoved).
    injection Hsum as Hph' _ Hsc Hco' _ Hpos _ _ _ _.
    destruct Hmoved as [(f & _ & _ & -> & Hco1 & -> & _)
                       |(-> & _ & -> & _ & _)].
    + right. rewrite <- !Hlen, Hpos, Hsc, Hco'.
      assert (1 ≤ co) by (destruct Hco1; lia).
      split; [done|]. split; [done|]. split; [done|].
      split; [by exists (type f)|].
      unfold Spawn.getFoodScore, Spawn.baseScores. cbv zeta.
      destruct (type f); lia.
    + left. rewrite <- !Hlen, Hpos, Hsc.
      by rewrite length_removelast_cons.
Qed.

Lemma X21_snake_grows_when_it_scores_witness :
  let e := Scenario.after Scenario.meal in
  ∃ e', step (OpTick 100 (mkTickEnv 300 300 300 300)) e = Some e' ∧
    ((score (state e') = score (state e) ∧
      length (snake (state e')) = length (snake (state e)))
     ∨ (phase (state e') = playing ∧
        length (snake (state e')) = S (length (snake (state e))) ∧
        1 ≤ combo (state e') ∧
        (∃ foodType,
           score (state e')
           = score (state e)
             + Spawn.getFoodScore foodType (combo (state e'))) ∧
        score (state e) + 15 ≤ score (state e'))).
Proof.
  eexists. split; [vm_compute; reflexivity|].
  refine (X21_snake_grows_when_it_scores (Scenario.after Scenario.meal)
            100 (mkTickEnv 300 300 300 300) _ _ _).
  - eapply after_reachable. vm_compute. reflexivity.
  - vm_compute. reflexivity.
Defined.

(** *** Phases and stored high scores *)

(** What a tick does to the phase and the storage: nothing, unless the
    game was running and is over. *)
Lemma tick_cases deltaMs env e e' :
  tick deltaMs env e = Some e' →
  (phase (state e') = phase (state e) ∧ storage e' = storage e)
  ∨ (phase (state e) = playing ∧
     ∃ e1 reason,
       phase (state e1) = playing ∧ storage e1 = storage e ∧
       mode (state e1) = mode (state e) ∧
       e' = gameOver reason e1).
Proof.
  intros Htick.
  destruct (decide (phase (state e) = playing)) as [Hph|Hph].
  2: { rewrite tick_not_playing in Htick by done. injection Htick as <-.
       by left. }
  destruct (tick_playing deltaMs env e Hph) as (e1 & Hpre & Heq).
  rewrite Heq in Htick. clear Heq.
  destruct (tickPrelude_spec env e)
    as (e1' & Hpre' & [Hm _ _ _ _] & Hph1 & _ & _ & _ & Hst1 & _).
  assert (e1' = e1) as -> by congruence. clear Hpre'.
  destruct (snake (state e1) !! 0%nat) as [head|]; [|done].
  simpl in Htick. destruct (computeNewHead e1) as [newHead|]; [|done].
  simpl in Htick.
  destruct (wallHit e1 newHead || selfHit e1 newHead).
  - injection Htick as <-.
    destruct ((gracePeriodTicks (state e1) >? 0)
              || (bool_decide (mode (state e1) = zen) && selfHit e1 newHead))
      eqn:Hab.
    + rewrite (handleCollision_absorb _ _ _ Hab). left. simpl.
      by rewrite Hph1, Hst1.
    + rewrite (handleCollision_fatal _ _ _ Hab). right.
      split; [done|]. eexists e1, _. rewrite Hph1, Hph. done.
  - destruct (moveSnake_spec env head newHead e1)
      as (e2 & Hmove & _ & Hph2 & _ & _ & Hst2 & _).
    rewrite Hmove in Htick. injection Htick as <-. left.
    by rewrite Hph2, Hph1, Hst2, Hst1.
Qed.

(** X22.  [togglePause] twice, and [pause] followed by [resume] on an
    engine that is not paused, give the state back, and so do the
    generator and the storage: pausing loses nothing of a game.
    [pause] and [resume] are idempotent. *)
Theorem X22_pause_keeps_the_game (e : GameEngine) :
  state (togglePause (togglePause e)) = state e ∧
  rng (togglePause (togglePause e)) = rng e ∧
  storage (togglePause (togglePause e)) = storage e ∧
  pause (pause e) = pause e ∧
  resume (resume e) = resume e ∧
  (phase (state e) ≠ paused → state (resume (pause e)) = state e).
Proof.
  destruct e as [[ph md sc hs co le cw sn di nd bu fo gw gh tr bt tc gr ds]
                 r pt em st].
  unfold togglePause, pause, resume.
  destruct ph; simpl; repeat split; try done.
Qed.



(** X24.  A call that changes the phase announces it: the last event it
    emits is the [PHASE_CHANGE] from the old phase to the new one.  The
    boot phase is never entered, the menu only by [goToMenu], the pause
    only from a running game, the end of the game only by a [tick] of a
    running game, and a game runs only after [startGame] or when a
    paused one is resumed. *)
Theorem X24_phase_changes_are_announced (op : Op) (e e' : GameEngine) :
  step op e = Some e' →
  phase (state e') ≠ phase (state e) →
  last (emitted e')
  = Some (PHASE_CHANGE (phase (state e)) (phase (state e'))) ∧
  match phase (state e') with
  | boot => False
  | menu => op = OpGoToMenu
  | playing =>
      (∃ m env, op = OpStartGame m env)
      ∨ (phase (state e) = paused ∧ (op = OpResume ∨ op = OpTogglePause))
  | paused => phase (state e) = playing ∧ (op = OpPause ∨ op = OpTogglePause)
  | gameover => phase (state e) = playing ∧ isTick op = true
  end.
Proof.
  intros Hstep Hne.
  destruct op as [w h|m env| | | | |dir|deltaMs env].
  - injection Hstep as <-. done.
  - rewrite step_startGame in Hstep. revert Hstep.
    unfold startGame. cbv zeta.
    match goal with
    | |- context [respawn ?a ?b ?c] =>
        destruct (respawn_shape a b c) as (fd & r & ->)
    end.
    intros [= <-]. simpl. rewrite last_snoc. split; [done|]. left. eauto.
  - injection Hstep as <-. unfold goToMenu. simpl. by rewrite last_snoc.
  - injection Hstep as <-. revert Hne. unfold pause.
    case_bool_decide as Hph; [|done]. simpl. rewrite last_snoc, Hph.
    intros _. split; [done|]. split; [done|]. by left.
  - injection Hstep as <-. revert Hne. unfold resume.
    case_bool_decide as Hph; [|done]. simpl. rewrite last_snoc, Hph.
    intros _. split; [done|]. right. split; [done|]. by left.
  - injection Hstep as <-. revert Hne. unfold togglePause, pause, resume.
    case_bool_decide as Hph.
    + simpl. rewrite last_snoc, Hph.
      intros _. split; [done|]. split; [done|]. by right.
    + case_bool_decide as Hph'; [|done]. simpl. rewrite last_snoc, Hph'.
      intros _. split; [done|]. right. split; [done|]. by right.
  - injection Hstep as <-. revert Hne.
    by destruct (setDirection_shape dir e) as [->|[_ ->]].
  - rewrite step_tick in Hstep.
    destruct (tick_cases deltaMs env e e' Hstep)
      as [[Hph Hst]|(Hph & e1 & reason & Hph1 & _ & _ & ->)]; [done|].
    unfold gameOver, saveHighScore. simpl.
    by rewrite last_snoc, Hph1, Hph.
Qed.

Lemma X24_phase_changes_are_announced_witness :
  let e := Scenario.after Scenario.doomed in
  ∃ e', step (Scenario.tickAt 400) e = Some e' ∧
    last (emitted e')
    = Some (PHASE_CHANGE (phase (state e)) (phase (state e'))) ∧
    match phase (state e') with
    | boot => False
    | menu => Scenario.tickAt 400 = OpGoToMenu
    | playing =>
        (∃ m env, Scenario.tickAt 400 = OpStartGame m env)
        ∨ (phase (state e) = paused ∧
           (Scenario.tickAt 400 = OpResume
            ∨ Scenario.tickAt 400 = OpTogglePause))
    | paused =>
        phase (state e) = playing ∧
        (Scenario.tickAt 400 = OpPause ∨ Scenario.tickAt 400 = OpTogglePause)
    | gameover => phase (state e) = playing ∧ isTick (Scenario.tickAt 400) = true
    end.
Proof.
  eexists. split; [vm_compute; reflexivity|].
  refine (X24_phase_changes_are_announced (Scenario.tickAt 400)
            (Scenario.after Scenario.doomed) _ _ _).
  - vm_compute. reflexivity.
  - vm_compute. discriminate.
Defined.

Lemma wrapPosition_None pos w h :
  Collision.wrapPosition pos w h = None ↔ w = 0 ∨ h = 0.
Proof.
  unfold Collision.wrapPosition. split.
  - intros H. destruct (decide (w = 0)) as [|Hw]; [by left|].
    destruct (decide (h = 0)) as [|Hh]; [by right|].
    destruct (wrapCoord_nonzero (x pos) w Hw) as [wx Ex].
    destruct (wrapCoord_nonzero (y pos) h Hh) as [wy Ey].
    by rewrite Ex, Ey in H.
  - intros [-> | ->].
    + by rewrite wrapCoord_zero.
    + rewrite wrapCoord_zero. by destruct (Collision.wrapCoord (x pos) w).
Qed.

(** A tick of an engine whose running games have a snake fails only in
    the zen mode on a grid with a zero dimension. *)
Lemma tick_None_iff (e : GameEngine) (deltaMs : Z) (env : TickEnv) :
  (phase (state e) = playing → snake (state e) ≠ []) →
  tick deltaMs env e = None
  ↔ phase (state e) = playing ∧ mode (state e) = zen ∧
    (gridWidth (state e) = 0 ∨ gridHeight (state e) = 0).
Proof.
  intros Hsnake.
  destruct (decide (phase (state e) = playing)) as [Hph|Hph].
  2: { rewrite tick_not_playing by done. split; [done|]. by intros [? _]. }
  specialize (Hsnake Hph).
  destruct (tick_playing deltaMs env e Hph) as (e1 & Hpre & ->).
  destruct (tickPrelude_spec env e)
    as (e1' & Hpre' & [Hm Hw Hh _ _] & _ & _ & _ & Hpos1 & _).
  assert (e1' = e1) as -> by congruence. clear Hpre'.
  assert (Hs1 : snake (state e1) ≠ [])
    by (eapply snake_nonempty_positions; eauto).
  destruct (snake (state e1)) as [|head rest] eqn:Hsn; [done|].
  assert (Hhead : snake (state e1) !! 0%nat = Some head)
    by (by rewrite Hsn).
  change (Some head) with ((head :: rest) !! 0%nat). rewrite <- Hsn.
  rewrite Hhead. simpl. rewrite <- Hm, <- Hw, <- Hh.
  unfold computeNewHead at 1. rewrite Hhead. simpl.
  destruct (decide (mode (state e1) = zen)) as [Hz|Hz].
  - rewrite bool_decide_eq_true_2 by done.
    destruct (Collision.wrapPosition _ _ _) as [newHead|] eqn:Hwrap.
    + simpl. split.
      * destruct (wallHit e1 newHead || selfHit e1 newHead); [done|].
        by destruct (moveSnake_spec env head newHead e1) as (? & -> & _).
      * intros (_ & _ & Hzero).
        by rewrite (proj2 (wrapPosition_None _ _ _) Hzero) in Hwrap.
    + simpl. apply wrapPosition_None in Hwrap. done.
  - rewrite bool_decide_eq_false_2 by done. simpl. split.
    + destruct (wallHit e1 _ || selfHit e1 _); [done|].
      by destruct (moveSnake_spec env head
                     (Collision.getNextHeadPosition head
                        (DIRECTION_VECTORS (direction (state e1)))) e1)
        as (? & -> & _).
    + by intros (_ & ? & _).
Qed.

(** X25.  [tick] completes on every reachable state, with one
    exception: a running zen game on a grid one of whose dimensions is
    zero, where the wrap yields [NaN] for the head. *)
Theorem X25_tick_completes (e : GameEngine) (deltaMs : Z) (env : TickEnv) :
  reachable e →
  tick deltaMs env e = None
  ↔ phase (state e) = playing ∧ mode (state e) = zen ∧
    (gridWidth (state e) = 0 ∨ gridHeight (state e) = 0).
Proof.
  intros He. apply tick_None_iff. intros Hph.
  destruct (reachable_invariant e He) as [_ _ _ Hsnake]. auto.
Qed.

Lemma X25_tick_completes_witness :
  let e := Scenario.after Scenario.zenLoop in
  tick 100 (mkTickEnv 700 700 700 700) e = None
  ↔ phase (state e) = playing ∧ mode (state e) = zen ∧
    (gridWidth (state e) = 0 ∨ gridHeight (state e) = 0).
Proof.
  refine (X25_tick_completes (Scenario.after Scenario.zenLoop) 100
            (mkTickEnv 700 700 700 700) _).
  eapply after_reachable. vm_compute. reflexivity.
Defined.

(** *** How the snake moves *)

Lemma removelast_cons_cons {A : Type} (a : A) (l : list A) :
  l ≠ [] → removelast (a :: l) = a :: removelast l.
Proof. by destruct l. Qed.

(** Where the head of a running game goes in a tick, and whether the
    snake follows. *)
Lemma tick_head deltaMs env e e' :
  phase (state e) = playing → tick deltaMs env e = Some e' →
  gridWidth (state e') = gridWidth (state e) ∧
  gridHeight (state e') = gridHeight (state e) ∧
  mode (state e') = mode (state e) ∧
  ∃ hd newHead,
    head (positions e) = Some hd ∧
    nextCell (state e) hd = Some newHead ∧
    (((Collision.checkWallCollision newHead (gridWidth (state e))
         (gridHeight (state e)) = true
       ∨ newHead ∈ tail (positions e)) ∧
      positions e' = positions e)
     ∨ (Collision.checkWallCollision newHead (gridWidth (state e))
          (gridHeight (state e)) = false ∧
        (newHead ∉ tail (positions e)) ∧
        phase (state e') = playing ∧
        (positions e' = newHead :: positions e
         ∨ positions e' = newHead :: removelast (positions e)))).
Proof.
  intros Hph Htick.
  destruct (tick_playing deltaMs env e Hph) as (e1 & Hpre & Heq).
  rewrite Heq in Htick. clear Heq.
  destruct (tickPrelude_spec env e)
    as (e1' & Hpre' & [Hm Hw Hh _ _] & Hph1 & _ & _ & Hpos1 & _ & _ & Hd1).
  assert (e1' = e1) as -> by congruence. clear Hpre'.
  destruct (snake (state e1) !! 0%nat) as [hd|] eqn:Hhead; [|done].
  simpl in Htick.
  destruct (computeNewHead e1) as [newHead|] eqn:Hnew; [|done].
  simpl in Htick.
  assert (Hcell : nextCell (state e) hd = Some newHead).
  { revert Hnew. unfold computeNewHead, nextCell. rewrite Hhead. simpl.
    by rewrite Hd1, Hm, Hw, Hh. }
  assert (Hhd : head (positions e) = Some (segPos hd)).
  { rewrite <- Hpos1. unfold positions.
    destruct (snake (state e1)); [done|]. by injection Hhead as ->. }
  assert (Hself : selfHit e1 newHead = true ↔ newHead ∈ tail (positions e)).
  { unfold selfHit, Collision.checkSelfCollision. rewrite on_segments.
    rewrite <- Hpos1. unfold positions. by destruct (snake (state e1)). }
  assert (Hwall : wallHit e1 newHead
                  = Collision.checkWallCollision newHead
                      (gridWidth (state e)) (gridHeight (state e))).
  { unfold wallHit. by rewrite Hw, Hh. }
  destruct (wallHit e1 newHead || selfHit e1 newHead) eqn:Hhit.
  - injection Htick as <-.
    assert (Hsame : ∀ b1 b2,
      gridWidth (state (handleCollision b1 b2 e1)) = gridWidth (state e1) ∧
      gridHeight (state (handleCollision b1 b2 e1))
      = gridHeight (state e1) ∧
      mode (state (handleCollision b1 b2 e1)) = mode (state e1) ∧
      positions (handleCollision b1 b2 e1) = positions e1).
    { intros b1 b2. unfold handleCollision.
      by destruct ((gracePeriodTicks (state e1) >? 0)
                   || (bool_decide (mode (state e1) = zen) && b2)). }
    destruct (Hsame (wallHit e1 newHead) (selfHit e1 newHead))
      as (-> & -> & -> & ->).
    split; [done|]. split; [done|]. split; [done|].
    exists (segPos hd), newHead. split; [done|]. split; [done|]. left.
    split; [|done].
    apply orb_true_iff in Hhit as [Hhit|Hhit].
    + left. by rewrite <- Hwall.
    + right. by apply Hself.
  - apply orb_false_iff in Hhit as [Hnowall Hnoself].
    destruct (moveSnake_spec env hd newHead e1)
      as (e2 & Hmove & [Hm2 Hw2 Hh2 _ _] & Hph2 & _).
    destruct (summary_move env hd newHead e1)
      as (e2' & sc & co & fd' & cells & Hmove' & Hsum2 & Hcases).
    rewrite Hmove in Hmove'. injection Hmove' as <-.
    rewrite Hmove in Htick. injection Htick as <-.
    rewrite Hm2, Hw2, Hh2.
    split; [done|]. split; [done|]. split; [done|].
    exists (segPos hd), newHead. split; [done|]. split; [done|]. right.
    split; [by rewrite <- Hwall|]. split.
    { rewrite <- Hself. by rewrite Hnoself. }
    split; [by rewrite Hph2, Hph1|].
    injection Hsum2 as _ _ _ _ _ Hpos2 _ _ _ _. rewrite Hpos2.
    destruct Hcases as [(f & _ & _ & -> & _)|(-> & _)].
    + left. by rewrite Hpos1.
    + right. rewrite Hpos1. apply removelast_cons_cons.
      intros E. by rewrite E in Hhd.
Qed.

(** X26.  In a tick of a running game the head goes for the cell next to
    it in the upcoming direction, wrapped in the zen mode.  If that cell
    is off the grid or on the body behind the head, the snake stays
    where it is.  Otherwise the game goes on and the snake follows its
    head: the new cell comes first and every segment takes the place of
    the one before it, the last cell being given up unless the snake has
    eaten. *)
Theorem X26_snake_follows_its_head (e : GameEngine) (deltaMs : Z)
    (env : TickEnv) (e' : GameEngine) :
  phase (state e) = playing → tick deltaMs env e = Some e' →
  ∃ hd newHead,
    head (positions e) = Some hd ∧
    nextCell (state e) hd = Some newHead ∧
    (mode (state e) ≠ zen → Collision.manhattanDistance hd newHead = 1) ∧
    (((Collision.checkWallCollision newHead (gridWidth (state e))
         (gridHeight (state e)) = true
       ∨ newHead ∈ tail (positions e)) ∧
      positions e' = positions e)
     ∨ (Collision.checkWallCollision newHead (gridWidth (state e))
          (gridHeight (state e)) = false ∧
        (newHead ∉ tail (positions e)) ∧
        phase (state e') = playing ∧
        (positions e' = newHead :: positions e
         ∨ positions e' = newHead :: removelast (positions e)))).
Proof.
  intros Hph Htick.
  destruct (tick_head deltaMs env e e' Hph Htick)
    as (_ & _ & _ & hd & newHead & Hhd & Hcell & Hcases).
  exists hd, newHead. split; [done|]. split; [done|]. split; [|done].
  intros Hz. revert Hcell. unfold nextCell.
  rewrite bool_decide_eq_false_2 by done. intros [= <-].
  unfold Collision.manhattanDistance, Collision.getNextHeadPosition.
  destruct hd as [hx hy].
  destruct (upcomingDirection (state e)); simpl; lia.
Qed.

Lemma X26_snake_follows_its_head_witness :
  let e := Scenario.after Scenario.meal in
  ∃ e', tick 100 (mkTickEnv 300 300 300 300) e = Some e' ∧
  ∃ hd newHead,
    head (positions e) = Some hd ∧
    nextCell (state e) hd = Some newHead ∧
    (mode (state e) ≠ zen → Collision.manhattanDistance hd newHead = 1) ∧
    (((Collision.checkWallCollision newHead (gridWidth (state e))
         (gridHeight (state e)) = true
       ∨ newHead ∈ tail (positions e)) ∧
      positions e' = positions e)
     ∨ (Collision.checkWallCollision newHead (gridWidth (state e))
          (gridHeight (state e)) = false ∧
        (newHead ∉ tail (positions e)) ∧
        phase (state e') = playing ∧
        (positions e' = newHead :: positions e
         ∨ positions e' = newHead :: removelast (positions e)))).
Proof.
  eexists. split; [vm_compute; reflexivity|].
  refine (X26_snake_follows_its_head (Scenario.after Scenario.meal)
            100 (mkTickEnv 300 300 300 300) _ _ _).
  - vm_compute. reflexivity.
  - vm_compute. reflexivity.
Defined.

Lemma NoDup_removelast {A : Type} (l : list A) :
  NoDup l → NoDup (removelast l).
Proof.
  induction l as [|a [|b l] IH]; [done|by intros _; constructor|].
  change (removelast (a :: b :: l)) with (a :: removelast (b :: l)).
  rewrite !(NoDup_cons a). intros [Hnot Hnd]. split; [|by apply IH].
  intros Hin. apply Hnot. by apply elem_of_removelast.
Qed.

(** On a grid at least two cells wide and high the cell the head goes
    for is never the cell it is on. *)
Lemma nextCell_moves s hd newHead :
  1 < gridWidth s → 1 < gridHeight s →
  nextCell s hd = Some newHead → newHead ≠ hd.
Proof.
  intros Hw Hh. unfold nextCell. cbv zeta. case_bool_decide.
  - rewrite wrapPosition_pos by lia. intros [= <-] E.
    destruct hd as [hx hy]. injection E as Ex Ey.
    unfold Collision.getNextHeadPosition in Ex, Ey. simpl in Ex, Ey.
    assert (Hunit : ∀ c d size, 1 < size → (d = 1 ∨ d = -1) →
              (c + d) `mod` size ≠ c).
    { clear. intros c d size Hs Hd E.
      pose proof (Z.div_mod (c + d) size ltac:(lia)) as Hdm.
      rewrite E in Hdm.
      destruct (Z_le_gt_dec 0 ((c + d) `div` size));
        destruct (Z_le_gt_dec ((c + d) `div` size) 0); nia. }
    destruct (upcomingDirection s); simpl in Ex, Ey.
    + by apply (Hunit hy (-1) (gridHeight s) Hh (or_intror eq_refl)).
    + by apply (Hunit hy 1 (gridHeight s) Hh (or_introl eq_refl)).
    + by apply (Hunit hx (-1) (gridWidth s) Hw (or_intror eq_refl)).
    + by apply (Hunit hx 1 (gridWidth s) Hw (or_introl eq_refl)).
  - intros [= <-] E. destruct hd as [hx hy]. injection E as Ex Ey.
    destruct (upcomingDirection s); simpl in Ex, Ey; lia.
Qed.

Lemma step_NoDup op e e' :
  NoDup (positions e) ∧ 1 < gridWidth (state e) ∧ 1 < gridHeight (state e) →
  wideGrid op = true → step op e = Some e' →
  NoDup (positions e') ∧ 1 < gridWidth (state e') ∧
  1 < gridHeight (state e').
Proof.
  intros (Hnd & Hw & Hh) Hwide Hstep.
  destruct op as [w h|m env| | | | |dir|deltaMs env].
  - injection Hstep as <-. simpl in Hwide.
    apply andb_true_iff in Hwide as [?%Z.ltb_lt ?%Z.ltb_lt]. done.
  - rewrite step_startGame in Hstep.
    destruct (startGame_spec m env e)
      as (e2 & Heq & _ & _ & _ & _ & _ & _ & _ & _ & Hw2 & Hh2).
    destruct (summary_startGame m env e) as (e3 & fd & Heq' & Hsum & _).
    rewrite Hstep in Heq, Heq'. injection Heq as <-. injection Heq' as <-.
    rewrite Hw2, Hh2. split; [|done].
    injection Hsum as _ _ _ _ _ Hpos _ _ _ _. rewrite Hpos.
    repeat (apply NoDup_cons; split);
      rewrite ?elem_of_cons, ?elem_of_nil; try apply NoDup_nil_2;
      intros H; repeat destruct H as [H|H]; try done;
      injection H as H; lia.
  - by injection Hstep as <-.
  - injection Hstep as <-. unfold pause. by case_bool_decide.
  - injection Hstep as <-. unfold resume. by case_bool_decide.
  - injection Hstep as <-. unfold togglePause, pause, resume.
    by repeat case_bool_decide.
  - injection Hstep as <-.
    by destruct (setDirection_shape dir e) as [->|[_ ->]].
  - rewrite step_tick in Hstep.
    destruct (decide (phase (state e) = playing)) as [Hph|Hph].
    2: { rewrite tick_not_playing in Hstep by done.
         by injection Hstep as <-. }
    destruct (tick_head deltaMs env e e' Hph Hstep)
      as (-> & -> & _ & hd & newHead & Hhd & Hcell & Hcases).
    split; [|done].
    destruct Hcases as [[_ ->]|(_ & Hnot & _ & Hpos)]; [done|].
    pose proof (nextCell_moves _ _ _ Hw Hh Hcell) as Hmoves.
    destruct (positions e) as [|hd' rest] eqn:Hcells; [done|].
    injection Hhd as ->. simpl in Hnot.
    assert (Hfresh : newHead ∉ hd :: rest).
    { rewrite elem_of_cons. by intros [?|?]. }
    destruct Hpos as [-> | ->].
    + by apply NoDup_cons.
    + apply NoDup_cons. split; [|by apply NoDup_removelast].
      intros Hin. apply Hfresh. by apply elem_of_removelast.
Qed.

(** X27.  The snake never lies on itself: as long as the grid is kept at
    least two cells wide and high, the segments of the snake are on
    different cells after any sequence of calls on a new engine. *)
Theorem X27_snake_never_overlaps (ops : list Op) (env : StartEnv)
    (stored : GameMode → option Z) (e : GameEngine) :
  forallb wideGrid ops = true →
  run ops (construct env stored) = Some e →
  NoDup (positions e).
Proof.
  intros Hwide Hrun.
  assert (Hgen : ∀ ops e0 e1,
    NoDup (positions e0) ∧ 1 < gridWidth (state e0)
      ∧ 1 < gridHeight (state e0) →
    forallb wideGrid ops = true → run ops e0 = Some e1 →
    NoDup (positions e1) ∧ 1 < gridWidth (state e1)
      ∧ 1 < gridHeight (state e1)).
  { clear. intros ops. induction ops as [|op ops IH]; intros e0 e1 H0.
    - intros _ [= <-]. done.
    - intros Hwide Hrun. cbn [forallb] in Hwide.
      apply andb_true_iff in Hwide as [Hop Hops].
      cbn [run] in Hrun.
      destruct (step op e0) as [e2|] eqn:Hstep; [|done].
      simpl in Hrun.
      exact (IH e2 e1 (step_NoDup op e0 e2 H0 Hop Hstep) Hops Hrun). }
  refine (proj1 (Hgen ops (construct env stored) e _ Hwide Hrun)).
  split; [apply NoDup_nil_2|]. simpl. lia.
Qed.

Lemma X27_snake_never_overlaps_witness :
  NoDup (positions (Scenario.after Scenario.fed)).
Proof.
  refine (X27_snake_never_overlaps Scenario.fed Scenario.startEnv
            Scenario.noScores (Scenario.after Scenario.fed) _ _).
  - vm_compute. reflexivity.
  - vm_compute. reflexivity.
Defined.

(** *** The high score on display and the stored one *)










(** *** The daily game *)

(** What [spawnFood] returns but for the time stamps depends on the
    generator, the snake, the grid and the score only. *)
Lemma respawn_same currentScore now1 now2 a b a' b' :
  rng a = rng b → snake (state a) = snake (state b) →
  gridWidth (state a) = gridWidth (state b) →
  gridHeight (state a) = gridHeight (state b) →
  respawn currentScore now1 a = Some a' →
  respawn currentScore now2 b = Some b' →
  rng a' = rng b' ∧
  foodPos <$> food (state a') = foodPos <$> food (state b') ∧
  type <$> food (state a') = type <$> food (state b') ∧
  ∃ fa ra fb rb,
    a' = upd (set_food fa) (set_rng ra a) ∧
    b' = upd (set_food fb) (set_rng rb b).
Proof.
  intros Hr Hs Hw Hh. unfold respawn. rewrite <- Hr, <- Hs, <- Hw, <- Hh.
  pose proof (spawnFood_spec (rng a) (snake (state a))
                (Spawn.gridConfig (gridWidth (state a))
                                  (gridHeight (state a)))
                currentScore now1) as H1.
  pose proof (spawnFood_spec (rng a) (snake (state a))
                (Spawn.gridConfig (gridWidth (state a))
                                  (gridHeight (state a)))
                currentScore now2) as H2.
  cbv zeta in H1, H2.
  destruct H1 as [[E1 Hspawn1]|(pos1 & Hin1 & Hpick1 & Hspawn1)];
    destruct H2 as [[E2 Hspawn2]|(pos2 & Hin2 & Hpick2 & Hspawn2)];
    rewrite Hspawn1, Hspawn2; simpl.
  - intros [= <-] [= <-]. simpl.
    split; [done|]. split; [done|]. split; [done|].
    by eexists _, _, _, _.
  - rewrite E1 in Hin2. by apply elem_of_nil in Hin2.
  - rewrite E2 in Hin1. by apply elem_of_nil in Hin1.
  - rewrite Hpick1 in Hpick2. injection Hpick2 as <-.
    intros [= <-] [= <-]. simpl.
    split; [done|]. split; [done|]. split; [done|].
    by eexists _, _, _, _.
Qed.

(** X30.  The daily game is the same for everybody: [startGame] in the
    daily mode on the same day and the same grid leads to the same seed,
    the same generator, the same snake and a first food of the same type
    on the same cell, whatever the engines have been through and
    whatever their clocks say. *)
Theorem X30_daily_game_same_for_all (env1 env2 : StartEnv)
    (e1 e2 e1' e2' : GameEngine) :
  today env1 = today env2 →
  gridWidth (state e1) = gridWidth (state e2) →
  gridHeight (state e1) = gridHeight (state e2) →
  startGame daily env1 e1 = Some e1' →
  startGame daily env2 e2 = Some e2' →
  dailySeed (state e1') = Rng.getDailySeed (today env1) ∧
  dailySeed (state e1') = dailySeed (state e2') ∧
  rng e1' = rng e2' ∧
  snake (state e1') = snake (state e2') ∧
  foodPos <$> food (state e1') = foodPos <$> food (state e2') ∧
  type <$> food (state e1') = type <$> food (state e2').
Proof.
  intros Hday Hw Hh. unfold startGame. cbv zeta.
  rewrite !bool_decide_eq_true_2 by done.
  match goal with
  | |- (?a ≫= _) = _ → (?b ≫= _) = _ → _ =>
      destruct a as [a'|] eqn:Ha; [|done];
      destruct b as [b'|] eqn:Hb; [|done]
  end.
  simpl. intros [= <-] [= <-]. simpl.
  match type of Ha with
  | respawn _ _ ?a = _ =>
      match type of Hb with
      | respawn _ _ ?b = _ =>
          destruct (respawn_same 0 (spawnNow env1) (spawnNow env2) a b a' b')
            as (Hr & Hp & Ht & fa & ra & fb & rb & -> & ->);
          first [ exact Ha | exact Hb
                | by simpl; rewrite ?Hday, ?Hw, ?Hh
                | idtac ]
      end
  end.
Qed.

Lemma X30_daily_game_same_for_all_witness :
  let env2 := mkStartEnv 1700000050000 (Rng.mkDate 2024 0 15) 777 in
  let e1 := Scenario.initial in
  let e2 := Scenario.after Scenario.doomed in
  ∃ e1' e2',
    startGame daily Scenario.startEnv e1 = Some e1' ∧
    startGame daily env2 (setGridSize 20 20 e2) = Some e2' ∧
    dailySeed (state e1') = Rng.getDailySeed (today Scenario.startEnv) ∧
    dailySeed (state e1') = dailySeed (state e2') ∧
    rng e1' = rng e2' ∧
    snake (state e1') = snake (state e2') ∧
    foodPos <$> food (state e1') = foodPos <$> food (state e2') ∧
    type <$> food (state e1') = type <$> food (state e2').
Proof.
  eexists _, _. split; [vm_compute; reflexivity|].
  split; [vm_compute; reflexivity|].
  refine (X30_daily_game_same_for_all Scenario.startEnv
            (mkStartEnv 1700000050000 (Rng.mkDate 2024 0 15) 777)
            Scenario.initial
            (setGridSize 20 20 (Scenario.after Scenario.doomed))
            _ _ _ _ _ _ _).
  - reflexivity.
  - reflexivity.
  - reflexivity.
  - vm_compute. reflexivity.
  - vm_compute. reflexivity.
Defined.

End EngineFurther.


(** * The fixed-timestep loop *)

Section GameLoopProperties.
Import Engine GameLoop.

Lemma tickOps_S deltaMs envs first n :
  tickOps deltaMs envs first (S n)
  = OpTick deltaMs (envs first) :: tickOps deltaMs envs (S first) n.
Proof. reflexivity. Qed.

(** The ticks of a frame complete on a reachable state whose grid can be
    wrapped, and lead to such a state. *)
Lemma run_ticks_total deltaMs envs n first e :
  reachable e → wrappable (state e) →
  ∃ e', run (tickOps deltaMs envs first n) e = Some e' ∧
        reachable e' ∧ wrappable (state e').
Proof.
  revert first e. induction n as [|n IH]; intros first e He Hwrap.
  - exists e. by split.
  - rewrite tickOps_S. cbn [run]. rewrite step_tick.
    destruct (tick deltaMs (envs first) e) as [e1|] eqn:Htick.
    2: { apply tick_None_iff in Htick.
         - destruct Htick as (_ & Hz & Hzero).
           destruct (Hwrap Hz) as [? ?]. by destruct Hzero.
         - intros Hph. destruct (reachable_invariant e He) as [_ _ _ Hs].
           auto. }
    simpl.
    assert (He1 : reachable e1).
    { apply (reachable_step (OpTick deltaMs (envs first)) e e1 He).
      by rewrite step_tick. }
    apply IH; [done|].
    destruct (decide (phase (state e) = playing)) as [Hph|Hph].
    + destruct (tick_head deltaMs (envs first) e e1 Hph Htick)
        as (Hw & Hh & Hm & _).
      unfold wrappable. by rewrite Hw, Hh, Hm.
    + rewrite tick_not_playing in Htick by done. by injection Htick as <-.
Qed.

(** The loop of a frame performs as many ticks as whole tick rates fit
    into the accumulated time, and keeps the remainder. *)
Lemma whileTicks_spec tickRate envs n :
  0 < tickRate →
  ∀ fuel first acc e e',
    0 ≤ acc → Z.to_nat (acc `div` tickRate) = n → (n ≤ fuel)%nat →
    run (tickOps tickRate envs first n) e = Some e' →
    whileTicks fuel tickRate envs first acc e
    = Some (acc `mod` tickRate, e').
Proof.
  intros Hrate. induction n as [|n IH]; intros fuel first acc e e' Hacc Hn Hfuel.
  - intros [= <-].
    assert (Hsmall : acc < tickRate).
    { pose proof (Z.div_mod acc tickRate ltac:(lia)).
      pose proof (Z.mod_pos_bound acc tickRate Hrate).
      pose proof (Z.div_pos acc tickRate Hacc Hrate).
      assert (acc `div` tickRate = 0) by lia. nia. }
    rewrite Z.mod_small by lia.
    destruct fuel; simpl;
      by destruct (Z.geb_spec acc tickRate); [lia|].
  - rewrite tickOps_S. cbn [run]. rewrite step_tick.
    destruct (tick tickRate (envs first) e) as [e1|] eqn:Htick; [|done].
    simpl. intros Hrun.
    assert (Hbig : tickRate ≤ acc).
    { pose proof (Z.div_mod acc tickRate ltac:(lia)).
      pose proof (Z.mod_pos_bound acc tickRate Hrate).
      assert (1 ≤ acc `div` tickRate) by lia. nia. }
    destruct fuel as [|fuel]; [lia|]. simpl.
    destruct (Z.geb_spec acc tickRate); [|lia].
    rewrite Htick. simpl.
    assert (Hdiv : (acc - tickRate) `div` tickRate = acc `div` tickRate - 1).
    { replace (acc - tickRate) with (acc + (-1) * tickRate) by lia.
      rewrite Z.div_add by lia. lia. }
    assert (Hmod : (acc - tickRate) `mod` tickRate = acc `mod` tickRate).
    { replace (acc - tickRate) with (acc + (-1) * tickRate) by lia.
      by rewrite Z.mod_add by lia. }
    rewrite <- Hmod. apply IH; [lia|lia|lia|done].
Qed.

(** X28.  A frame of the loop on a running game performs exactly as many
    ticks, one after the other, as whole tick rates fit into the
    accumulated time, the time since the last frame counting for at most
    250 ms.  It completes, keeps the remainder in the accumulator and
    hands the renderer an [alpha] of at least 0 and below 1.  An
    accumulator that was below the tick rate leads to at most five
    ticks, however long the frame took. *)
Theorem X28_frame_runs_the_due_ticks (r : Refs) (timestamp : Z)
    (envs : nat → TickEnv) (e : GameEngine) :
  reachable e → wrappable (state e) → phase (state e) = playing →
  isFirstFrame r = false → 0 ≤ accumulator r → lastTime r ≤ timestamp →
  let rate := tickRate (state e) in
  let budget := accumulator r + Z.min (timestamp - lastTime r) 250 in
  let n := Z.to_nat (budget `div` rate) in
  ∃ e' a,
    run (tickOps rate envs 0 n) e = Some e' ∧
    (∀ fuel, (n ≤ fuel)%nat →
       loop fuel timestamp envs r e
       = Some (mkFrame (mkRefs (budget `mod` rate) timestamp false) e'
                       (Some a))) ∧
    (0 <= a)%Q ∧ (a < 1)%Q ∧
    0 ≤ budget `mod` rate < rate ∧
    (accumulator r < rate → (n ≤ 5)%nat).
Proof.
  intros He Hwrap Hph Hfirst Hacc Htime rate budget n.
  destruct (reachable_invariant e He) as [[Hmin _] _ _ _].
  unfold MIN_TICK_RATE in Hmin. fold rate in Hmin.
  assert (Hbudget : 0 ≤ budget) by (unfold budget; lia).
  destruct (run_ticks_total rate envs n 0 e He Hwrap) as (e' & Hrun & _).
  pose proof (Z.mod_pos_bound budget rate ltac:(lia)) as Hmod.
  exists e', (inject_Z (budget `mod` rate) / inject_Z rate)%Q.
  split; [done|]. split; [|split; [|split; [|split]]].
  - intros fuel Hfuel. unfold loop. rewrite Hfirst. cbv zeta.
    rewrite bool_decide_eq_true_2 by done.
    fold rate. fold budget.
    by rewrite (whileTicks_spec rate envs n ltac:(lia) fuel 0%nat budget e e'
                  Hbudget eq_refl Hfuel Hrun).
  - apply Qle_shift_div_l.
    + change 0%Q with (inject_Z 0). rewrite <- Zlt_Qlt. lia.
    + rewrite Qmult_0_l. change 0%Q with (inject_Z 0).
      rewrite <- Zle_Qle. lia.
  - apply Qlt_shift_div_r.
    + change 0%Q with (inject_Z 0). rewrite <- Zlt_Qlt. lia.
    + rewrite Qmult_1_l. rewrite <- Zlt_Qlt. lia.
  - done.
  - intros Hlt. unfold n.
    assert (budget `div` rate < 6); [|lia].
    apply Z.div_lt_upper_bound; [lia|]. unfold budget. lia.
Qed.

Lemma X28_frame_runs_the_due_ticks_witness :
  let e := Scenario.after Scenario.narrowStart in
  let r := mkRefs 30 1000 false in
  let envs := Scenario.frameClock 100 in
  ∃ e' a,
    run (tickOps 100 envs 0 2) e = Some e' ∧
    (∀ fuel, (2 ≤ fuel)%nat →
       loop fuel 5000 envs r e
       = Some (mkFrame (mkRefs 80 5000 false) e' (Some a))) ∧
    (0 <= a)%Q ∧ (a < 1)%Q ∧
    0 ≤ 80 < 100 ∧
    (30 < 100 → (2 ≤ 5)%nat).
Proof.
  refine (X28_frame_runs_the_due_ticks (mkRefs 30 1000 false) 5000
            (Scenario.frameClock 100)
            (Scenario.after Scenario.narrowStart) _ _ _ _ _ _).
  - eapply after_reachable. vm_compute. reflexivity.
  - intros H. vm_compute in H. discriminate H.
  - vm_compute. reflexivity.
  - reflexivity.
  - simpl. lia.
  - simpl. lia.
Defined.

End GameLoopProperties.
